(** * Transcript pipeline of [pdf_processing_v4.py]: a shallow embedding

    The Python module turns the text of a PDF transcript into speaker
    turns.  Its deterministic part is string rewriting with [re.sub],
    [str.replace], [str.strip], [str.find] and slicing.  This file embeds
    those functions and states what they do.

    Layout:
    - text as lists of Unicode code points, and the [str] methods used;
    - a backtracking matcher for the fragment of Python's [re] syntax that
      the module uses, with [re.sub], [re.search], [re.split], [re.finditer];
    - the functions of the module, in the order of the source;
    - lemmas and theorems. *)

From Stdlib Require Import String Ascii.
From Stdlib Require Import List NArith Bool Arith Lia.
Import ListNotations.

(** ** Text *)

(** A Python [str] is a sequence of code points. *)
Definition char := N.
Definition str := list char.

Definition ch (a : ascii) : char := N_of_ascii a.

(** [u "abc"] is the [str] of an ASCII literal. *)
Definition u (s : string) : str := map ch (list_ascii_of_string s).

Definition char_eqb : char -> char -> bool := N.eqb.

Fixpoint str_eqb (a b : str) : bool :=
  match a, b with
  | [], [] => true
  | x :: a', y :: b' => char_eqb x y && str_eqb a' b'
  | _, _ => false
  end.

Definition in_range (c : char) (r : char * char) : bool :=
  (fst r <=? c)%N && (c <=? snd r)%N.

Definition in_ranges (c : char) (rs : list (char * char)) : bool :=
  existsb (in_range c) rs.

(** [str.isspace] for one code point: the code points of bidirectional
    class WS, B or S, or of category Zs. *)
Definition space_ranges : list (char * char) :=
  [ (9, 13); (28, 32); (133, 133); (160, 160); (5760, 5760);
    (8192, 8202); (8232, 8233); (8239, 8239); (8287, 8287);
    (12288, 12288) ]%N.

(** Word characters and digits.  Python's [\w] and [\d] on [str] patterns
    also accept letters and digits outside ASCII; these tables list the
    ASCII ones, which is the range the statements below are about. *)
Definition digit_ranges : list (char * char) := [ (48, 57) ]%N.
Definition upper_ranges : list (char * char) := [ (65, 90) ]%N.
Definition lower_ranges : list (char * char) := [ (97, 122) ]%N.
Definition word_ranges : list (char * char) :=
  [ (48, 57); (65, 90); (95, 95); (97, 122) ]%N.

Definition is_space (c : char) : bool := in_ranges c space_ranges.
Definition is_word (c : char) : bool := in_ranges c word_ranges.
Definition is_upper (c : char) : bool := in_ranges c upper_ranges.
Definition is_lower (c : char) : bool := in_ranges c lower_ranges.

Definition to_lower (c : char) : char := if is_upper c then (c + 32)%N else c.
Definition to_upper (c : char) : char := if is_lower c then (c - 32)%N else c.
Definition swapcase (c : char) : char :=
  if is_upper c then (c + 32)%N else if is_lower c then (c - 32)%N else c.

(** [s.lstrip()], [s.rstrip()], [s.strip()] *)
Fixpoint lstrip (s : str) : str :=
  match s with
  | c :: t => if is_space c then lstrip t else s
  | [] => []
  end.

Definition rstrip (s : str) : str := rev (lstrip (rev s)).
Definition strip (s : str) : str := rstrip (lstrip s).

(** [s[a:b]] for [0 <= a] and [0 <= b]; empty when [b <= a]. *)
Definition slice (a b : nat) (s : str) : str := firstn (b - a) (skipn a s).

(** [s[a:]] *)
Definition slice_from (a : nat) (s : str) : str := skipn a s.

(** [s.replace(c, new)] for a one-character [c]. *)
Definition replace_char (c : char) (new : str) (s : str) : str :=
  flat_map (fun x => if char_eqb x c then new else [x]) s.

Fixpoint starts_with (p s : str) : bool :=
  match p, s with
  | [], _ => true
  | x :: p', y :: s' => char_eqb x y && starts_with p' s'
  | _ :: _, [] => false
  end.

(** [sep.join(parts)] *)
Fixpoint join (sep : str) (parts : list str) : str :=
  match parts with
  | [] => []
  | [p] => p
  | p :: rest => p ++ sep ++ join sep rest
  end.

(** [s.split(c)] for a one-character separator: always at least one part. *)
Fixpoint split_char (c : char) (s : str) : list str :=
  match s with
  | [] => [[]]
  | x :: t =>
      if char_eqb x c then [] :: split_char c t
      else match split_char c t with
           | p :: ps => (x :: p) :: ps
           | [] => [[x]]
           end
  end.

(** [s.split()]: the maximal runs of non-space characters. *)
Fixpoint split_ws_aux (cur : str) (s : str) : list str :=
  match s with
  | [] => match cur with [] => [] | _ => [rev cur] end
  | x :: t =>
      if is_space x
      then match cur with
           | [] => split_ws_aux [] t
           | _ => rev cur :: split_ws_aux [] t
           end
      else split_ws_aux (x :: cur) t
  end.

Definition split_ws (s : str) : list str := split_ws_aux [] s.

(** [s.title()] on ASCII letters: a letter is upper-cased when the
    character before it is not a letter, lower-cased otherwise. *)
Fixpoint title_aux (prev_cased : bool) (s : str) : str :=
  match s with
  | [] => []
  | c :: t =>
      if is_upper c || is_lower c
      then (if prev_cased then to_lower c else to_upper c) :: title_aux true t
      else c :: title_aux false t
  end.

Definition title (s : str) : str := title_aux false s.

(** ** Regular expressions *)

(** A character class: a set of ranges, possibly complemented. *)
Record cls := Cls { cls_neg : bool; cls_ranges : list (char * char) }.

Definition one (a : ascii) : cls := Cls false [ (ch a, ch a) ].
Definition set (s : string) : cls := Cls false (map (fun c => (c, c)) (u s)).
Definition cls_union (a b : cls) : cls :=
  Cls false (cls_ranges a ++ cls_ranges b).
Definition cls_not (a : cls) : cls := Cls (negb (cls_neg a)) (cls_ranges a).

(** [\s], [\w], [\d], [[A-Z]], [[A-Za-z]] *)
Definition cls_s : cls := Cls false space_ranges.
Definition cls_w : cls := Cls false word_ranges.
Definition cls_d : cls := Cls false digit_ranges.
Definition cls_AZ : cls := Cls false upper_ranges.
Definition cls_az : cls := Cls false lower_ranges.
Definition cls_AZaz : cls := cls_union cls_AZ cls_az.

(** Membership; with [re.IGNORECASE] an ASCII letter also matches through
    its other case. *)
Definition cls_mem (ic : bool) (k : cls) (c : char) : bool :=
  xorb (cls_neg k)
       (in_ranges c (cls_ranges k)
        || (ic && in_ranges (swapcase c) (cls_ranges k))).

(** The fragment of the pattern syntax used by the module.  Groups carry
    their number.  Repetition is greedy. *)
Inductive regex :=
| Eps
| Chr (k : cls)
| Seq (r1 r2 : regex)
| Alt (r1 r2 : regex)
| Rep (lo : nat) (r : regex)          (* r{lo,}: r* is Rep 0, r+ is Rep 1 *)
| Opt (r : regex)                     (* r? *)
| Grp (n : nat) (r : regex)           (* (r), the n-th group *)
| Bref (n : nat)                      (* \n *)
| Bol                                 (* ^ without MULTILINE *)
| WordB                               (* \b *)
| Ahead (positive : bool) (r : regex) (* (?=r) and (?!r) *)
| Behind (positive : bool) (k : cls). (* (?<=[k]) and (?<![k]) *)

(** Concatenation of the parts of a pattern. *)
Fixpoint cat (l : list regex) : regex :=
  match l with
  | [] => Eps
  | [r] => r
  | r :: t => Seq r (cat t)
  end.

Definition star (r : regex) : regex := Rep 0 r.
Definition plus (r : regex) : regex := Rep 1 r.

(** A literal string as a pattern. *)
Fixpoint lit_str (s : str) : regex :=
  match s with
  | [] => Eps
  | [c] => Chr (Cls false [ (c, c) ])
  | c :: t => Seq (Chr (Cls false [ (c, c) ])) (lit_str t)
  end.

Definition lit (s : string) : regex := lit_str (u s).

(** The state of a match: the text before the cursor (nearest character
    first), the text after it, and the groups captured so far. *)
Record mstate := MState {
  before : str;
  after : str;
  caps : list (nat * str)
}.

Definition cont := mstate -> option mstate.

Fixpoint get_cap (n : nat) (l : list (nat * str)) : option str :=
  match l with
  | [] => None
  | (m, s) :: t => if Nat.eqb n m then Some s else get_cap n t
  end.

(** The text consumed between state [s] and a later state [s']. *)
Definition consumed (s s' : mstate) : str :=
  firstn (length (after s) - length (after s')) (after s).

Definition char_matches (ic : bool) (a b : char) : bool :=
  char_eqb a b || (ic && char_eqb (swapcase a) b).

(** Match the literal text [p] at the cursor. *)
Fixpoint eat (ic : bool) (p : str) (s : mstate) : option mstate :=
  match p with
  | [] => Some s
  | x :: p' =>
      match after s with
      | c :: t =>
          if char_matches ic x c
          then eat ic p' (MState (c :: before s) t (caps s))
          else None
      | [] => None
      end
  end.

(** Mandatory iterations of a repetition. *)
Fixpoint rep_min (m : mstate -> cont -> option mstate) (lo : nat)
    (s : mstate) (k : cont) : option mstate :=
  match lo with
  | O => k s
  | S n => m s (fun s' => rep_min m n s' k)
  end.

(** Optional iterations, longest first.  An iteration that consumes
    nothing ends the loop; [fuel] bounds the text that is left. *)
Fixpoint rep_loop (m : mstate -> cont -> option mstate) (fuel : nat)
    (s : mstate) (k : cont) : option mstate :=
  match fuel with
  | O => k s
  | S f =>
      match m s (fun s' =>
                   if length (after s') <? length (after s)
                   then rep_loop m f s' k
                   else None) with
      | Some x => Some x
      | None => k s
      end
  end.

Definition word_boundary (s : mstate) : bool :=
  let l := match before s with c :: _ => is_word c | [] => false end in
  let r := match after s with c :: _ => is_word c | [] => false end in
  xorb l r.

(** The matcher, in continuation-passing style: [rmatch ic r s k] tries
    the ways [r] matches at [s] in Python's order and returns the first
    one that [k] accepts. *)
Fixpoint rmatch (ic : bool) (r : regex) (s : mstate) (k : cont)
    : option mstate :=
  match r with
  | Eps => k s
  | Chr c =>
      match after s with
      | x :: t =>
          if cls_mem ic c x then k (MState (x :: before s) t (caps s))
          else None
      | [] => None
      end
  | Seq r1 r2 => rmatch ic r1 s (fun s' => rmatch ic r2 s' k)
  | Alt r1 r2 =>
      match rmatch ic r1 s k with
      | Some x => Some x
      | None => rmatch ic r2 s k
      end
  | Rep lo r1 =>
      rep_min (rmatch ic r1) lo s
        (fun s' => rep_loop (rmatch ic r1) (S (length (after s'))) s' k)
  | Opt r1 =>
      match rmatch ic r1 s k with
      | Some x => Some x
      | None => k s
      end
  | Grp n r1 =>
      rmatch ic r1 s
        (fun s' =>
           k (MState (before s') (after s') ((n, consumed s s') :: caps s')))
  | Bref n =>
      match get_cap n (caps s) with
      | Some p => match eat ic p s with Some s' => k s' | None => None end
      | None => None
      end
  | Bol => match before s with [] => k s | _ :: _ => None end
  | WordB => if word_boundary s then k s else None
  | Ahead positive r1 =>
      match rmatch ic r1 s (fun s' => Some s') with
      | Some s' =>
          if positive then k (MState (before s) (after s) (caps s'))
          else None
      | None => if positive then None else k s
      end
  | Behind positive c =>
      let found := match before s with
                   | x :: _ => cls_mem ic c x
                   | [] => false
                   end in
      if Bool.eqb found positive then k s else None
  end.

(** A match object: the whole match and the groups. *)
Record rematch := ReMatch {
  m_text : str;                 (* group(0) *)
  m_caps : list (nat * str);
  m_rest_before : str;
  m_rest_after : str
}.

(** [match.group(n)]; [None] for a group that took no part. *)
Definition group (m : rematch) (n : nat) : option str :=
  match n with
  | O => Some (m_text m)
  | _ => get_cap n (m_caps m)
  end.

(** Try a match at the cursor.  With [must_advance] an empty match is
    refused, as [re] does right after an empty match. *)
Definition match_at (ic : bool) (r : regex) (bef aft : str)
    (must_advance : bool) : option rematch :=
  let s := MState bef aft [] in
  match rmatch ic r s
          (fun s' =>
             if must_advance && (length (after s') =? length aft)
             then None else Some s') with
  | Some s' => Some (ReMatch (consumed s s') (caps s') (before s') (after s'))
  | None => None
  end.

(** A replacement: a template with group references, or a function of
    the match. *)
Inductive titem := TLit (s : str) | TGrp (n : nat).

Definition expand (t : list titem) (m : rematch) : str :=
  flat_map (fun i => match i with
                     | TLit s => s
                     | TGrp n => match group m n with
                                 | Some s => s
                                 | None => []
                                 end
                     end) t.

Definition is_nil {A : Type} (l : list A) : bool :=
  match l with [] => true | _ => false end.

(** The loop of [re.sub]: leftmost match, replace, go on after it. *)
Fixpoint sub_scan (ic : bool) (r : regex) (repl : rematch -> str)
    (fuel : nat) (bef aft : str) (adv : bool) : str :=
  match fuel with
  | O => aft
  | S f =>
      match match_at ic r bef aft adv with
      | Some m =>
          repl m ++ sub_scan ic r repl f (m_rest_before m) (m_rest_after m)
                      (is_nil (m_text m))
      | None =>
          match aft with
          | [] => []
          | c :: t => c :: sub_scan ic r repl f (c :: bef) t false
          end
      end
  end.

(** [re.sub(r, repl, text)] and [re.sub(r, repl, text, flags=re.IGNORECASE)] *)
Definition re_sub_with (ic : bool) (r : regex) (repl : rematch -> str)
    (text : str) : str :=
  sub_scan ic r repl (2 * length text + 2) [] text false.

Definition re_sub (r : regex) (t : list titem) (text : str) : str :=
  re_sub_with false r (expand t) text.

Definition re_sub_i (r : regex) (t : list titem) (text : str) : str :=
  re_sub_with true r (expand t) text.

(** [re.finditer(r, text)]: the matches, left to right. *)
Fixpoint find_scan (ic : bool) (r : regex) (fuel : nat) (bef aft : str)
    (adv : bool) : list rematch :=
  match fuel with
  | O => []
  | S f =>
      match match_at ic r bef aft adv with
      | Some m =>
          m :: find_scan ic r f (m_rest_before m) (m_rest_after m)
                 (is_nil (m_text m))
      | None =>
          match aft with
          | [] => []
          | c :: t => find_scan ic r f (c :: bef) t false
          end
      end
  end.

Definition re_finditer (r : regex) (text : str) : list rematch :=
  find_scan false r (2 * length text + 2) [] text false.

(** [re.search(r, text)] *)
Definition re_search (r : regex) (text : str) : option rematch :=
  match re_finditer r text with
  | m :: _ => Some m
  | [] => None
  end.

(** [re.match(r, text)] *)
Definition re_match (r : regex) (text : str) : option rematch :=
  match_at false r [] text false.

(** [re.split(r, text)] for a pattern without groups that matches no
    empty string. *)
Fixpoint split_scan (r : regex) (fuel : nat) (bef aft cur : str)
    : list str :=
  match fuel with
  | O => [rev cur ++ aft]
  | S f =>
      match match_at false r bef aft false with
      | Some m =>
          rev cur :: split_scan r f (m_rest_before m) (m_rest_after m) []
      | None =>
          match aft with
          | [] => [rev cur]
          | c :: t => split_scan r f (c :: bef) t (c :: cur)
          end
      end
  end.

Definition re_split (r : regex) (text : str) : list str :=
  split_scan r (2 * length text + 2) [] text [].

(** ** The module *)

(** *** 2. PDF import and text pre-processing *)

Definition normalize_punctuation (text : str) : str :=
  (* r':(\w)' -> r': \1' *)
  let text := re_sub (cat [Chr (one ":"); Grp 1 (Chr cls_w)])
                     [TLit (u ": "); TGrp 1] text in
  (* r'(\w+)\s+:' -> r'\1:' *)
  let text := re_sub (cat [Grp 1 (plus (Chr cls_w)); plus (Chr cls_s);
                           Chr (one ":")])
                     [TGrp 1; TLit (u ":")] text in
  (* r'\s+([,.;:!?])\s+' -> ' ' *)
  let text := re_sub (cat [plus (Chr cls_s); Grp 1 (Chr (set ",.;:!?"));
                           plus (Chr cls_s)])
                     [TLit (u " ")] text in
  strip text.

(** r'<TAG>\s*[A-Za-z]\s*<TAG>', r'<TAG>\s*(\d+)\s*<TAG>' and
    r'<TAG>\s*[,.;:!?-]\s*<TAG>' *)
Definition tag_letter (tag : string) : regex :=
  cat [lit tag; star (Chr cls_s); Chr cls_AZaz; star (Chr cls_s); lit tag].
Definition tag_digits (tag : string) : regex :=
  cat [lit tag; star (Chr cls_s); Grp 1 (plus (Chr cls_d));
       star (Chr cls_s); lit tag].
Definition tag_punct (tag : string) : regex :=
  cat [lit tag; star (Chr cls_s); Chr (set ",.;:!?-"); star (Chr cls_s);
       lit tag].

(** Lines 116-118: the group of a tag and the spaces after it, twice or
    more. *)
Definition tag_run (tag : string) : regex :=
  Rep 2 (Grp 1 (cat [lit tag; star (Chr cls_s)])).

(** r'>\s+<' and r'><', both replaced by '> <' *)
Definition single_space_between_tags (text : str) : str :=
  let text := re_sub (cat [Chr (one ">"); plus (Chr cls_s); Chr (one "<")])
                     [TLit (u "> <")] text in
  re_sub (lit "><") [TLit (u "> <")] text.

Definition optimize_text_tags (text : str) : str :=
  let text := re_sub_i (tag_letter "<TAG_2>") [TLit (u " <TAG_2> ")] text in
  let text := re_sub_i (tag_digits "<TAG_2>") [TLit (u " <TAG_2>")] text in
  let text := re_sub_i (tag_punct "<TAG_2>") [TLit (u " <TAG_2>")] text in
  let text := re_sub_i (tag_letter "<TAG_3>") [TLit (u " <TAG_3> ")] text in
  let text := re_sub_i (tag_digits "<TAG_3>") [TLit (u " <TAG_3>")] text in
  let text := re_sub_i (tag_punct "<TAG_3>") [TLit (u " <TAG_3>")] text in
  let text := re_sub_i (tag_letter "<TAG_4>") [TLit (u " <TAG_4> ")] text in
  let text := re_sub_i (tag_digits "<TAG_4>") [TLit (u " <TAG_4> ")] text in
  let text := re_sub (tag_run "<TAG_4>") [TGrp 1] text in
  let text := re_sub (tag_run "<TAG_3>") [TGrp 1] text in
  let text := re_sub (tag_run "<TAG_2>") [TGrp 1] text in
  single_space_between_tags text.

(** r'\s+' -> ' ', then [strip] *)
Definition normalize_spaces (text : str) : str :=
  strip (re_sub (plus (Chr cls_s)) [TLit (u " ")] text).

Definition bold_around (inner : regex) : regex :=
  cat [lit "<BOLD->"; star (Chr cls_s); Grp 1 inner; star (Chr cls_s);
       lit "<-BOLD>"].

Definition optimize_word_tags (text : str) : str :=
  let keep := [TLit (u " "); TGrp 1; TLit (u " ")] in
  let text := re_sub (bold_around (Chr (set ":,.;?!"))) keep text in
  let text := re_sub (bold_around (Chr cls_AZaz)) keep text in
  let text := re_sub (bold_around (plus (Chr cls_d))) keep text in
  (* '<-BOLD>\s*<BOLD->' -> '' *)
  let text := re_sub (cat [lit "<-BOLD>"; star (Chr cls_s); lit "<BOLD->"])
                     [] text in
  let text := single_space_between_tags text in
  normalize_spaces text.

(** r'(?<!\S)(?<!<)(?<![\w-])([A-Z](?:\s+[A-Z]){2,})(?!\w)(?![^<]*>)(?!\S)' *)
Definition spaced_header_pattern : regex :=
  cat [Behind false (cls_not cls_s);
       Behind false (one "<");
       Behind false (cls_union cls_w (one "-"));
       Grp 1 (cat [Chr cls_AZ; Rep 2 (cat [plus (Chr cls_s); Chr cls_AZ])]);
       Ahead false (Chr cls_w);
       Ahead false (cat [star (Chr (cls_not (one "<"))); Chr (one ">")]);
       Ahead false (Chr (cls_not cls_s))].

Definition process_header (m : rematch) : str :=
  let spaced_text := m_text m in
  let two_spaces := Rep 2 (Chr cls_s) in                  (* r'\s{2,}' *)
  match re_search two_spaces spaced_text with
  | Some _ =>
      let words := re_split two_spaces spaced_text in
      let condensed_words :=
        map (fun word => re_sub (plus (Chr cls_s)) [] word) words in
      join (u " ") condensed_words
  | None =>
      let condensed := re_sub (plus (Chr cls_s)) [] spaced_text in
      (* r'(?<=[a-z0-9])(?=[A-Z])' -> ' ' *)
      let spaced := re_sub (cat [Behind true (cls_union cls_az cls_d);
                                 Ahead true (Chr cls_AZ)])
                           [TLit (u " ")] condensed in
      (* r'(\d)\s+(\d)' -> r'\1\2' *)
      re_sub (cat [Grp 1 (Chr cls_d); plus (Chr cls_s); Grp 2 (Chr cls_d)])
             [TGrp 1; TGrp 2] spaced
  end.

Definition format_spaced_headers (text : str) : str :=
  re_sub_with false spaced_header_pattern process_header text.

(** r'([.!?](\s+))\1{2,}' *)
Definition spaced_punct_run : regex :=
  cat [Grp 1 (cat [Chr (set ".!?"); Grp 2 (plus (Chr cls_s))]);
       Rep 2 (Bref 1)].

(** r'([.!?])\1{2,}' *)
Definition punct_run : regex :=
  cat [Grp 1 (Chr (set ".!?")); Rep 2 (Bref 1)].

(** Line 190: the group of a dot and the spaces after it, twice or more;
    [dot_round] is the group. *)
Definition dot_round : regex :=
  Grp 1 (cat [Chr (one "."); star (Chr cls_s)]).

Definition dot_run : regex := Rep 2 dot_round.

Definition remove_repeating_punctuation (text : str) : str :=
  let text := re_sub spaced_punct_run [] text in
  let text := re_sub punct_run [] text in
  re_sub dot_run [] text.

(** [[A-Z'\-]] *)
Definition cls_name : cls := cls_union cls_AZ (set "'-").

(** r'\b([A-Z][A-Z\'\-]+)(\s+[A-Z]\.?\s+)?(\s+[A-Z][A-Z\'\-]+)\b' *)
Definition adjacent_uppercase_pattern : regex :=
  cat [WordB;
       Grp 1 (cat [Chr cls_AZ; plus (Chr cls_name)]);
       Opt (Grp 2 (cat [plus (Chr cls_s); Chr cls_AZ; Opt (Chr (one "."));
                        plus (Chr cls_s)]));
       Grp 3 (cat [plus (Chr cls_s); Chr cls_AZ; plus (Chr cls_name)]);
       WordB].

Definition or_empty (o : option str) : str :=
  match o with Some s => s | None => [] end.

Definition convert_to_title (m : rematch) : str :=
  let first := title (or_empty (group m 1)) in
  let middle := or_empty (group m 2) in
  let last := title (or_empty (group m 3)) in
  first ++ middle ++ last.

Definition normalize_adjacent_uppercase_words (text : str) : str :=
  let text := re_sub (cat [WordB; lit "OPERATOR"; WordB])
                     [TLit (u "Operator")] text in
  re_sub_with false adjacent_uppercase_pattern convert_to_title text.

Definition dquote : str := [34%N].
Definition apostrophe : str := [39%N].

(** [text.encode('utf-8', errors='ignore').decode('utf-8', errors='ignore')]
    drops the surrogate code points and keeps the rest. *)
Definition utf8_round_trip (text : str) : str :=
  filter (fun c => negb ((55296 <=? c)%N && (c <=? 57343)%N)) text.

Definition apply_replacements (table : list (char * str)) (text : str)
    : str :=
  fold_left (fun t kv => replace_char (fst kv) (snd kv) t) table text.

Definition common_replacements : list (char * str) :=
  [ (65533%N, []);                 (* U+FFFD, twice in the source *)
    (8226%N, [8226%N]);            (* bullet point *)
    (8216%N, apostrophe);          (* left single quote *)
    (8217%N, apostrophe);          (* right single quote *)
    (8220%N, dquote);              (* left double quote *)
    (8221%N, dquote);              (* right double quote *)
    (8211%N, u "-");               (* en-dash *)
    (8212%N, u "--");              (* em-dash *)
    (169%N, []) ].                 (* copyright symbol *)

Definition add_text_tags (text : str) : str :=
  let text := utf8_round_trip text in
  let replacements :=
    common_replacements ++
    [ (160%N, u " <NBSP> ");       (* non-breaking space *)
      (12%N, u " <PAGEBREAK> ");   (* form feed *)
      (10%N, u " <TAG_2> ");       (* line break *)
      (9%N, u " <TAB> ") ] in      (* tab *)
  let text := apply_replacements replacements text in
  (* r'[ ]{2,}' -> ' <TAG_3> ' *)
  let text := re_sub (Rep 2 (Chr (one " "))) [TLit (u " <TAG_3> ")] text in
  (* r'<TAG_3>\s*<TAG_2>' -> ' <TAG_4> ' *)
  let text := re_sub (cat [lit "<TAG_3>"; star (Chr cls_s); lit "<TAG_2>"])
                     [TLit (u " <TAG_4> ")] text in
  let text := single_space_between_tags text in
  normalize_spaces text.

(** r'<\s*T\s*A\s*G\s*_\s*(\d+)\s*>' and the two BOLD patterns: the
    letters of a marker with optional spaces between them. *)
Fixpoint spaced_out (s : str) : list regex :=
  match s with
  | [] => []
  | c :: t => Chr (Cls false [ (c, c) ]) :: star (Chr cls_s) :: spaced_out t
  end.

Definition fix_tag_spacing (text : str) : str :=
  let text := re_sub (cat (spaced_out (u "<TAG_") ++
                           [Grp 1 (plus (Chr cls_d)); star (Chr cls_s);
                            Chr (one ">")]))
                     [TLit (u "<TAG_"); TGrp 1; TLit (u ">")] text in
  let text := re_sub (cat (spaced_out (u "<BOLD-") ++ [Chr (one ">")]))
                     [TLit (u "<BOLD->")] text in
  re_sub (cat (spaced_out (u "<-BOLD") ++ [Chr (one ">")]))
         [TLit (u "<-BOLD>")] text.

Definition clean_special_characters (text : str) : str :=
  apply_replacements common_replacements text.

(** The class of the pattern of line 328: white space and the ASCII
    punctuation other than the two parentheses; [,-.] in it is a range. *)
Definition cls_leading : cls :=
  cls_union cls_s
    (Cls false [ (33, 39); (42, 47); (58, 64); (91, 96); (123, 126) ]%N).

(** One line of a page (lines 328-329). *)
Definition clean_line (line : str) : str :=
  let cleaned_line := re_sub (cat [Bol; plus (Chr cls_leading)]) [] line in
  normalize_adjacent_uppercase_words cleaned_line.

(** The loop over the lines of a page (lines 322-334): the pair of
    [cleaned_lines] and [cleaned_lines_with_tags]. *)
Fixpoint page_lines (lines : list str) : list str * list str :=
  match lines with
  | [] => ([], [])
  | line :: rest =>
      let cleaned_line := clean_line line in
      let '(cleaned_lines, cleaned_lines_with_tags) := page_lines rest in
      ((if 1 <? length (strip cleaned_line)
        then cleaned_line :: cleaned_lines
        else cleaned_lines),
       (cleaned_line ++ u "<TAG_2>") :: cleaned_lines_with_tags)
  end.

Definition newline : str := [10%N].

(** The text that one page adds to [full_text]. *)
Definition page_output (page_text : str) : str :=
  let page_text := clean_special_characters page_text in
  let lines := split_char 10%N page_text in
  let '(_, cleaned_lines_with_tags) := page_lines lines in
  join newline cleaned_lines_with_tags
  ++ newline ++ u "<PAGE_BREAK>" ++ newline.

(** [text_processing_pipeline], on the texts that [page.get_text("text")]
    gives for the pages of the document. *)
Definition text_processing_pipeline (pages : list str) : str :=
  fold_left (fun full_text page_text => full_text ++ page_output page_text)
            pages [].

(** *** 3. Potential speaker attributions *)

(** r'(<[^>]+>)+\s*Operator' *)
Definition operator_pattern : regex :=
  cat [plus (Grp 1 (cat [Chr (one "<"); plus (Chr (cls_not (one ">")));
                         Chr (one ">")]));
       star (Chr cls_s);
       lit "Operator"].

(** [list(set(s))] for a string [s]: its distinct characters, each as a
    string of length one.  Python leaves the order open; the statements
    about it below do not depend on the order. *)
Definition list_set_of_str (s : str) : list str :=
  map (fun c => [c]) (nodup N.eq_dec s).

Definition get_operator_attributions (text : str) : list str :=
  let operator_attributions :=
    fold_left (fun acc m =>
                 acc ++ u "Operator with tags: " ++ m_text m ++ newline)
              (re_finditer operator_pattern text) [] in
  list_set_of_str operator_attributions.

(** *** 5. Text parsing and cleaning *)

(** [s.find(sub, start)]: the lowest index from [start] on, or [None]
    for -1. *)
Fixpoint find_from (sub t : str) (pos : nat) : option nat :=
  if starts_with sub t then Some pos
  else match t with
       | [] => None
       | _ :: t' => find_from sub t' (S pos)
       end.

Definition str_find (sub text : str) (start : nat) : option nat :=
  if length text <? start then None
  else find_from sub (skipn start text) start.

(** [s.replace(old, new, 1)] *)
Definition replace_first (old new s : str) : str :=
  match str_find old s 0 with
  | Some pos => firstn pos s ++ new ++ skipn (pos + length old) s
  | None => s
  end.

(** r'<[A-Z_0-9]+>' *)
Definition tag_pattern : regex :=
  cat [Chr (one "<");
       plus (Chr (cls_union cls_AZ (cls_union (one "_") cls_d)));
       Chr (one ">")].

(** Lines 920-923: drop a tag equal to the one kept just before it. *)
Fixpoint unique_adjacent (last : option str) (tags : list str) : list str :=
  match tags with
  | [] => []
  | tag :: rest =>
      match last with
      | Some l =>
          if str_eqb tag l then unique_adjacent last rest
          else tag :: unique_adjacent (Some tag) rest
      | None => tag :: unique_adjacent (Some tag) rest
      end
  end.

Definition remove_leading_duplicate_tags (attribution : str) : str :=
  (* the pattern of line 910: optional spaces, then one or more tags each
     followed by optional spaces, at the start *)
  match re_match (cat [Bol;
                       Grp 1 (cat [star (Chr cls_s);
                                   plus (Grp 2 (cat [tag_pattern;
                                                     star (Chr cls_s)]))])])
                 attribution with
  | Some m =>
      let leading_tags_section := or_empty (group m 1) in
      let tags := map m_text (re_finditer tag_pattern leading_tags_section) in
      let unique_tags := unique_adjacent None tags in
      let new_leading_section := join (u " ") unique_tags ++ u " " in
      replace_first leading_tags_section new_leading_section attribution
  | None => attribution
  end.

(** The resolver's answer, as far as the module reads it.  A field is
    [None] when the key is missing; a key that is there holds a list of
    strings.  Other JSON values under these keys, such as null or a
    number, on which lines 974 and 975 raise [TypeError], are not part of
    the embedding. *)
Record participant := Participant {
  speaker_name_variants : option (list str);
  speaker_attributions : option (list str)
}.

Record parsed_json := ParsedJson {
  participants : option (list participant)
}.

Record api_response := ApiResponse {
  parsed : option parsed_json;        (* api_response["parsed_json"] *)
  header_pattern : option str;
  footer_pattern : option str
}.

(** The exceptions of the embedding: the [IndexError] of line 974, and
    [ReError] for the exception with which [re] rejects a pattern, which
    is [re.error] or, for a repetition count beyond the limit of [re],
    [OverflowError].  Exceptions that need values outside the types of
    the embedding, such as [TypeError], are not modelled. *)
Inductive exn := IndexError | ReError.

Inductive result (A : Type) :=
| Ok (a : A)
| Raise (e : exn).
Arguments Ok {A} a.
Arguments Raise {A} e.

Definition bind {A B : Type} (r : result A) (f : A -> result B) : result B :=
  match r with
  | Ok a => f a
  | Raise e => Raise e
  end.

Notation "x <- r ;; k" := (bind r (fun x => k))
  (at level 61, r at next level, right associativity).

Record attribution_info := AttributionInfo {
  a_speaker_name : str;
  a_attribution : str
}.

Record occurrence := Occurrence {
  o_speaker_name : str;
  o_start : nat;
  o_end : nat
}.

(** A speaker turn.  [uuid] is [None] when the dictionary has no such key. *)
Record utterance_rec := Utterance {
  speaker : str;
  utterance : str;
  uuid : option str
}.

(** Lines 972-979.  [variants[0]] raises on an empty list. *)
Definition participant_attributions (p : participant)
    : result (list attribution_info) :=
  let variants := match speaker_name_variants p with
                  | Some l => l
                  | None => [u "Unknown"]
                  end in
  match variants with
  | [] => Raise IndexError
  | speaker_name :: _ =>
      Ok (map (AttributionInfo speaker_name)
              (match speaker_attributions p with
               | Some l => l
               | None => []
               end))
  end.

Fixpoint collect_attributions (ps : list participant)
    : result (list attribution_info) :=
  match ps with
  | [] => Ok []
  | p :: rest =>
      here <- participant_attributions p ;;
      more <- collect_attributions rest ;;
      Ok (here ++ more)
  end.

(** The [while True] loop of lines 1011-1020 for one attribution. *)
Fixpoint find_occurrences (fuel : nat) (text : str) (a : attribution_info)
    (start_pos : nat) : list occurrence :=
  match fuel with
  | O => []
  | S f =>
      match str_find (a_attribution a) text start_pos with
      | None => []
      | Some pos =>
          Occurrence (a_speaker_name a) pos (pos + length (a_attribution a))
          :: find_occurrences f text a (pos + 1)
      end
  end.

(** Lines 1006-1020: [start_pos] grows with every round and [find] fails
    beyond the end of the text, so [length text + 2] rounds are enough. *)
Definition all_occurrences (text : str) (attrs : list attribution_info)
    : list occurrence :=
  flat_map (fun a => find_occurrences (length text + 2) text a 0) attrs.

(** [list.sort(key=...)] is stable. *)
Fixpoint insert_by_start (x : occurrence) (l : list occurrence)
    : list occurrence :=
  match l with
  | [] => [x]
  | y :: l' =>
      if o_start x <=? o_start y then x :: l
      else y :: insert_by_start x l'
  end.

Definition sort_by_start (l : list occurrence) : list occurrence :=
  fold_right insert_by_start [] l.

(** Lines 1028-1048. *)
Fixpoint extract_utterances (text : str) (all_matches : list occurrence)
    : list utterance_rec :=
  match all_matches with
  | [] => []
  | current_match :: rest =>
      match rest with
      | [] =>
          [Utterance (o_speaker_name current_match)
                     (strip (slice_from (o_end current_match) text)) None]
      | next_match :: _ =>
          Utterance (o_speaker_name current_match)
                    (strip (slice (o_end current_match) (o_start next_match)
                                  text)) None
          :: extract_utterances text rest
      end
  end.

(** [get_utterances] with [debug_mode] off, which is its default: the
    prints and the file of diagnostics that the flag turns on are not
    part of the embedding. *)
Definition get_utterances (text : str) (response : option api_response)
    : result (list utterance_rec) :=
  match response with
  | None => Ok []
  | Some response =>
      match parsed response with
      | None => Ok []
      | Some pj =>
          match participants pj with
          | None => Ok []
          | Some ps =>
              all_attributions <- collect_attributions ps ;;
              match all_attributions with
              | [] => Ok []
              | _ :: _ =>
                  let all_attributions :=
                    map (fun attr =>
                           AttributionInfo
                             (a_speaker_name attr)
                             (remove_leading_duplicate_tags
                                (a_attribution attr)))
                        all_attributions in
                  let all_matches :=
                    sort_by_start (all_occurrences text all_attributions) in
                  match all_matches with
                  | [] => Ok []
                  | _ :: _ => Ok (extract_utterances text all_matches)
                  end
              end
          end
      end
  end.

(** r'<[^>]*>', r'\([^)]*\)', r'//[^/]*//' and r'\\[^\\]*\\': an opening
    delimiter, what is not the closing character, the closing delimiter. *)
Definition bracketed (opening : string) (closing_char : ascii)
    (closing : string) : regex :=
  cat [lit opening; star (Chr (cls_not (one closing_char))); lit closing].

(** Lines 1073-1096: the text of a cleaned turn. *)
Definition clean_text (text : str) : str :=
  let text := re_sub (bracketed "<" ">" ">") [] text in
  let text := re_sub (bracketed "(" ")" ")") [] text in
  let text := re_sub (bracketed "//" "/" "//") [] text in
  let text := re_sub (bracketed "\" "\" "\") [] text in
  join (u " ") (split_ws text).

(** r'<(?:TAG_2|TAG_3|TAG_4|BOLD-|-BOLD)>' *)
Definition marker_pattern : regex :=
  cat [Chr (one "<");
       Alt (lit "TAG_2") (Alt (lit "TAG_3") (Alt (lit "TAG_4")
         (Alt (lit "BOLD-") (lit "-BOLD"))));
       Chr (one ">")].

Definition strip_markers (pattern : str) : str :=
  re_sub marker_pattern [] pattern.

Section CleanUtterances.

(** [re.compile]: the pattern that a string denotes, or [None] when
    [re] rejects it, with [re.error] or with [OverflowError]. *)
Variable re_compile : str -> option regex.

(** [str(uuid.uuid4())]: the identifiers drawn, in the order of the
    draws. *)
Variable fresh_uuid : nat -> str.

(** The loop of lines 1072-1110; [n] counts the identifiers drawn. *)
Fixpoint clean_loop (n : nat) (utterances : list utterance_rec)
    : list utterance_rec :=
  match utterances with
  | [] => []
  | ut :: rest =>
      let text := clean_text (utterance ut) in
      match uuid ut with
      | Some id =>
          Utterance (speaker ut) text (Some id) :: clean_loop n rest
      | None =>
          Utterance (speaker ut) text (Some (fresh_uuid n))
          :: clean_loop (S n) rest
      end
  end.

(** The loops of lines 1116-1122 and 1128-1134: a copy of every
    utterance with the matches of the pattern removed. *)
Fixpoint strip_pattern_loop (cleaned_pattern : str)
    (utterances : list utterance_rec) : result (list utterance_rec) :=
  match utterances with
  | [] => Ok []
  | ut :: rest =>
      match re_compile cleaned_pattern with
      | None => Raise ReError
      | Some r =>
          let cleaned_text := re_sub_i r [] (utterance ut) in
          more <- strip_pattern_loop cleaned_pattern rest ;;
          Ok (Utterance (speaker ut) cleaned_text (uuid ut) :: more)
      end
  end.

(** [if pattern:] holds for a string that is there and not empty. *)
Definition strip_pattern (pattern : option str)
    (utterances : list utterance_rec) : result (list utterance_rec) :=
  match pattern with
  | Some (c :: p) => strip_pattern_loop (strip_markers (c :: p)) utterances
  | _ => Ok []
  end.

(** [clean_utterances]; [response] is [None] for an argument that is
    not a dictionary. *)
Definition clean_utterances (utterances : list utterance_rec)
    (response : option api_response) : result (list utterance_rec) :=
  let utterances :=
    filter (fun ut => negb (is_nil (strip (utterance ut)))) utterances in
  let cleaned_utterances := clean_loop 0 utterances in
  let header := match response with
                | Some r => header_pattern r
                | None => None
                end in
  without_header <- strip_pattern header utterances ;;
  let footer := match response with
                | Some r => footer_pattern r
                | None => None
                end in
  without_footer <- strip_pattern footer utterances ;;
  Ok (cleaned_utterances ++ without_header ++ without_footer).

End CleanUtterances.

(** *** The Tag Normalizer as one function

    The module defines the seven rewrite passes; [normalize] applies them
    in the order of section 4.2 of the specification. *)
Definition normalize (x : str) : str :=
  fix_tag_spacing
    (remove_repeating_punctuation
       (format_spaced_headers
          (normalize_punctuation
             (optimize_word_tags
                (optimize_text_tags
                   (add_text_tags x)))))).

(** *** Helpers of parts 3 and 4: the context of a pattern, the fences
    of a response *)

(** [extract_pattern_context] (lines 367-375); [context_chars] is not
    negative. *)
Definition extract_pattern_context (text pattern_text : str)
    (context_chars : nat) : str :=
  match str_find pattern_text text 0 with
  | None => u "Not found in text"
  | Some pattern_pos =>
      let context_start := Nat.max 0 (pattern_pos - context_chars) in
      let context_end :=
        Nat.min (length text)
                (pattern_pos + length pattern_text + context_chars) in
      slice context_start context_end text
  end.

(** [s.rfind(sub)]: the highest index, or [None] for -1. *)
Fixpoint rfind_from (sub t : str) (pos : nat) : option nat :=
  match t with
  | [] => if starts_with sub [] then Some pos else None
  | _ :: t' =>
      match rfind_from sub t' (S pos) with
      | Some p => Some p
      | None => if starts_with sub t then Some pos else None
      end
  end.

Definition str_rfind (sub text : str) : option nat := rfind_from sub text 0.

Definition json_fence : str := u "```json".
Definition end_marker : str := u "```".

(** Lines 806-812 of [API_call]: the text that is given to
    [json.loads]. *)
Definition clean_response (response_text : str) : str :=
  if starts_with json_fence response_text
  then match str_rfind end_marker response_text with
       | Some end_pos =>
           if 0 <? end_pos
           then strip (slice 7 end_pos response_text)
           else response_text
       | None => response_text
       end
  else response_text.

(** * Notions used in the statements *)

(** ** Examples of responses and of [re.compile] *)

(** An instance of [re_compile] for running examples.  A pattern without
    metacharacters denotes itself, and "Q1 (2023)" denotes "Q1 " followed
    by the group of "2023"; for any other pattern the instance answers
    [None], as [re] does for "(", the one such pattern of the
    examples. *)
Definition is_metachar (c : char) : bool :=
  existsb (char_eqb c) (u ".^$*+?{}[]\|()").

Definition compile_example (pattern : str) : option regex :=
  if str_eqb pattern (u "Q1 (2023)")
  then Some (cat [lit "Q1 "; Grp 1 (lit "2023")])
  else if existsb is_metachar pattern then None
  else Some (lit_str pattern).


(** ** The segmenter *)

(** Occurrences in the order of the text that do not overlap. *)
Fixpoint non_overlapping (ms : list occurrence) : Prop :=
  match ms with
  | [] => True
  | m :: rest =>
      match rest with
      | [] => True
      | n :: _ => o_end m <= o_start n
      end /\ non_overlapping rest
  end.

(** The text between an occurrence and the next one, or the end. *)
Fixpoint raw_spans (text : str) (ms : list occurrence) : list str :=
  match ms with
  | [] => []
  | m :: rest =>
      match rest with
      | [] => slice_from (o_end m) text
      | n :: _ => slice (o_end m) (o_start n) text
      end :: raw_spans text rest
  end.

Definition occurrence_text (text : str) (m : occurrence) : str :=
  slice (o_start m) (o_end m) text.

(** Every occurrence's text followed by the span after it. *)
Definition reassemble (text : str) (ms : list occurrence) : str :=
  concat (map (fun mg => occurrence_text text (fst mg) ++ snd mg)
              (combine ms (raw_spans text ms))).

Definition first_start (ms : list occurrence) : nat :=
  match ms with
  | m :: _ => o_start m
  | [] => 0
  end.

(** The occurrences that [get_utterances] partitions the text by: those
    of the attribution strings after the collapse of their leading tags,
    sorted by their start. *)
Definition occurrences_of (text : str) (attrs : list attribution_info)
    : list occurrence :=
  sort_by_start
    (all_occurrences text
       (map (fun attr =>
               AttributionInfo (a_speaker_name attr)
                 (remove_leading_duplicate_tags (a_attribution attr)))
            attrs)).

(** ** The participants of a response *)

Definition has_name (p : participant) : Prop :=
  speaker_name_variants p <> Some [].

Definition attribution_strings (p : participant) : list str :=
  match speaker_attributions p with
  | Some l => l
  | None => []
  end.

(** ** The cleaner *)

(** The turns that are not empty after [strip] (line 1059). *)
Definition non_empty_turns (utterances : list utterance_rec)
    : list utterance_rec :=
  filter (fun ut => negb (is_nil (strip (utterance ut)))) utterances.

(** A copy of a turn with the matches of [r] removed, whatever their
    case. *)
Definition stripped_copy (r : regex) (ut : utterance_rec)
    : utterance_rec :=
  Utterance (speaker ut) (re_sub_i r [] (utterance ut)) (uuid ut).

(** A pattern of the response takes part when it is there and not
    empty. *)
Definition active_pattern (pattern : option str) : option str :=
  match pattern with
  | Some (c :: p) => Some (strip_markers (c :: p))
  | _ => None
  end.

(** The pattern, when it takes part, is one that [re] accepts. *)
Definition compiles (re_compile : str -> option regex) (pattern : option str)
    : Prop :=
  match active_pattern pattern with
  | Some p => re_compile p <> None
  | None => True
  end.

(** The copies that one pattern of the response adds. *)
Definition copies_for (re_compile : str -> option regex)
    (pattern : option str) (utterances : list utterance_rec)
    : list utterance_rec :=
  match active_pattern pattern with
  | Some p =>
      match re_compile p with
      | Some r => map (stripped_copy r) utterances
      | None => []
      end
  | None => []
  end.

(** A response with two speakers, used in the examples. *)
Definition two_speakers : api_response :=
  ApiResponse
    (Some (ParsedJson (Some [ Participant (Some [u "Ann"]) (Some [u "A:"]);
                              Participant (Some [u "Bob"]) (Some [u "B:"]) ])))
    None None.

Definition two_speakers_attrs : list attribution_info :=
  [ AttributionInfo (u "Ann") (u "A:"); AttributionInfo (u "Bob") (u "B:") ].

(** ** The matcher *)

(** [reach s s']: [s'] is [s] with the cursor moved over [p]. *)
Definition reach (s s' : mstate) : Prop :=
  exists p, after s = p ++ after s' /\ before s' = rev p ++ before s.

(** A matcher is forward when a result it returns is one that its
    continuation returned at a state further on. *)
Definition forward (m : mstate -> cont -> option mstate) : Prop :=
  forall s k x, m s k = Some x -> exists s', reach s s' /\ k s' = Some x.

(** ** Alphabets *)

(** The code points of a range and of the ranges of a class. *)
Definition range_points (r : char * char) : list char :=
  map (fun i => (fst r + N.of_nat i)%N)
      (seq 0 (N.to_nat (snd r + 1 - fst r))).

Definition cls_points (k : cls) : list char :=
  flat_map range_points (cls_ranges k).

(** An alphabet is a class; [over A s] says that [s] is written in it. *)
Definition over (A : cls) (s : str) : bool := forallb (cls_mem false A) s.

(** No character of the alphabet [A] is matched by the class [k]. *)
Definition never_matches (ic : bool) (A k : cls) : bool :=
  if cls_neg A
  then negb ic && negb (cls_neg k)
       && forallb (fun x => negb (cls_mem false A x)) (cls_points k)
  else forallb (fun x => negb (cls_mem ic k x)) (cls_points A).

(** A pattern that has to read a character outside the alphabet. *)
Fixpoint blocks (ic : bool) (A : cls) (r : regex) : bool :=
  match r with
  | Chr k => never_matches ic A k
  | Seq r1 r2 => blocks ic A r1 || blocks ic A r2
  | Alt r1 r2 => blocks ic A r1 && blocks ic A r2
  | Rep lo r1 => negb (Nat.eqb lo 0) && blocks ic A r1
  | Grp _ r1 => blocks ic A r1
  | Ahead true r1 => blocks ic A r1
  | _ => false
  end.

(** Every match of the pattern starts by reading a character outside
    the alphabet. *)
Fixpoint starts_outside (ic : bool) (A : cls) (r : regex) : bool :=
  match r with
  | Chr k => never_matches ic A k
  | Seq r1 _ => starts_outside ic A r1
  | Alt r1 r2 => starts_outside ic A r1 && starts_outside ic A r2
  | Rep lo r1 => negb (Nat.eqb lo 0) && starts_outside ic A r1
  | Grp _ r1 => starts_outside ic A r1
  | _ => false
  end.

(** The text is empty or starts with a character of the alphabet. *)
Definition head_over (A : cls) (s : str) : bool :=
  match s with
  | [] => true
  | c :: _ => cls_mem false A c
  end.

(** ** Lower-case letters and digits *)

Definition plain : cls := cls_union cls_az cls_d.

(** ** Runs of punctuation *)

(** The text is empty or starts with a character other than [c]. *)
Definition head_differs (c : char) (s : str) : bool :=
  match s with
  | [] => true
  | h :: _ => negb (char_eqb c h)
  end.

(** [copies p j]: [j] copies of the text [p]. *)
Definition copies (p : str) (j : nat) : str := concat (repeat p j).

Definition is_punct (c : char) : bool := cls_mem false (set ".!?") c.
Definition no_punct : cls := cls_not (set ".!?").

(** The full stop. *)
Definition dot : char := 46%N.

(** The white space at the head of a text. *)
Fixpoint leading_space (s : str) : str :=
  match s with
  | c :: t => if is_space c then c :: leading_space t else []
  | [] => []
  end.

Definition no_dot : cls := cls_not (one ".").

(** ** Notions of the further properties *)

(** [sub] occurs in [text] at index [p], as [str.find] sees it. *)
Definition occurs_at (sub text : str) (p : nat) : bool :=
  (p <=? length text) && starts_with sub (skipn p text).

(** Occurrences in ascending order of their start. *)
Fixpoint ascending (ms : list occurrence) : Prop :=
  match ms with
  | [] => True
  | m :: rest =>
      match rest with
      | [] => True
      | n :: _ => o_start m <= o_start n
      end /\ ascending rest
  end.

(** The occurrences that start at [k], in the order of the list. *)
Definition starting_at (k : nat) (ms : list occurrence) : list occurrence :=
  filter (fun o => o_start o =? k) ms.


(** The participants of a response, when it has the key. *)
Definition participants_of (response : option api_response)
    : option (list participant) :=
  match response with
  | Some r => match parsed r with
              | Some pj => participants pj
              | None => None
              end
  | None => None
  end.

(** The attribution records after the collapse of their leading tags
    (lines 1000-1003). *)
Definition collapse_tags (attrs : list attribution_info)
    : list attribution_info :=
  map (fun attr =>
         AttributionInfo (a_speaker_name attr)
           (remove_leading_duplicate_tags (a_attribution attr)))
      attrs.

(** [s] is a contiguous part of [text]. *)
Definition part_of (s text : str) : Prop :=
  exists a b, s = slice a b text.

(** The pattern of a response under a key; [None] for a response that
    is not a dictionary. *)
Definition pattern_of (field : api_response -> option str)
    (response : option api_response) : option str :=
  match response with
  | Some r => field r
  | None => None
  end.

(** The cleaned turns with the identifiers drawn from [n] on, for turns
    that carry none. *)
Definition numbered (fresh_uuid : nat -> str) (n : nat)
    (utterances : list utterance_rec) : list utterance_rec :=
  map (fun iu => Utterance (speaker (snd iu)) (clean_text (utterance (snd iu)))
                           (Some (fresh_uuid (fst iu))))
      (combine (seq n (length utterances)) utterances).

(** White space in [s] is single spaces between words: [prev_space]
    tells whether the character before is a space (or the start). *)
Fixpoint tidy_aux (prev_space : bool) (s : str) : bool :=
  match s with
  | [] => negb prev_space
  | c :: t =>
      if is_space c
      then negb prev_space && (c =? 32)%N && tidy_aux true t
      else tidy_aux false t
  end.

Definition tidy (s : str) : bool :=
  match s with
  | [] => true
  | _ :: _ => tidy_aux true s
  end.

(** A word: not empty, no white space. *)
Definition is_word_str (w : str) : bool :=
  negb (is_nil w) && forallb (fun c => negb (is_space c)) w.

Definition backtick : char := 96%N.

Definition no_backtick (s : str) : bool :=
  forallb (fun c => negb (c =? backtick)%N) s.

(** The characters that [clean_special_characters] takes out of a text:
    U+FFFD, the curly quotes, the two dashes and the copyright sign. *)
Definition special_characters : list char :=
  [ 65533; 8216; 8217; 8220; 8221; 8211; 8212; 169 ]%N.

(** What the table of [clean_special_characters] makes of one
    character. *)
Definition special (c : char) : str :=
  apply_replacements common_replacements [c].

(** The line of the output for a line of a page (lines 328, 329 and
    334). *)
Definition tagged_line (line : str) : str := clean_line line ++ u "<TAG_2>".

(** Alphabets: every character but the upper-case ASCII letters, every
    character but '<', and every character but the four that open a
    bracketed aside. *)
Definition no_capitals : cls := cls_not cls_AZ.
Definition no_angle : cls := cls_not (one "<").
Definition no_brackets : cls := cls_not (set "<(/\").

(** The ASCII characters but '<'. *)
Definition ascii_no_angle : cls := Cls false [ (0, 59); (61, 127) ]%N.

(** Every character but the marks ',', '.', ';', ':', '!' and '?'. *)
Definition no_marks : cls := cls_not (set ",.;:!?").

(** The text starts with a character that is neither white space
    nor '<'. *)
Definition starts_plainly (s : str) : bool :=
  match s with
  | [] => false
  | c :: _ => negb (is_space c) && negb (c =? 60)%N
  end.

(** No [o] in [s] is followed, anywhere later in [s], by [c]. *)
Fixpoint no_pair (o c : char) (s : str) : bool :=
  match s with
  | [] => true
  | x :: t =>
      (negb (x =? o)%N || negb (existsb (N.eqb c) t)) && no_pair o c t
  end.

(** [a] is [b] with some of its characters left out. *)
Inductive subseq : str -> str -> Prop :=
| subseq_nil : subseq [] []
| subseq_skip x a b : subseq a b -> subseq a (x :: b)
| subseq_keep x a b : subseq a b -> subseq (x :: a) (x :: b).

(** The pattern of an aside between the characters [o] and [c]: [o],
    then what is not [c], then [c]. *)
Definition aside (o c : char) : regex :=
  Seq (Chr (Cls false [ (o, o) ]))
      (Seq (Rep 0 (Chr (Cls true [ (c, c) ])))
           (Chr (Cls false [ (c, c) ]))).

(** The characters that are not white space. *)
Definition visible (s : str) : str :=
  filter (fun x => negb (is_space x)) s.

(** Every run of white space replaced by one space; [prev_space] tells
    whether the character before was white space. *)
Fixpoint squeeze (prev_space : bool) (s : str) : str :=
  match s with
  | [] => []
  | x :: t =>
      if is_space x
      then (if prev_space then squeeze true t else 32%N :: squeeze true t)
      else x :: squeeze false t
  end.

(** The class of the characters of a tag name, [[A-Z_0-9]]. *)
Definition cls_tag_name : cls :=
  cls_union cls_AZ (cls_union (one "_") cls_d).

Definition tag_name_ok (name : str) : bool :=
  negb (is_nil name) && forallb (cls_mem false cls_tag_name) name.

(** The tag with the name [name]. *)
Definition tag_of (name : str) : str := 60%N :: name ++ [62%N].

(** A round of the leading section: a tag and the white space after
    it. *)
Definition tag_round (nw : str * str) : str := tag_of (fst nw) ++ snd nw.

Definition round_ok (nw : str * str) : bool :=
  tag_name_ok (fst nw) && forallb is_space (snd nw).

(** The text after the leading tags: empty, or starting with a
    character that is neither white space nor '<'. *)
Definition ends_tags (rest : str) : bool :=
  match rest with
  | [] => true
  | c :: _ => negb (is_space c) && negb (c =? 60)%N
  end.

(** The continuation [K] accepts every state whose cursor is
    before [b]. *)
Definition total_at (b : str) (K : cont) : Prop :=
  forall bef cs, K (MState bef b cs) <> None.

(** The pattern [r] reads [p] before [b]: whatever follows in the
    pattern, when it accepts at [b], the match goes on from there. *)
Definition reads (r : regex) (p b : str) : Prop :=
  forall K bef cs,
    total_at b K ->
    exists bef' cs',
      rmatch false r (MState bef (p ++ b) cs) K = K (MState bef' b cs').

(** The same for the optional iterations of a repetition. *)
Definition loop_reads (r : regex) (p b : str) : Prop :=
  forall K bef cs fuel,
    length p < fuel ->
    total_at b K ->
    exists bef' cs',
      rep_loop (rmatch false r) fuel (MState bef (p ++ b) cs) K
      = K (MState bef' b cs').

(** The line without the white space and punctuation at its start. *)
Fixpoint drop_leading (line : str) : str :=
  match line with
  | c :: t => if cls_mem false cls_leading c then drop_leading t else line
  | [] => []
  end.

(** The white space and punctuation at the start of a line. *)
Fixpoint leading_run (line : str) : str :=
  match line with
  | c :: t => if cls_mem false cls_leading c then c :: leading_run t else []
  | [] => []
  end.

(** [r] reads [p] before [b] and leaves the groups [f cs], where [cs]
    are the groups before. *)
Definition reads_with (r : regex) (p b : str)
    (f : list (nat * str) -> list (nat * str)) : Prop :=
  forall K bef cs,
    total_at b K ->
    exists bef',
      rmatch false r (MState bef (p ++ b) cs) K = K (MState bef' b (f cs)).

(** A tag marker with white space between its characters: the strings
    [w1] to [w6] stand after '<', 'T', 'A', 'G', '_' and the digits. *)
Definition spaced_tag (w1 w2 w3 w4 w5 w6 digits : str) : str :=
  [60%N] ++ w1 ++ [84%N] ++ w2 ++ [65%N] ++ w3 ++ [71%N] ++ w4
  ++ [95%N] ++ w5 ++ digits ++ w6 ++ [62%N].

Definition digits_ok (digits : str) : bool :=
  negb (is_nil digits) && forallb (cls_mem false cls_d) digits.

Definition is_capital (c : char) : bool := cls_mem false cls_AZ c.

(** A white-space character and the capital after it. *)
Definition spaced_pair (sl : char * char) : str := [fst sl; snd sl].

Definition pair_ok (sl : char * char) : bool :=
  is_space (fst sl) && is_capital (snd sl).

(** A header of capitals with one white-space character between
    them. *)
Definition spaced_header (l1 : char) (pairs : list (char * char)) : str :=
  l1 :: concat (map spaced_pair pairs).

(** ** Lines of plain words, and plain words with line markers *)





(** What may follow the first letter of a line: nothing, a plain
    character, or a space and a plain character. *)
Definition word_goes_on (rest : str) : bool :=
  match rest with
  | [] => true
  | l2 :: r2 =>
      cls_mem false plain l2
      || ((l2 =? 32)%N
          && match r2 with
             | h :: _ => cls_mem false plain h
             | [] => false
             end)
  end.

(** What may follow a character of a text of plain words and line
    markers: after a space a plain character or a marker; a marker is
    "<TAG_2>", followed by a space and a line that starts with a
    lower-case letter. *)
Definition tagged_next (c : char) (t : str) : bool :=
  if (c =? 32)%N
  then match t with
       | h :: _ => cls_mem false plain h || (h =? 60)%N
       | [] => false
       end
  else if (c =? 60)%N
  then starts_with (u "TAG_2> ") t
       && match skipn 7 t with
          | l1 :: rest => cls_mem false cls_az l1 && word_goes_on rest
          | [] => false
          end
  else if (c =? 62)%N
  then match t with
       | s :: l :: _ => (s =? 32)%N && cls_mem false plain l
       | _ => false
       end
  else if (c =? 84)%N || (c =? 65)%N || (c =? 71)%N
  then match t with
       | h :: _ => negb (is_space h)
       | [] => true
       end
  else (c =? 95)%N || cls_mem false plain c.

Fixpoint tagged_from (s : str) : bool :=
  match s with
  | [] => true
  | c :: t => tagged_next c t && tagged_from t
  end.


(** The characters of a text of plain words and line markers. *)
Definition tagged_alphabet : cls := cls_union plain (set " <>TAG_").

(** * Lemmas *)

(** ** Slices *)

Lemma slice_app_skipn (a b : nat) (s : str) :
  a <= b -> slice a b s ++ skipn b s = skipn a s.
Proof.
  intros Hab. unfold slice.
  replace (skipn b s) with (skipn (b - a) (skipn a s)).
  - apply firstn_skipn.
  - rewrite skipn_skipn. f_equal. lia.
Qed.

Lemma slice_zero (b : nat) (s : str) : slice 0 b s = firstn b s.
Proof. unfold slice. rewrite Nat.sub_0_r. reflexivity. Qed.

(** ** The segmenter *)

Lemma extract_utterances_length (text : str) (ms : list occurrence) :
  length (extract_utterances text ms) = length ms.
Proof.
  induction ms as [|m rest IH]; [reflexivity|].
  destruct rest as [|n rest]; [reflexivity|].
  change (S (length (extract_utterances text (n :: rest)))
          = S (length (n :: rest))).
  now rewrite IH.
Qed.

Lemma extract_utterances_speakers (text : str) (ms : list occurrence) :
  map speaker (extract_utterances text ms) = map o_speaker_name ms.
Proof.
  induction ms as [|m rest IH]; [reflexivity|].
  destruct rest as [|n rest]; [reflexivity|].
  change (o_speaker_name m :: map speaker (extract_utterances text (n :: rest))
          = o_speaker_name m :: map o_speaker_name (n :: rest)).
  now rewrite IH.
Qed.

Lemma extract_utterances_texts (text : str) (ms : list occurrence) :
  map utterance (extract_utterances text ms)
  = map strip (raw_spans text ms).
Proof.
  induction ms as [|m rest IH]; [reflexivity|].
  destruct rest as [|n rest]; [reflexivity|].
  change (strip (slice (o_end m) (o_start n) text)
            :: map utterance (extract_utterances text (n :: rest))
          = strip (slice (o_end m) (o_start n) text)
            :: map strip (raw_spans text (n :: rest))).
  now rewrite IH.
Qed.

Lemma reassemble_cons (text : str) (m n : occurrence) rest :
  reassemble text (m :: n :: rest)
  = occurrence_text text m ++ slice (o_end m) (o_start n) text
    ++ reassemble text (n :: rest).
Proof. unfold reassemble. simpl. now rewrite <- app_assoc. Qed.

Lemma reassemble_last (text : str) (m : occurrence) :
  reassemble text [m] = occurrence_text text m ++ skipn (o_end m) text.
Proof. unfold reassemble. simpl. now rewrite app_nil_r. Qed.

Lemma reassemble_skipn (text : str) (ms : list occurrence) :
  Forall (fun m => o_start m <= o_end m) ms ->
  non_overlapping ms ->
  ms <> [] ->
  reassemble text ms = skipn (first_start ms) text.
Proof.
  induction ms as [|m rest IH]; intros Hse Hno Hne; [congruence|].
  inversion Hse as [|? ? Hm Hrest]; subst.
  destruct Hno as [Hnext Hno].
  destruct rest as [|n rest].
  - rewrite reassemble_last. now apply slice_app_skipn.
  - rewrite reassemble_cons, IH by (assumption || discriminate).
    cbn [first_start]. rewrite (slice_app_skipn _ _ text Hnext).
    now apply slice_app_skipn.
Qed.

(** The spans between well-placed occurrences, with the occurrences and
    the prefix before the first one, make up the text. *)
Lemma partition_law (text : str) (ms : list occurrence) :
  Forall (fun m => o_start m <= o_end m) ms ->
  non_overlapping ms ->
  ms <> [] ->
  slice 0 (first_start ms) text ++ reassemble text ms = text.
Proof.
  intros Hse Hno Hne.
  rewrite (reassemble_skipn text ms Hse Hno Hne), slice_zero.
  apply firstn_skipn.
Qed.

(** ** Occurrences found by the search loop *)

Lemma find_occurrences_ordered fuel text a start_pos :
  Forall (fun m => o_start m <= o_end m)
         (find_occurrences fuel text a start_pos).
Proof.
  revert start_pos.
  induction fuel as [|f IH]; intros start_pos; simpl; [constructor|].
  destruct (str_find (a_attribution a) text start_pos); constructor.
  - simpl. lia.
  - apply IH.
Qed.

Lemma all_occurrences_ordered text attrs :
  Forall (fun m => o_start m <= o_end m) (all_occurrences text attrs).
Proof.
  unfold all_occurrences.
  induction attrs as [|a attrs IH]; simpl; [constructor|].
  apply Forall_app. split; [apply find_occurrences_ordered | exact IH].
Qed.

Lemma insert_by_start_Forall (P : occurrence -> Prop) x l :
  P x -> Forall P l -> Forall P (insert_by_start x l).
Proof.
  intros Hx Hl.
  induction Hl as [|y l Hy Hl IH]; simpl.
  - now repeat constructor.
  - destruct (o_start x <=? o_start y); repeat (constructor; try assumption).
Qed.

Lemma sort_by_start_Forall (P : occurrence -> Prop) l :
  Forall P l -> Forall P (sort_by_start l).
Proof.
  induction 1 as [|x l Hx Hl IH]; simpl; [constructor|].
  now apply insert_by_start_Forall.
Qed.

Lemma get_utterances_extract text response pj ps attrs :
  parsed response = Some pj ->
  participants pj = Some ps ->
  collect_attributions ps = Ok attrs ->
  occurrences_of text attrs <> [] ->
  get_utterances text (Some response)
  = Ok (extract_utterances text (occurrences_of text attrs)).
Proof.
  intros Hpj Hps Hattrs Hne.
  unfold get_utterances. rewrite Hpj, Hps, Hattrs. cbn [bind].
  destruct attrs as [|a attrs].
  - exfalso. apply Hne. reflexivity.
  - fold (occurrences_of text (a :: attrs)).
    destruct (occurrences_of text (a :: attrs)) eqn:E; [congruence|].
    reflexivity.
Qed.

(** ** The participants of a response *)

Lemma participant_attributions_ok (p : participant) :
  has_name p ->
  exists attrs,
    participant_attributions p = Ok attrs /\
    map a_attribution attrs = attribution_strings p.
Proof.
  unfold has_name, participant_attributions, attribution_strings.
  intros Hname.
  destruct (speaker_name_variants p) as [[|name names]|]; [congruence| |];
    eexists; (split; [reflexivity|]); rewrite map_map; apply map_id.
Qed.

Lemma collect_attributions_ok (ps : list participant) :
  Forall has_name ps ->
  exists attrs,
    collect_attributions ps = Ok attrs /\
    map a_attribution attrs = flat_map attribution_strings ps.
Proof.
  induction 1 as [|p ps Hp Hps [more [Hmore Hmap]]]; simpl.
  - now exists [].
  - destruct (participant_attributions_ok p Hp) as [here [Hhere Hmap']].
    exists (here ++ more). rewrite Hhere, Hmore. cbn [bind].
    split; [reflexivity|]. now rewrite map_app, Hmap, Hmap'.
Qed.

Lemma find_occurrences_none fuel text a :
  str_find (a_attribution a) text 0 = None ->
  find_occurrences fuel text a 0 = [].
Proof. intros H. destruct fuel; simpl; [reflexivity|]. now rewrite H. Qed.

Lemma all_occurrences_none text attrs :
  Forall (fun a => str_find (a_attribution a) text 0 = None) attrs ->
  all_occurrences text attrs = [].
Proof.
  unfold all_occurrences.
  induction 1 as [|a attrs Ha Hattrs IH]; simpl; [reflexivity|].
  now rewrite (find_occurrences_none _ _ _ Ha), IH.
Qed.

(** The guards at the head of [get_utterances] (lines 947-969). *)
Lemma get_utterances_guards (text : str) :
  get_utterances text None = Ok [] /\
  (forall h f, get_utterances text (Some (ApiResponse None h f)) = Ok []) /\
  (forall h f,
      get_utterances text (Some (ApiResponse (Some (ParsedJson None)) h f))
      = Ok []).
Proof. repeat split. Qed.

(** With a name for every participant, a response without any
    attribution string gives the empty list (line 996). *)
Lemma get_utterances_no_attribution text response pj ps :
  parsed response = Some pj ->
  participants pj = Some ps ->
  Forall has_name ps ->
  flat_map attribution_strings ps = [] ->
  get_utterances text (Some response) = Ok [].
Proof.
  intros Hpj Hps Hnames Hnone.
  destruct (collect_attributions_ok ps Hnames) as [attrs [Hattrs Hmap]].
  unfold get_utterances. rewrite Hpj, Hps, Hattrs. cbn [bind].
  rewrite Hnone in Hmap. now destruct attrs.
Qed.

(** ** The cleaner *)

Lemma strip_pattern_loop_ok re_compile p r utterances :
  re_compile p = Some r ->
  strip_pattern_loop re_compile p utterances
  = Ok (map (stripped_copy r) utterances).
Proof.
  intros Hr.
  induction utterances as [|ut rest IH]; simpl; [reflexivity|].
  now rewrite Hr, IH.
Qed.

Lemma strip_pattern_ok re_compile pattern utterances :
  compiles re_compile pattern ->
  strip_pattern re_compile pattern utterances
  = Ok (copies_for re_compile pattern utterances).
Proof.
  unfold compiles, copies_for, strip_pattern, active_pattern.
  destruct pattern as [[|c p]|]; try reflexivity.
  intros Hc. destruct (re_compile (strip_markers (c :: p))) eqn:E;
    [|congruence].
  now apply strip_pattern_loop_ok.
Qed.



(** ** The matcher only moves the cursor forward *)

Lemma reach_refl s : reach s s.
Proof. now exists []. Qed.

Lemma reach_trans s1 s2 s3 : reach s1 s2 -> reach s2 s3 -> reach s1 s3.
Proof.
  intros [p [Ha Hb]] [q [Ha' Hb']]. exists (p ++ q). split.
  - now rewrite Ha, Ha', app_assoc.
  - now rewrite Hb', Hb, rev_app_distr, app_assoc.
Qed.

Lemma reach_caps s s' c :
  reach s s' -> reach s (MState (before s') (after s') c).
Proof. intros [p H]. now exists p. Qed.

Lemma eat_reach ic p : forall s s', eat ic p s = Some s' -> reach s s'.
Proof.
  induction p as [|x p IH]; intros s s' H; simpl in H.
  - injection H as <-. apply reach_refl.
  - destruct (after s) as [|c t] eqn:E; [discriminate|].
    destruct (char_matches ic x c); [|discriminate].
    apply IH in H. eapply reach_trans; [|exact H].
    exists [c]. now rewrite E.
Qed.

Lemma rep_min_forward m :
  forward m -> forall lo, forward (rep_min m lo).
Proof.
  intros Hm lo. induction lo as [|n IH]; intros s k x H; simpl in H.
  - exists s. split; [apply reach_refl | exact H].
  - apply Hm in H. destruct H as [s1 [R1 H]].
    apply IH in H. destruct H as [s2 [R2 H]].
    exists s2. split; [eapply reach_trans; eassumption | exact H].
Qed.

Lemma rep_loop_forward m :
  forward m -> forall fuel, forward (rep_loop m fuel).
Proof.
  intros Hm fuel. induction fuel as [|f IH]; intros s k x H; simpl in H.
  - exists s. split; [apply reach_refl | exact H].
  - match type of H with
    | match ?e with _ => _ end = _ => destruct e as [y|] eqn:E
    end.
    + injection H as ->. apply Hm in E. destruct E as [s1 [R1 E]].
      destruct (length (after s1) <? length (after s)); [|discriminate].
      apply IH in E. destruct E as [s2 [R2 E]].
      exists s2. split; [eapply reach_trans; eassumption | exact E].
    + exists s. split; [apply reach_refl | exact H].
Qed.

Lemma rmatch_forward ic r : forward (rmatch ic r).
Proof.
  induction r as [ |c|r1 IH1 r2 IH2|r1 IH1 r2 IH2|lo r1 IH1|r1 IH1|n r1 IH1
                   |n| | |positive r1 IH1|positive c];
    intros s k x H; cbn [rmatch] in H.
  - exists s. split; [apply reach_refl | exact H].
  - destruct (after s) as [|y t] eqn:E; [discriminate|].
    destruct (cls_mem ic c y); [|discriminate].
    eexists. split; [|exact H]. exists [y]. now rewrite E.
  - apply IH1 in H. destruct H as [s1 [R1 H]].
    apply IH2 in H. destruct H as [s2 [R2 H]].
    exists s2. split; [eapply reach_trans; eassumption | exact H].
  - destruct (rmatch ic r1 s k) as [y|] eqn:E.
    + injection H as ->. now apply IH1.
    + now apply IH2.
  - apply (rep_min_forward _ IH1) in H. destruct H as [s1 [R1 H]].
    cbv beta in H.
    apply (rep_loop_forward _ IH1) in H. destruct H as [s2 [R2 H]].
    exists s2. split; [eapply reach_trans; eassumption | exact H].
  - destruct (rmatch ic r1 s k) as [y|] eqn:E.
    + injection H as ->. now apply IH1.
    + exists s. split; [apply reach_refl | exact H].
  - apply IH1 in H. destruct H as [s1 [R1 H]].
    eexists. split; [|exact H]. now apply reach_caps.
  - destruct (get_cap n (caps s)) as [p|]; [|discriminate].
    destruct (eat ic p s) as [s1|] eqn:E; [|discriminate].
    exists s1. split; [eapply eat_reach; eassumption | exact H].
  - destruct (before s); [|discriminate].
    exists s. split; [apply reach_refl | exact H].
  - destruct (word_boundary s); [|discriminate].
    exists s. split; [apply reach_refl | exact H].
  - destruct (rmatch ic r1 s (fun s' => Some s')) as [s1|] eqn:E;
      destruct positive; try discriminate.
    + eexists. split; [|exact H]. apply reach_caps, reach_refl.
    + exists s. split; [apply reach_refl | exact H].
  - match type of H with
    | (if ?b then _ else _) = _ => destruct b; [|discriminate]
    end.
    exists s. split; [apply reach_refl | exact H].
Qed.

(** ** Patterns that cannot match over an alphabet *)

Lemma in_range_points x r : in_range x r = true -> In x (range_points r).
Proof.
  unfold in_range, range_points. intros H.
  apply andb_true_iff in H. destruct H as [H1 H2].
  apply N.leb_le in H1, H2.
  apply in_map_iff. exists (N.to_nat (x - fst r)). split; [lia|].
  apply in_seq. lia.
Qed.

Lemma in_ranges_points x rs :
  in_ranges x rs = true -> In x (flat_map range_points rs).
Proof.
  unfold in_ranges. intros H. apply existsb_exists in H.
  destruct H as [r [Hr Hx]]. apply in_flat_map. exists r.
  split; [exact Hr | now apply in_range_points].
Qed.

Lemma never_matches_sound ic A k x :
  never_matches ic A k = true ->
  cls_mem false A x = true ->
  cls_mem ic k x = false.
Proof.
  unfold never_matches. intros H HA.
  destruct (cls_neg A) eqn:EA.
  - apply andb_true_iff in H. destruct H as [H Hall].
    apply andb_true_iff in H. destruct H as [Hic Hk].
    apply negb_true_iff in Hic, Hk. subst ic.
    destruct (cls_mem false k x) eqn:Ek; [|reflexivity].
    unfold cls_mem in Ek. rewrite Hk in Ek. simpl in Ek.
    rewrite orb_false_r in Ek.
    apply in_ranges_points in Ek.
    rewrite forallb_forall in Hall. specialize (Hall x Ek).
    rewrite HA in Hall. discriminate.
  - unfold cls_mem in HA. rewrite EA in HA. simpl in HA.
    rewrite orb_false_r in HA.
    apply in_ranges_points in HA.
    rewrite forallb_forall in H. specialize (H x HA).
    now apply negb_true_iff in H.
Qed.

Lemma over_app A a b : over A (a ++ b) = over A a && over A b.
Proof. apply forallb_app. Qed.

Lemma reach_over A s s' :
  reach s s' -> over A (after s) = true -> over A (after s') = true.
Proof.
  intros [p [Ha _]] H. rewrite Ha, over_app in H.
  now apply andb_true_iff in H.
Qed.

Lemma blocks_rmatch ic A r :
  blocks ic A r = true ->
  forall s k, over A (after s) = true -> rmatch ic r s k = None.
Proof.
  induction r as [ |c|r1 IH1 r2 IH2|r1 IH1 r2 IH2|lo r1 IH1|r1 IH1|n r1 IH1
                   |n| | |positive r1 IH1|positive c];
    intros Hb s k Hs; cbn [blocks] in Hb; try discriminate; cbn [rmatch].
  - destruct (after s) as [|y t] eqn:E; [reflexivity|].
    simpl in Hs. apply andb_true_iff in Hs. destruct Hs as [Hy _].
    now rewrite (never_matches_sound ic A c y Hb Hy).
  - apply orb_true_iff in Hb. destruct Hb as [Hb|Hb].
    + now apply IH1.
    + destruct (rmatch ic r1 s (fun s' => rmatch ic r2 s' k)) as [x|] eqn:E;
        [|reflexivity].
      apply rmatch_forward in E. destruct E as [s1 [R1 E]].
      rewrite (IH2 Hb s1 k) in E; [discriminate|].
      eapply reach_over; eassumption.
  - apply andb_true_iff in Hb. destruct Hb as [Hb1 Hb2].
    now rewrite (IH1 Hb1 s k Hs), (IH2 Hb2 s k Hs).
  - apply andb_true_iff in Hb. destruct Hb as [Hlo Hb].
    destruct lo as [|n]; [discriminate|].
    cbn [rep_min]. now apply IH1.
  - now apply IH1.
  - destruct positive; [|discriminate].
    now rewrite (IH1 Hb s (fun s' => Some s') Hs).
Qed.

Lemma blocks_match_at ic A r bef aft adv :
  blocks ic A r = true ->
  over A aft = true ->
  match_at ic r bef aft adv = None.
Proof.
  intros Hb H. unfold match_at.
  now rewrite (blocks_rmatch ic A r Hb).
Qed.

Lemma blocks_sub_scan ic A r repl :
  blocks ic A r = true ->
  forall fuel bef aft adv,
    over A aft = true ->
    sub_scan ic r repl fuel bef aft adv = aft.
Proof.
  intros Hb fuel.
  induction fuel as [|f IH]; intros bef aft adv H; [reflexivity|].
  cbn [sub_scan]. rewrite (blocks_match_at ic A r bef aft adv Hb H).
  destruct aft as [|c t]; [reflexivity|].
  simpl in H. apply andb_true_iff in H. destruct H as [Hc Ht].
  now rewrite IH.
Qed.

(** A pattern that cannot match leaves the text as it is. *)
Lemma blocks_re_sub_with ic A r repl text :
  blocks ic A r = true ->
  over A text = true ->
  re_sub_with ic r repl text = text.
Proof.
  intros Hb Ht. unfold re_sub_with. now apply blocks_sub_scan with A.
Qed.

(** ** Patterns that cannot start at a character of an alphabet *)

Lemma starts_outside_rmatch ic A r :
  starts_outside ic A r = true ->
  forall s k, head_over A (after s) = true -> rmatch ic r s k = None.
Proof.
  induction r as [ |c|r1 IH1 r2 IH2|r1 IH1 r2 IH2|lo r1 IH1|r1 IH1|n r1 IH1
                   |n| | |positive r1 IH1|positive c];
    intros Hb s k Hs; cbn [starts_outside] in Hb; try discriminate;
    cbn [rmatch].
  - destruct (after s) as [|y t] eqn:E; [reflexivity|].
    now rewrite (never_matches_sound ic A c y Hb Hs).
  - now apply IH1.
  - apply andb_true_iff in Hb. destruct Hb as [Hb1 Hb2].
    now rewrite (IH1 Hb1 s k Hs), (IH2 Hb2 s k Hs).
  - apply andb_true_iff in Hb. destruct Hb as [Hlo Hb].
    destruct lo as [|n]; [discriminate|].
    cbn [rep_min]. now apply IH1.
  - now apply IH1.
Qed.

Lemma starts_outside_match_at ic A r bef aft adv :
  starts_outside ic A r = true ->
  head_over A aft = true ->
  match_at ic r bef aft adv = None.
Proof.
  intros Hb H. unfold match_at.
  now rewrite (starts_outside_rmatch ic A r Hb).
Qed.

Lemma over_head_over A s : over A s = true -> head_over A s = true.
Proof.
  destruct s as [|c t]; [reflexivity|]. simpl. intros H.
  now apply andb_true_iff in H.
Qed.

(** Such a pattern finds nothing in a text over the alphabet, whatever
    comes before it. *)
Lemma starts_outside_sub_scan ic A r repl :
  starts_outside ic A r = true ->
  forall fuel bef aft adv,
    over A aft = true ->
    sub_scan ic r repl fuel bef aft adv = aft.
Proof.
  intros Hb fuel.
  induction fuel as [|f IH]; intros bef aft adv H; [reflexivity|].
  cbn [sub_scan].
  rewrite (starts_outside_match_at ic A r bef aft adv Hb
             (over_head_over A aft H)).
  destruct aft as [|c t]; [reflexivity|].
  simpl in H. apply andb_true_iff in H. destruct H as [Hc Ht].
  now rewrite IH.
Qed.

Lemma blocks_re_sub A r t text :
  blocks false A r = true -> over A text = true -> re_sub r t text = text.
Proof. apply blocks_re_sub_with. Qed.

Lemma blocks_re_sub_i A r t text :
  blocks true A r = true -> over A text = true -> re_sub_i r t text = text.
Proof. apply blocks_re_sub_with. Qed.

(** ** Facts checked on the points of an alphabet *)

(** A property checked on the points of an alphabet holds of the
    characters of a text over it. *)
Lemma over_points A x :
  cls_neg A = false -> cls_mem false A x = true -> In x (cls_points A).
Proof.
  intros HA H. unfold cls_mem in H. rewrite HA in H. simpl in H.
  rewrite orb_false_r in H. now apply in_ranges_points.
Qed.

Lemma alphabet_fact A (f : char -> bool) x :
  cls_neg A = false ->
  forallb f (cls_points A) = true ->
  cls_mem false A x = true ->
  f x = true.
Proof.
  intros HA Hf Hx. rewrite forallb_forall in Hf.
  apply Hf. now apply over_points.
Qed.


(** ** Plain characters, filters and replacements *)

Lemma plain_not_space c :
  cls_mem false plain c = true ->
  is_space c = false /\ cls_mem false cls_s c = false
  /\ char_eqb c 32%N = false.
Proof.
  intros H.
  pose proof (alphabet_fact plain
                (fun c => negb (is_space c) && negb (cls_mem false cls_s c)
                          && negb (char_eqb c 32%N)) c eq_refl eq_refl H) as F.
  apply andb_true_iff in F. destruct F as [F F3].
  apply andb_true_iff in F. destruct F as [F1 F2].
  now rewrite negb_true_iff in F1, F2, F3.
Qed.

Lemma consumed_cons c bef t caps1 caps2 bef' :
  consumed (MState bef (c :: t) caps1) (MState bef' t caps2) = [c].
Proof.
  unfold consumed. cbn [after length].
  replace (S (length t) - length t) with 1 by lia. reflexivity.
Qed.

Lemma not_space_char c :
  char_eqb c 32%N = false -> cls_mem false (one " ") c = false.
Proof.
  intros H. apply N.eqb_neq in H.
  unfold cls_mem, one, in_ranges, in_range. simpl.
  change (ch " ") with 32%N.
  destruct (32 <=? c)%N eqn:E1; destruct (c <=? 32)%N eqn:E2; try reflexivity.
  apply N.leb_le in E1, E2. lia.
Qed.

Lemma filter_all {A : Type} (f : A -> bool) l :
  forallb f l = true -> filter f l = l.
Proof.
  induction l as [|a l IH]; [reflexivity|]. simpl. intros H.
  apply andb_true_iff in H. destruct H as [Ha Hl].
  now rewrite Ha, IH.
Qed.



(** Rewrite with the patterns that the alphabet of [H] blocks. *)
Ltac blocked H :=
  match type of H with
  | over ?A ?x = true =>
      repeat match goal with
        | |- context [re_sub_i ?r ?t x] =>
            rewrite (blocks_re_sub_i A r t x)
              by first [exact H | vm_compute; reflexivity]
        | |- context [re_sub ?r ?t x] =>
            rewrite (blocks_re_sub A r t x)
              by first [exact H | vm_compute; reflexivity]
        end
  end.

(** ** Unfolding steps of the matcher *)

(** Unfolding steps of the matcher. *)
Lemma rmatch_seq ic r1 r2 s k :
  rmatch ic (Seq r1 r2) s k = rmatch ic r1 s (fun s' => rmatch ic r2 s' k).
Proof. reflexivity. Qed.

Lemma rmatch_grp ic n r s k :
  rmatch ic (Grp n r) s k
  = rmatch ic r s
      (fun s' =>
         k (MState (before s') (after s') ((n, consumed s s') :: caps s'))).
Proof. reflexivity. Qed.

Lemma rmatch_chr_hit ic c x bef t cs k :
  cls_mem ic c x = true ->
  rmatch ic (Chr c) (MState bef (x :: t) cs) k = k (MState (x :: bef) t cs).
Proof. intros H. cbn [rmatch after before caps]. now rewrite H. Qed.

Lemma rmatch_rep2 ic r s k :
  rmatch ic (Rep 2 r) s k
  = rmatch ic r s
      (fun s1 =>
         rmatch ic r s1
           (fun s2 => rep_loop (rmatch ic r) (S (length (after s2))) s2 k)).
Proof. reflexivity. Qed.

Lemma rmatch_star ic r s k :
  rmatch ic (star r) s k = rep_loop (rmatch ic r) (S (length (after s))) s k.
Proof. reflexivity. Qed.

Lemma rmatch_plus ic r s k :
  rmatch ic (plus r) s k
  = rmatch ic r s
      (fun s' => rep_loop (rmatch ic r) (S (length (after s'))) s' k).
Proof. reflexivity. Qed.

(** ** The matcher on runs of copies *)

Lemma char_matches_refl ic c : char_matches ic c c = true.
Proof. unfold char_matches, char_eqb. now rewrite N.eqb_refl. Qed.

Lemma eat_self p : forall bef t cs,
  eat false p (MState bef (p ++ t) cs) = Some (MState (rev p ++ bef) t cs).
Proof.
  induction p as [|x p IH]; intros bef t cs; [reflexivity|].
  cbn [eat app after before caps]. rewrite char_matches_refl, IH.
  cbn [rev]. now rewrite <- app_assoc.
Qed.

Lemma eat_head_mismatch c p s :
  head_differs c (after s) = true -> eat false (c :: p) s = None.
Proof.
  intros H. cbn [eat]. destruct (after s) as [|h t]; [reflexivity|].
  simpl in H. apply negb_true_iff in H.
  unfold char_matches. now rewrite H.
Qed.

Lemma copies_S p j : copies p (S j) = p ++ copies p j.
Proof. reflexivity. Qed.

Lemma copies_single c j : copies [c] j = repeat c j.
Proof.
  induction j as [|j IH]; [reflexivity|]. now rewrite copies_S, IH.
Qed.

(** The greedy loop over a back-reference reads all the copies of the
    captured text that follow. *)
Lemma bref_loop n c p b cs k y :
  get_cap n cs = Some (c :: p) ->
  head_differs c b = true ->
  forall j fuel bef,
    j < fuel ->
    k (MState (rev (copies (c :: p) j) ++ bef) b cs) = Some y ->
    rep_loop (rmatch false (Bref n)) fuel
             (MState bef (copies (c :: p) j ++ b) cs) k
    = Some y.
Proof.
  intros Hcap Hb.
  induction j as [|j IH]; intros fuel bef Hf Hk;
    (destruct fuel as [|f]; [lia|]); cbn [rep_loop rmatch caps].
  - rewrite Hcap. cbn [copies repeat concat app].
    rewrite eat_head_mismatch by exact Hb. exact Hk.
  - rewrite Hcap, copies_S, <- app_assoc, eat_self.
    cbn [after].
    assert (Hlt : (length (copies (c :: p) j ++ b)
                   <? length ((c :: p) ++ copies (c :: p) j ++ b)) = true).
    { apply Nat.ltb_lt. rewrite (length_app (c :: p)). simpl. lia. }
    rewrite Hlt, IH; [reflexivity | lia |].
    rewrite copies_S, rev_app_distr, <- app_assoc in Hk. exact Hk.
Qed.

Lemma consumed_app bef p t cs bef' cs' :
  consumed (MState bef (p ++ t) cs) (MState bef' t cs') = p.
Proof.
  unfold consumed. cbn [after]. rewrite length_app.
  replace (length p + length t - length t) with (length p) by lia.
  rewrite firstn_app, Nat.sub_diag, firstn_all. simpl. apply app_nil_r.
Qed.

(** The greedy loop over [\s] reads the white space that follows. *)
Lemma space_loop w b cs k y :
  forallb is_space w = true ->
  head_over (cls_not cls_s) b = true ->
  forall fuel bef,
    length w < fuel ->
    k (MState (rev w ++ bef) b cs) = Some y ->
    rep_loop (rmatch false (Chr cls_s)) fuel (MState bef (w ++ b) cs) k
    = Some y.
Proof.
  intros Hw Hb. revert Hw.
  induction w as [|x w IH]; intros Hw fuel bef Hf Hk;
    (destruct fuel as [|f]; [simpl in Hf; lia|]);
    cbn [rep_loop rmatch app after before caps].
  - destruct b as [|h t]; [exact Hk|].
    simpl in Hb. unfold cls_mem in *. simpl in *.
    rewrite orb_false_r in *. apply negb_true_iff in Hb.
    now rewrite Hb.
  - simpl in Hw. apply andb_true_iff in Hw. destruct Hw as [Hx Hw].
    replace (cls_mem false cls_s x) with true
      by (unfold cls_mem; simpl; now rewrite orb_false_r).
    assert (Hlt : (length (w ++ b) <? length (x :: w ++ b)) = true)
      by (apply Nat.ltb_lt; simpl; lia).
    rewrite Hlt, IH; [reflexivity | exact Hw | simpl in Hf; lia |].
    cbn [rev] in Hk. now rewrite <- app_assoc in Hk.
Qed.

Lemma consumed_eq s s' p : after s = p ++ after s' -> consumed s s' = p.
Proof.
  destruct s as [bef aft cs], s' as [bef' aft' cs']. cbn [after].
  intros ->. apply consumed_app.
Qed.

Ltac consumed_is p :=
  match goal with
  | |- context [consumed ?s ?s'] => rewrite (consumed_eq s s' p eq_refl)
  end.

Lemma is_space_mem x : is_space x = true -> cls_mem false cls_s x = true.
Proof.
  unfold cls_mem, is_space. cbn [cls_neg cls_ranges cls_s xorb andb].
  intros ->. reflexivity.
Qed.

Lemma not_space_mem c : cls_mem false (cls_not cls_s) c = negb (is_space c).
Proof.
  unfold cls_mem, cls_not, is_space. cbn [cls_neg cls_ranges cls_s negb andb].
  now destruct (in_ranges c space_ranges).
Qed.

Lemma copies_length c p j : j <= length (copies (c :: p) j).
Proof.
  induction j as [|j IH]; [apply Nat.le_0_l|].
  rewrite copies_S, length_app. simpl. lia.
Qed.

Lemma rep2_bref n c p b cs k y j bef :
  get_cap n cs = Some (c :: p) ->
  head_differs c b = true ->
  k (MState (rev (copies (c :: p) (2 + j)) ++ bef) b cs) = Some y ->
  rmatch false (Rep 2 (Bref n))
         (MState bef (copies (c :: p) (2 + j) ++ b) cs) k
  = Some y.
Proof.
  intros Hcap Hb Hk.
  cbn [rmatch rep_min caps].
  change (2 + j) with (S (S j)).
  rewrite Hcap, !copies_S, <- !app_assoc, eat_self.
  cbn [caps]. rewrite Hcap, eat_self. cbn [after].
  apply (bref_loop n c p b cs k y Hcap Hb).
  - pose proof (copies_length c p j). rewrite length_app. lia.
  - change (2 + j) with (S (S j)) in Hk.
    rewrite !copies_S, !rev_app_distr, <- !app_assoc in Hk. exact Hk.
Qed.

(** ** Punctuation characters *)

Lemma is_punct_cases c :
  is_punct c = true -> c = 46%N \/ c = 33%N \/ c = 63%N.
Proof.
  intros H. apply over_points in H; [|reflexivity].
  simpl in H. intuition.
Qed.

Lemma is_punct_not_space c : is_punct c = true -> cls_mem false cls_s c = false.
Proof.
  intros H. destruct (is_punct_cases c H) as [->|[->| ->]]; reflexivity.
Qed.

Lemma is_punct_not_space_is_space c :
  is_punct c = true -> cls_mem false cls_s c = false /\ is_space c = false.
Proof.
  intros H. destruct (is_punct_cases c H) as [->|[->| ->]]; now split.
Qed.

Lemma no_punct_not_punct h :
  cls_mem false no_punct h = true -> is_punct h = false.
Proof.
  unfold no_punct, cls_not, is_punct, cls_mem. simpl.
  intros H. now apply negb_true_iff in H.
Qed.

Lemma punct_differs c h :
  is_punct c = true -> cls_mem false no_punct h = true ->
  char_eqb c h = false.
Proof.
  intros Hc Hh. apply no_punct_not_punct in Hh.
  destruct (char_eqb c h) eqn:E; [|reflexivity].
  apply N.eqb_eq in E. subst h. congruence.
Qed.

Lemma punct_head_differs c b :
  is_punct c = true -> over no_punct b = true -> head_differs c b = true.
Proof.
  intros Hc Hb. destruct b as [|h t]; [reflexivity|].
  simpl in *. apply andb_true_iff in Hb. destruct Hb as [Hh _].
  now rewrite (punct_differs c h Hc Hh).
Qed.

(** ** The scan before the first match *)

(** Where the pattern cannot start, the scan copies the text. *)
Lemma sub_scan_skip ic A r repl :
  starts_outside ic A r = true ->
  forall a fuel bef adv rest,
    over A a = true ->
    sub_scan ic r repl (length a + fuel) bef (a ++ rest) adv
    = a ++ sub_scan ic r repl fuel (rev a ++ bef) rest
             (match a with [] => adv | _ :: _ => false end).
Proof.
  intros Hs. induction a as [|x a IH]; intros fuel bef adv rest Ha;
    [reflexivity|].
  simpl in Ha. apply andb_true_iff in Ha. destruct Ha as [Hx Ha].
  cbn [length Nat.add app sub_scan].
  rewrite (starts_outside_match_at ic A r bef (x :: a ++ rest) adv Hs Hx).
  rewrite IH by exact Ha. cbn [rev]. rewrite <- app_assoc.
  now destruct a.
Qed.

Lemma re_sub_skip A r t a rest :
  starts_outside false A r = true ->
  over A a = true ->
  re_sub r t (a ++ rest)
  = a ++ sub_scan false r (expand t) (S (length a + 2 * length rest + 1))
            (rev a ++ []) rest false.
Proof.
  intros Hs Ha. unfold re_sub, re_sub_with.
  replace (2 * length (a ++ rest) + 2)
    with (length a + S (length a + 2 * length rest + 1))
    by (rewrite length_app; lia).
  rewrite (sub_scan_skip false A r (expand t) Hs) by exact Ha.
  now destruct a.
Qed.

(** ** The second pattern: a character and two or more copies of it *)

Lemma punct_run_matches c j b bef :
  is_punct c = true ->
  head_differs c b = true ->
  match_at false punct_run bef (copies [c] (3 + j) ++ b) false
  = Some (ReMatch (copies [c] (3 + j)) [(1, [c])]
                  (rev (copies [c] (3 + j)) ++ bef) b).
Proof.
  intros Hc Hb. unfold match_at, punct_run. cbn [cat].
  rewrite rmatch_seq, rmatch_grp.
  change (copies [c] (3 + j) ++ b) with (c :: copies [c] (2 + j) ++ b).
  rewrite rmatch_chr_hit by exact Hc.
  cbn [before after caps]. rewrite consumed_cons.
  erewrite rep2_bref; [|reflexivity|exact Hb|reflexivity].
  change (c :: copies [c] (2 + j) ++ b) with (copies [c] (3 + j) ++ b).
  rewrite consumed_app. cbn [caps before after].
  change (copies [c] (3 + j)) with ([c] ++ copies [c] (2 + j)).
  now rewrite rev_app_distr, <- app_assoc.
Qed.

Lemma punct_run_deletes a c j b :
  over no_punct a = true -> over no_punct b = true -> is_punct c = true ->
  re_sub punct_run [] (a ++ copies [c] (3 + j) ++ b) = a ++ b.
Proof.
  intros Ha Hb Hc.
  rewrite (re_sub_skip no_punct) by (reflexivity || exact Ha).
  cbn [sub_scan].
  rewrite punct_run_matches by (exact Hc || now apply punct_head_differs).
  cbn [m_text m_rest_before m_rest_after expand flat_map app].
  rewrite (starts_outside_sub_scan false no_punct) by (reflexivity || exact Hb).
  reflexivity.
Qed.

(** In a run of one or two, the second pattern finds no match. *)
Lemma punct_run_short c j b bef adv :
  is_punct c = true -> head_differs c b = true -> j <= 1 ->
  match_at false punct_run bef (c :: copies [c] j ++ b) adv = None.
Proof.
  intros Hc Hb Hj. unfold match_at, punct_run. cbn [cat].
  rewrite rmatch_seq, rmatch_grp, rmatch_chr_hit by exact Hc.
  cbn [before after caps rmatch rep_min get_cap Nat.eqb].
  rewrite consumed_cons.
  destruct j as [|[|j]]; [| |lia].
  - cbn [copies repeat concat app].
    now rewrite eat_head_mismatch by exact Hb.
  - change (copies [c] 1 ++ b) with ([c] ++ b). rewrite eat_self.
    cbn [caps get_cap Nat.eqb].
    now rewrite eat_head_mismatch by exact Hb.
Qed.

Lemma punct_run_keeps_short a c n b :
  over no_punct a = true -> over no_punct b = true -> is_punct c = true ->
  n <= 2 ->
  re_sub punct_run [] (a ++ copies [c] n ++ b) = a ++ copies [c] n ++ b.
Proof.
  intros Ha Hb Hc Hn.
  pose proof (punct_head_differs c b Hc Hb) as Hd.
  rewrite (re_sub_skip no_punct) by (reflexivity || exact Ha).
  f_equal.
  destruct n as [|[|[|n]]]; [| | |lia].
  - now apply (starts_outside_sub_scan false no_punct).
  - change (copies [c] 1 ++ b) with (c :: copies [c] 0 ++ b).
    cbn [sub_scan]. rewrite punct_run_short by (assumption || lia).
    f_equal. now apply (starts_outside_sub_scan false no_punct).
  - change (copies [c] 2 ++ b) with (c :: copies [c] 1 ++ b).
    cbn [sub_scan]. rewrite punct_run_short by (assumption || lia).
    f_equal.
    change (copies [c] 1 ++ b) with (c :: copies [c] 0 ++ b).
    destruct (length a + 2 * length (c :: c :: copies [c] 0 ++ b) + 1)
      as [|f]; [reflexivity|].
    cbn [sub_scan]. rewrite punct_run_short by (assumption || lia).
    f_equal. now apply (starts_outside_sub_scan false no_punct).
Qed.

(** ** The first pattern: a character with white space, three times *)

Lemma reach_suffix_head_over A s s' :
  reach s s' -> over A (after s) = true -> head_over A (after s') = true.
Proof.
  intros R H. apply over_head_over. eapply reach_over; eassumption.
Qed.

Lemma consumed_reach c bef t cs0 s1 s2 :
  after s1 = t ->
  reach s1 s2 ->
  exists p, consumed (MState bef (c :: t) cs0) s2 = c :: p.
Proof.
  intros Ht [p [Ha _]]. exists p. subst t. rewrite Ha.
  destruct s2 as [bef2 aft2 cs2].
  exact (consumed_app bef (c :: p) aft2 cs0 bef2 cs2).
Qed.

Lemma spaced_punct_run_no_match c j b bef adv :
  is_punct c = true -> over no_punct b = true ->
  match_at false spaced_punct_run bef (c :: copies [c] j ++ b) adv = None.
Proof.
  intros Hc Hb. unfold match_at, spaced_punct_run. cbn [cat].
  rewrite rmatch_seq, rmatch_grp, rmatch_seq, rmatch_chr_hit by exact Hc.
  match goal with
  | |- match ?e with _ => _ end = None => destruct e as [x|] eqn:E
  end; [exfalso|reflexivity].
  destruct j as [|j].
  - apply rmatch_forward in E. destruct E as [s2 [R E]].
    cbn [before after caps] in E.
    destruct (consumed_reach c bef (copies [c] 0 ++ b) []
                (MState (c :: bef) (copies [c] 0 ++ b) []) s2 eq_refl R)
      as [p Hp].
    cbn [rmatch rep_min caps get_cap Nat.eqb] in E.
    rewrite Hp in E.
    rewrite eat_head_mismatch in E; [discriminate|].
    cbn [after].
    pose proof (reach_over no_punct _ _ R Hb) as Hs2.
    now apply punct_head_differs.
  - rewrite copies_S in E. unfold plus in E.
    cbn [app rmatch rep_min after] in E.
    rewrite (is_punct_not_space c Hc) in E. discriminate.
Qed.

Lemma spaced_punct_run_keeps_run c b :
  is_punct c = true -> over no_punct b = true ->
  forall j fuel bef adv,
    sub_scan false spaced_punct_run (expand []) fuel bef
             (copies [c] j ++ b) adv
    = copies [c] j ++ b.
Proof.
  intros Hc Hb. induction j as [|j IH]; intros fuel bef adv.
  - now apply (starts_outside_sub_scan false no_punct).
  - destruct fuel as [|f]; [reflexivity|].
    rewrite copies_S. cbn [app sub_scan].
    rewrite spaced_punct_run_no_match by assumption.
    f_equal. apply IH.
Qed.

Lemma spaced_punct_run_keeps a c n b :
  over no_punct a = true -> over no_punct b = true -> is_punct c = true ->
  re_sub spaced_punct_run [] (a ++ copies [c] n ++ b)
  = a ++ copies [c] n ++ b.
Proof.
  intros Ha Hb Hc.
  rewrite (re_sub_skip no_punct) by (reflexivity || exact Ha).
  f_equal. now apply spaced_punct_run_keeps_run.
Qed.

(** ** The third pattern: a dot with optional white space, twice *)

Lemma leading_space_lstrip s : s = leading_space s ++ lstrip s.
Proof.
  induction s as [|c t IH]; [reflexivity|]. simpl.
  destruct (is_space c); [|reflexivity]. simpl. now rewrite <- IH.
Qed.

Lemma leading_space_spaces s : forallb is_space (leading_space s) = true.
Proof.
  induction s as [|c t IH]; [reflexivity|]. simpl.
  destruct (is_space c) eqn:E; [|reflexivity]. simpl. now rewrite E.
Qed.

Lemma lstrip_head s : head_over (cls_not cls_s) (lstrip s) = true.
Proof.
  induction s as [|c t IH]; [reflexivity|]. cbn [lstrip].
  destruct (is_space c) eqn:E; [exact IH|]. cbn [head_over].
  now rewrite not_space_mem, E.
Qed.

Lemma lstrip_over A s : over A s = true -> over A (lstrip s) = true.
Proof.
  induction s as [|c t IH]; [reflexivity|]. intros H. simpl.
  destruct (is_space c); [|exact H].
  simpl in H. apply andb_true_iff in H. now apply IH.
Qed.

Lemma dot_round_reads w b bef cs k y :
  forallb is_space w = true ->
  head_over (cls_not cls_s) b = true ->
  k (MState (rev w ++ dot :: bef) b ((1, dot :: w) :: cs)) = Some y ->
  rmatch false dot_round (MState bef (dot :: w ++ b) cs) k = Some y.
Proof.
  intros Hw Hb Hk. unfold dot_round. cbn [cat].
  rewrite rmatch_grp, rmatch_seq, rmatch_chr_hit by reflexivity.
  rewrite rmatch_star. cbn [after].
  apply space_loop; [exact Hw | exact Hb | rewrite length_app; lia|].
  cbn [before after caps].
  rewrite (consumed_app bef (dot :: w) b cs). exact Hk.
Qed.

Lemma dot_round_stops b bef cs k :
  head_over (cls_not (one ".")) b = true ->
  rmatch false dot_round (MState bef b cs) k = None.
Proof.
  intros Hb.
  now apply (starts_outside_rmatch false (cls_not (one "."))).
Qed.

(** Two dots, the white space [w] after them, and a text that starts
    with neither white space nor a dot. *)
Lemma dot_run_matches w b bef :
  forallb is_space w = true ->
  head_over (cls_not cls_s) b = true ->
  head_over (cls_not (one ".")) b = true ->
  match_at false dot_run bef (dot :: dot :: w ++ b) false
  = Some (ReMatch (dot :: dot :: w) [(1, dot :: w); (1, [dot])]
                  (rev w ++ dot :: dot :: bef) b).
Proof.
  intros Hw Hb Hd. unfold match_at.
  assert (E : rmatch false dot_run (MState bef (dot :: dot :: w ++ b) [])
                (fun s' =>
                   if false && (length (after s')
                                =? length (dot :: dot :: w ++ b))
                   then None else Some s')
              = Some (MState (rev w ++ dot :: dot :: bef) b
                             [(1, dot :: w); (1, [dot])])).
  { unfold dot_run. rewrite rmatch_rep2. fold dot_round.
    apply (dot_round_reads [] (dot :: w ++ b)); [reflexivity|reflexivity|].
    cbn [rev app].
    apply dot_round_reads; [exact Hw | exact Hb|].
    cbn [rep_loop after]. rewrite dot_round_stops by exact Hd.
    reflexivity. }
  rewrite E. cbn [caps before after].
  now rewrite (consumed_app bef (dot :: dot :: w) b).
Qed.

Lemma dot_run_single b bef adv :
  over no_punct b = true ->
  match_at false dot_run bef (dot :: b) adv = None.
Proof.
  intros Hb. unfold match_at, dot_run. rewrite rmatch_rep2. fold dot_round.
  unfold dot_round at 1. cbn [cat].
  rewrite rmatch_grp, rmatch_seq, rmatch_chr_hit by reflexivity.
  match goal with
  | |- match ?e with _ => _ end = None => destruct e as [x|] eqn:E
  end; [exfalso|reflexivity].
  apply rmatch_forward in E. destruct E as [s2 [R E]].
  rewrite (starts_outside_rmatch false no_punct dot_round) in E;
    [discriminate | reflexivity |].
  cbn [after]. eapply reach_suffix_head_over; [exact R | exact Hb].
Qed.

Lemma no_dot_mem h : cls_mem false no_dot h = negb (char_eqb h dot).
Proof.
  unfold no_dot, cls_not, cls_mem, one, in_ranges, in_range, char_eqb, dot.
  cbn [cls_neg cls_ranges negb andb existsb fst snd xorb orb].
  change (ch ".") with 46%N.
  destruct (N.eqb_spec h 46) as [->|Hne]; [reflexivity|].
  destruct (46 <=? h)%N eqn:E1; destruct (h <=? 46)%N eqn:E2; try reflexivity.
  apply N.leb_le in E1, E2. lia.
Qed.

Lemma no_punct_no_dot h :
  cls_mem false no_punct h = true -> cls_mem false no_dot h = true.
Proof.
  intros H. rewrite no_dot_mem.
  destruct (N.eqb_spec h dot) as [->|Hne].
  - vm_compute in H. discriminate.
  - unfold char_eqb. apply negb_true_iff. now apply N.eqb_neq.
Qed.

Lemma over_no_punct_no_dot s : over no_punct s = true -> over no_dot s = true.
Proof.
  unfold over. rewrite !forallb_forall. intros H x Hx.
  now apply no_punct_no_dot, H.
Qed.

Lemma head_over_no_punct_no_dot s :
  head_over no_punct s = true -> head_over no_dot s = true.
Proof. destruct s as [|h t]; [reflexivity|]. apply no_punct_no_dot. Qed.

Lemma over_copies A c n :
  cls_mem false A c = true -> over A (copies [c] n) = true.
Proof.
  intros H. induction n as [|n IH]; [reflexivity|].
  rewrite copies_S. simpl. now rewrite H, IH.
Qed.

Lemma dot_run_deletes_two a b :
  over no_punct a = true -> over no_punct b = true ->
  re_sub dot_run [] (a ++ dot :: dot :: b) = a ++ lstrip b.
Proof.
  intros Ha Hb.
  rewrite (re_sub_skip no_punct) by (reflexivity || exact Ha).
  f_equal. cbn [sub_scan].
  replace (dot :: dot :: b)
    with (dot :: dot :: leading_space b ++ lstrip b)
    by (now rewrite <- leading_space_lstrip).
  pose proof (lstrip_over no_punct b Hb) as Hl.
  rewrite dot_run_matches.
  - cbn [m_text m_rest_before m_rest_after expand flat_map app is_nil].
    now apply (starts_outside_sub_scan false no_punct).
  - apply leading_space_spaces.
  - apply lstrip_head.
  - now apply head_over_no_punct_no_dot, over_head_over.
Qed.

Lemma dot_run_keeps_single a b :
  over no_punct a = true -> over no_punct b = true ->
  re_sub dot_run [] (a ++ dot :: b) = a ++ dot :: b.
Proof.
  intros Ha Hb.
  rewrite (re_sub_skip no_punct) by (reflexivity || exact Ha).
  f_equal. cbn [sub_scan]. rewrite dot_run_single by exact Hb.
  f_equal. now apply (starts_outside_sub_scan false no_punct).
Qed.

Lemma spaced_punct_run_matches c x w j b bef :
  is_punct c = true ->
  forallb is_space (x :: w) = true ->
  head_differs c b = true ->
  match_at false spaced_punct_run bef (copies (c :: x :: w) (3 + j) ++ b) false
  = Some (ReMatch (copies (c :: x :: w) (3 + j))
                  [(1, c :: x :: w); (2, x :: w)]
                  (rev (copies (c :: x :: w) (3 + j)) ++ bef) b).
Proof.
  intros Hc Hw Hb. unfold match_at.
  cbn [forallb] in Hw. apply andb_true_iff in Hw. destruct Hw as [Hx Hw].
  assert (E : rmatch false spaced_punct_run
                (MState bef (copies (c :: x :: w) (3 + j) ++ b) [])
                (fun s' =>
                   if false && (length (after s')
                                =? length (copies (c :: x :: w) (3 + j) ++ b))
                   then None else Some s')
              = Some (MState (rev (copies (c :: x :: w) (3 + j)) ++ bef) b
                             [(1, c :: x :: w); (2, x :: w)])).
  { unfold spaced_punct_run. cbn [cat].
    change (3 + j) with (S (2 + j)). rewrite copies_S, <- app_assoc.
    cbn [app].
    rewrite rmatch_seq, rmatch_grp, rmatch_seq, rmatch_chr_hit by exact Hc.
    rewrite rmatch_grp, rmatch_plus,
      rmatch_chr_hit by (now apply is_space_mem).
    apply space_loop.
    - exact Hw.
    - change (2 + j) with (S (S j)). rewrite copies_S. cbn [app head_over].
      now rewrite not_space_mem, (proj2 (is_punct_not_space_is_space c Hc)).
    - cbn [after]. rewrite length_app. lia.
    - cbn [before after caps].
      repeat consumed_is (x :: w). consumed_is (c :: x :: w).
      apply rep2_bref; [reflexivity | exact Hb |].
      cbn [andb]. f_equal. f_equal.
      change (c :: x :: w ++ copies (c :: x :: w) (2 + j))
        with ((c :: x :: w) ++ copies (c :: x :: w) (2 + j)).
      rewrite rev_app_distr. cbn [rev].
      rewrite <- !app_assoc. reflexivity. }
  rewrite E. cbn [caps before after].
  now rewrite consumed_app.
Qed.

Lemma spaced_punct_run_deletes a c x w j b :
  over no_punct a = true -> over no_punct b = true -> is_punct c = true ->
  forallb is_space (x :: w) = true ->
  re_sub spaced_punct_run [] (a ++ copies (c :: x :: w) (3 + j) ++ b)
  = a ++ b.
Proof.
  intros Ha Hb Hc Hw.
  rewrite (re_sub_skip no_punct) by (reflexivity || exact Ha).
  cbn [sub_scan].
  rewrite spaced_punct_run_matches
    by (assumption || now apply punct_head_differs).
  cbn [m_text m_rest_before m_rest_after expand flat_map app].
  rewrite (starts_outside_sub_scan false no_punct) by (reflexivity || exact Hb).
  reflexivity.
Qed.

Lemma remove_repeating_punctuation_eq text :
  remove_repeating_punctuation text
  = re_sub dot_run []
      (re_sub punct_run [] (re_sub spaced_punct_run [] text)).
Proof. reflexivity. Qed.

(** * The claims of the specification *)

(** ** Segmentation (C2, C9, C10) *)

(** C2, as stated, fails: the turn that [get_utterances] stores is the
    span between two occurrences after [strip], so the occurrences and the
    stored turns of "A: hi B: yo" do not add up to the text. *)
Lemma get_utterances_turns_are_stripped :
  let text := u "A: hi B: yo" in
  let ms := occurrences_of text two_speakers_attrs in
  exists us,
    get_utterances text (Some two_speakers) = Ok us /\
    non_overlapping ms /\
    map utterance us = [u "hi"; u "yo"] /\
    raw_spans text ms = [u " hi "; u " yo"] /\
    slice 0 (first_start ms) text
      ++ concat (map (fun mu => occurrence_text text (fst mu)
                                  ++ utterance (snd mu))
                     (combine ms us))
    <> text.
Proof.
  eexists. split; [vm_compute; reflexivity|].
  split; [vm_compute; repeat split; lia|].
  split; [reflexivity|].
  split; [reflexivity|].
  vm_compute. discriminate.
Qed.

(** C2 (amended): for occurrences that do not overlap, and at least one
    of them, [get_utterances] returns one turn per occurrence, in order,
    with the speaker of the occurrence; the text of turn [i] is the span
    from the end of occurrence [i] to the start of the next one (to the
    end of the text for the last) after [strip]; and the prefix before
    the first occurrence followed by every occurrence's text and the
    span after it, not stripped, is the text. *)
Theorem get_utterances_partition text response pj ps attrs :
  parsed response = Some pj ->
  participants pj = Some ps ->
  collect_attributions ps = Ok attrs ->
  occurrences_of text attrs <> [] ->
  non_overlapping (occurrences_of text attrs) ->
  exists us,
    get_utterances text (Some response) = Ok us /\
    length us = length (occurrences_of text attrs) /\
    map speaker us = map o_speaker_name (occurrences_of text attrs) /\
    map utterance us
    = map strip (raw_spans text (occurrences_of text attrs)) /\
    slice 0 (first_start (occurrences_of text attrs)) text
      ++ reassemble text (occurrences_of text attrs)
    = text.
Proof.
  intros Hpj Hps Hattrs Hne Hno.
  exists (extract_utterances text (occurrences_of text attrs)).
  split; [now apply get_utterances_extract with pj ps|].
  split; [apply extract_utterances_length|].
  split; [apply extract_utterances_speakers|].
  split; [apply extract_utterances_texts|].
  apply partition_law; try assumption.
  apply sort_by_start_Forall, all_occurrences_ordered.
Qed.

Lemma get_utterances_partition_witness :
  let text := u "intro A: hi B: yo" in
  let ms := occurrences_of text two_speakers_attrs in
  exists us,
    get_utterances text (Some two_speakers) = Ok us /\
    length us = length ms /\
    map speaker us = map o_speaker_name ms /\
    map utterance us = map strip (raw_spans text ms) /\
    slice 0 (first_start ms) text ++ reassemble text ms = text.
Proof.
  apply (@get_utterances_partition (u "intro A: hi B: yo") two_speakers
           (ParsedJson (Some [ Participant (Some [u "Ann"]) (Some [u "A:"]);
                               Participant (Some [u "Bob"]) (Some [u "B:"]) ]))
           [ Participant (Some [u "Ann"]) (Some [u "A:"]);
             Participant (Some [u "Bob"]) (Some [u "B:"]) ]
           two_speakers_attrs).
  - reflexivity.
  - reflexivity.
  - reflexivity.
  - vm_compute. discriminate.
  - vm_compute. repeat split; lia.
Defined.

(** C9, as stated, fails: the search is for the attribution strings
    after the collapse of their leading tags.  "<TAG_2><TAG_2> John:" is
    nowhere in the text below, yet one turn comes back. *)
Lemma get_utterances_searches_collapsed_strings :
  let text := u "<TAG_2> John: hello" in
  let response :=
    ApiResponse
      (Some (ParsedJson
               (Some [ Participant (Some [u "John"])
                                   (Some [u "<TAG_2><TAG_2> John:"]) ])))
      None None in
  str_find (u "<TAG_2><TAG_2> John:") text 0 = None /\
  get_utterances text (Some response)
  = Ok [Utterance (u "John") (u "hello") None].
Proof. split; vm_compute; reflexivity. Qed.

(** C9 (amended): when every participant has a name and no attribution
    string, after the collapse of its leading tags, occurs in the text,
    [get_utterances] returns the empty list. *)
Theorem get_utterances_no_occurrence text response pj ps :
  parsed response = Some pj ->
  participants pj = Some ps ->
  Forall has_name ps ->
  Forall (fun a => str_find (remove_leading_duplicate_tags a) text 0 = None)
         (flat_map attribution_strings ps) ->
  get_utterances text (Some response) = Ok [].
Proof.
  intros Hpj Hps Hnames Hnone.
  destruct (collect_attributions_ok ps Hnames) as [attrs [Hattrs Hmap]].
  unfold get_utterances. rewrite Hpj, Hps, Hattrs. cbn [bind].
  destruct attrs as [|a attrs]; [reflexivity|].
  rewrite all_occurrences_none; [reflexivity|].
  rewrite <- Hmap in Hnone.
  rewrite Forall_map in Hnone |- *. exact Hnone.
Qed.

Lemma get_utterances_no_occurrence_witness :
  get_utterances (u "A: hi B: yo")
    (Some (ApiResponse
             (Some (ParsedJson
                      (Some [ Participant (Some [u "Carl"])
                                          (Some [u "C:"; u "Carl -"]) ])))
             None None))
  = Ok [].
Proof.
  apply (@get_utterances_no_occurrence (u "A: hi B: yo") _
           (ParsedJson
              (Some [ Participant (Some [u "Carl"])
                                  (Some [u "C:"; u "Carl -"]) ]))
           [ Participant (Some [u "Carl"]) (Some [u "C:"; u "Carl -"]) ]).
  - reflexivity.
  - reflexivity.
  - repeat constructor. unfold has_name. simpl. discriminate.
  - repeat constructor.
Defined.

(** C10: a participant whose list of name variants is empty makes
    [get_utterances] raise [IndexError] at line 974, before the guard of
    line 996 is reached, although the participant carries no attribution
    string. *)
Theorem get_utterances_empty_name_list (text : str) :
  get_utterances text
    (Some (ApiResponse
             (Some (ParsedJson (Some [ Participant (Some []) (Some []) ])))
             None None))
  = Raise IndexError.
Proof. reflexivity. Qed.

(** ** Operator candidates (C3) *)

(** C3: the matches are appended to one string and [list(set(...))] is
    taken of that string, so the result lists single characters.  For
    "<TAG_2>Operator" the scan finds the one candidate, and the candidate
    is not in the result. *)
Theorem get_operator_attributions_single_characters :
  let text := u "<TAG_2>Operator" in
  map m_text (re_finditer operator_pattern text) = [u "<TAG_2>Operator"] /\
  ~ In (u "<TAG_2>Operator") (get_operator_attributions text) /\
  Forall (fun s => length s = 1) (get_operator_attributions text).
Proof.
  split; [vm_compute; reflexivity|].
  assert (H : forall text,
             Forall (fun s => length s = 1)
                    (get_operator_attributions text)).
  { intros text. unfold get_operator_attributions, list_set_of_str.
    apply Forall_map, Forall_forall. reflexivity. }
  split; [|apply H].
  intros Hin.
  pose proof (proj1 (Forall_forall _ _) (H (u "<TAG_2>Operator")) _ Hin)
    as Hlen.
  discriminate Hlen.
Qed.

(** ** The extractor (C4) *)

(** C4: line 334 is outside the [if] of line 332.  On a page with the
    lines "7" and "Hello", the line "7" is not among [cleaned_lines], and
    it is in the output. *)
Theorem text_processing_pipeline_keeps_short_lines :
  let page := u "7" ++ newline ++ u "Hello" in
  fst (page_lines (split_char 10%N (clean_special_characters page)))
  = [u "Hello"] /\
  text_processing_pipeline [page]
  = u "7<TAG_2>" ++ newline ++ u "Hello<TAG_2>" ++ newline
    ++ u "<PAGE_BREAK>" ++ newline.
Proof. split; vm_compute; reflexivity. Qed.

(** ** Spaced headers (C6) *)

(** C6: the pattern asks for upper-case letters, so the digits of
    "Q 2 2 0 2 3" are not part of a run, and only "E A R N I N G S" is
    condensed. *)
Theorem format_spaced_headers_example :
  format_spaced_headers (u "Q 2 2 0 2 3  E A R N I N G S")
  = u "Q 2 2 0 2 3  EARNINGS".
Proof. vm_compute. reflexivity. Qed.

(** ** Name casing (C8) *)

(** C8: the group of the middle initial ends with [\s+] and the group of
    the last word begins with [\s+], so a middle initial followed by one
    space is not matched; and a match takes two words, so the third of
    three stays in upper case. *)
Theorem normalize_adjacent_uppercase_words_misses :
  normalize_adjacent_uppercase_words (u "JOHN A. SMITH") = u "JOHN A. SMITH" /\
  normalize_adjacent_uppercase_words (u "JOHN PAUL SMITH")
  = u "John Paul SMITH".
Proof. split; vm_compute; reflexivity. Qed.

(** ** The cleaner (C5) *)




(** ** Repeating punctuation (C7) *)

(** C7, as stated, fails: the third pattern deletes a run of two dots,
    and only the dots: "a!!b" stays. *)
Lemma remove_repeating_punctuation_two_dots :
  remove_repeating_punctuation (u "a..b") = u "ab" /\
  remove_repeating_punctuation (u "a!!b") = u "a!!b".
Proof. split; vm_compute; reflexivity. Qed.

(** C7 (amended): let [a] and [b] be free of '.', '!' and '?', let [c] be
    one of the three and [w] white space (possibly none).  Then [a] alone
    is unchanged; three or more copies of [c] followed by [w], standing
    between [a] and [b], are deleted; two dots between [a] and [b] are
    deleted as well, with the white space after them; one dot is kept;
    and one or two '!' or '?' are kept. *)
Theorem remove_repeating_punctuation_runs a b c w n :
  over no_punct a = true ->
  over no_punct b = true ->
  is_punct c = true ->
  forallb is_space w = true ->
  remove_repeating_punctuation a = a /\
  (3 <= n ->
   remove_repeating_punctuation (a ++ copies (c :: w) n ++ b) = a ++ b) /\
  remove_repeating_punctuation (a ++ [dot; dot] ++ b) = a ++ lstrip b /\
  remove_repeating_punctuation (a ++ [dot] ++ b) = a ++ [dot] ++ b /\
  (c <> dot -> n <= 2 ->
   remove_repeating_punctuation (a ++ repeat c n ++ b)
   = a ++ repeat c n ++ b).
Proof.
  intros Ha Hb Hc Hw. rewrite !remove_repeating_punctuation_eq.
  assert (Hab : over no_punct (a ++ b) = true)
    by (now rewrite over_app, Ha, Hb).
  split; [|split; [|split; [|split]]].
  - rewrite (blocks_re_sub no_punct spaced_punct_run [] a),
      (blocks_re_sub no_punct punct_run [] a),
      (blocks_re_sub no_punct dot_run [] a);
      reflexivity || exact Ha.
  - intros Hn. replace n with (3 + (n - 3)) by lia.
    destruct w as [|x w].
    + rewrite spaced_punct_run_keeps by assumption.
      rewrite punct_run_deletes by assumption.
      now apply (blocks_re_sub no_punct).
    + rewrite spaced_punct_run_deletes by assumption.
      rewrite (blocks_re_sub no_punct punct_run [] (a ++ b))
        by (reflexivity || exact Hab).
      now apply (blocks_re_sub no_punct).
  - change [dot; dot] with (copies [dot] 2).
    rewrite spaced_punct_run_keeps by (assumption || reflexivity).
    rewrite punct_run_keeps_short by (assumption || reflexivity || lia).
    now apply dot_run_deletes_two.
  - change [dot] with (copies [dot] 1).
    rewrite spaced_punct_run_keeps by (assumption || reflexivity).
    rewrite punct_run_keeps_short by (assumption || reflexivity || lia).
    now apply dot_run_keeps_single.
  - intros Hne Hn. rewrite <- copies_single.
    rewrite spaced_punct_run_keeps by assumption.
    rewrite punct_run_keeps_short by assumption.
    apply (blocks_re_sub no_dot); [reflexivity|].
    rewrite !over_app, (over_no_punct_no_dot a Ha),
      (over_no_punct_no_dot b Hb), andb_true_r. cbn [andb].
    apply over_copies.
    destruct (is_punct_cases c Hc) as [->|[->| ->]];
      [now elim Hne | reflexivity | reflexivity].
Qed.

Lemma remove_repeating_punctuation_runs_witness :
  remove_repeating_punctuation (u "wait") = u "wait" /\
  remove_repeating_punctuation (u "wait. . . what") = u "waitwhat".
Proof.
  pose proof (remove_repeating_punctuation_runs
                (u "wait") (u "what") dot (u " ") 3
                eq_refl eq_refl eq_refl eq_refl) as H.
  split; [exact (proj1 H) | exact (proj1 (proj2 H) (le_n 3))].
Defined.

(** * Further properties of the code *)

(** ** The segmenter: occurrences and turns *)

Lemma starts_with_firstn sub t :
  starts_with sub t = true ->
  firstn (length sub) t = sub /\ length sub <= length t.
Proof.
  revert t. induction sub as [|x sub IH]; intros t H.
  - split; [reflexivity | apply Nat.le_0_l].
  - destruct t as [|y t]; [discriminate|]. simpl in H.
    apply andb_true_iff in H. destruct H as [Hxy H].
    apply N.eqb_eq in Hxy. subst y.
    destruct (IH t H) as [E L]. simpl. split; [now rewrite E | lia].
Qed.

Lemma firstn_starts_with sub t :
  firstn (length sub) t = sub -> starts_with sub t = true.
Proof.
  revert t. induction sub as [|x sub IH]; intros t H; [reflexivity|].
  destruct t as [|y t]; [discriminate|]. simpl in H.
  injection H as -> H. simpl. unfold char_eqb. rewrite N.eqb_refl.
  now apply IH.
Qed.

Lemma find_from_spec sub : forall t pos q,
  find_from sub t pos = Some q ->
  exists k,
    q = pos + k /\ k <= length t /\ starts_with sub (skipn k t) = true /\
    forall j, j < k -> starts_with sub (skipn j t) = false.
Proof.
  induction t as [|c t IH]; intros pos q H; simpl in H.
  - destruct (starts_with sub []) eqn:E; [|discriminate].
    injection H as <-. exists 0. repeat split; try lia; exact E.
  - destruct (starts_with sub (c :: t)) eqn:E.
    + injection H as <-. exists 0. repeat split; try lia; exact E.
    + apply IH in H. destruct H as [k [Hq [Hk [Hs Hmin]]]].
      exists (S k). repeat split; [lia | simpl; lia | exact Hs |].
      intros [|j] Hj; [exact E|]. apply Hmin. lia.
Qed.

Lemma find_from_none sub : forall t pos,
  find_from sub t pos = None ->
  forall j, j <= length t -> starts_with sub (skipn j t) = false.
Proof.
  induction t as [|c t IH]; intros pos H j Hj; simpl in H.
  - destruct (starts_with sub []) eqn:E; [discriminate|].
    simpl in Hj. now replace j with 0 by lia.
  - destruct (starts_with sub (c :: t)) eqn:E; [discriminate|].
    destruct j as [|j]; [exact E|]. simpl. apply (IH _ H). simpl in Hj. lia.
Qed.

(** What [str.find] returns: the least index from [start] on at which
    the string occurs. *)
Lemma str_find_some sub text start pos :
  str_find sub text start = Some pos ->
  start <= pos /\ occurs_at sub text pos = true /\
  forall p, start <= p -> p < pos -> occurs_at sub text p = false.
Proof.
  unfold str_find, occurs_at. intros H.
  destruct (length text <? start) eqn:E; [discriminate|].
  apply Nat.ltb_ge in E.
  apply find_from_spec in H. destruct H as [k [-> [Hk [Hs Hmin]]]].
  rewrite length_skipn in Hk.
  rewrite skipn_skipn in Hs.
  split; [lia|]. split.
  - rewrite (Nat.add_comm start k), Hs, andb_true_r.
    apply Nat.leb_le. lia.
  - intros p Hp Hlt.
    replace p with ((p - start) + start) by lia.
    rewrite <- skipn_skipn, Hmin by lia. apply andb_false_r.
Qed.

Lemma str_find_none sub text start :
  str_find sub text start = None ->
  forall p, start <= p -> occurs_at sub text p = false.
Proof.
  unfold str_find, occurs_at. intros H p Hp.
  destruct (p <=? length text) eqn:Ep; [|reflexivity].
  apply Nat.leb_le in Ep. cbn [andb].
  destruct (length text <? start) eqn:E.
  - apply Nat.ltb_lt in E. lia.
  - replace p with ((p - start) + start) by lia.
    rewrite <- skipn_skipn. apply (find_from_none _ _ _ H).
    rewrite length_skipn. lia.
Qed.

(** Where a string occurs, the slice of its length is the string. *)
Lemma occurs_at_slice sub text p :
  occurs_at sub text p = true <->
  p + length sub <= length text /\ slice p (p + length sub) text = sub.
Proof.
  unfold occurs_at, slice. replace (p + length sub - p) with (length sub) by lia.
  split.
  - intros H. apply andb_true_iff in H. destruct H as [Hp Hs].
    apply Nat.leb_le in Hp.
    apply starts_with_firstn in Hs. destruct Hs as [E L].
    rewrite length_skipn in L. split; [lia | exact E].
  - intros [L E]. apply andb_true_iff. split.
    + apply Nat.leb_le. lia.
    + now apply firstn_starts_with.
Qed.

(** *** The search loop finds the occurrences, and only them *)

Lemma find_occurrences_sound text a : forall fuel start o,
  In o (find_occurrences fuel text a start) ->
  o_speaker_name o = a_speaker_name a /\
  start <= o_start o /\
  o_end o = o_start o + length (a_attribution a) /\
  occurs_at (a_attribution a) text (o_start o) = true.
Proof.
  induction fuel as [|f IH]; intros start o H; simpl in H; [contradiction|].
  destruct (str_find (a_attribution a) text start) as [pos|] eqn:E;
    [|contradiction].
  apply str_find_some in E. destruct E as [Hle [Hocc _]].
  destruct H as [<-|H].
  - repeat split; assumption.
  - apply IH in H. destruct H as [H1 [H2 [H3 H4]]].
    repeat split; try assumption. lia.
Qed.

Lemma find_occurrences_complete text a : forall fuel start p,
  length text + 2 <= fuel + start ->
  start <= p ->
  occurs_at (a_attribution a) text p = true ->
  In (Occurrence (a_speaker_name a) p (p + length (a_attribution a)))
     (find_occurrences fuel text a start).
Proof.
  induction fuel as [|f IH]; intros start p Hf Hp Hocc.
  - exfalso. unfold occurs_at in Hocc. apply andb_true_iff in Hocc.
    destruct Hocc as [Hl _]. apply Nat.leb_le in Hl. simpl in Hf. lia.
  - simpl. destruct (str_find (a_attribution a) text start) as [pos|] eqn:E.
    + apply str_find_some in E. destruct E as [Hle [Hpos Hmin]].
      destruct (Nat.eq_dec p pos) as [->|Hne]; [now left|].
      right. apply IH; [lia | | exact Hocc].
      destruct (Nat.lt_ge_cases p pos) as [Hlt|Hge]; [|lia].
      rewrite (Hmin p Hp Hlt) in Hocc. discriminate.
    + rewrite (str_find_none _ _ _ E p Hp) in Hocc. discriminate.
Qed.

Lemma insert_by_start_ascending x l :
  ascending l -> ascending (insert_by_start x l).
Proof.
  induction l as [|y l IH]; intros Hl; [simpl; auto|].
  cbn [insert_by_start].
  destruct (o_start x <=? o_start y) eqn:E.
  - apply Nat.leb_le in E. split; [exact E | exact Hl].
  - apply Nat.leb_gt in E. destruct Hl as [Hy Hl].
    specialize (IH Hl). split; [|exact IH].
    destruct l as [|z l]; cbn [insert_by_start]; [lia|].
    destruct (o_start x <=? o_start z); [lia | exact Hy].
Qed.

Lemma sort_by_start_ascending l : ascending (sort_by_start l).
Proof.
  induction l as [|x l IH]; [exact I|].
  now apply insert_by_start_ascending.
Qed.

Lemma insert_by_start_stable k x l :
  starting_at k (insert_by_start x l) = starting_at k (x :: l).
Proof.
  unfold starting_at.
  induction l as [|y l IH]; [reflexivity|].
  cbn [insert_by_start].
  destruct (o_start x <=? o_start y) eqn:E; [reflexivity|].
  apply Nat.leb_gt in E. cbn [filter] in *. rewrite IH.
  destruct (o_start x =? k) eqn:Ex; destruct (o_start y =? k) eqn:Ey;
    try reflexivity.
  apply Nat.eqb_eq in Ex, Ey. lia.
Qed.

Lemma sort_by_start_stable k l :
  starting_at k (sort_by_start l) = starting_at k l.
Proof.
  induction l as [|x l IH]; [reflexivity|].
  cbn [sort_by_start fold_right]. fold (sort_by_start l).
  rewrite insert_by_start_stable. unfold starting_at in *.
  cbn [filter]. now rewrite IH.
Qed.

Lemma sort_by_start_In o l : In o (sort_by_start l) <-> In o l.
Proof.
  assert (Hi : forall x l', In o (insert_by_start x l') <-> o = x \/ In o l').
  { intros x l'. induction l' as [|y l' IH]; simpl.
    - intuition.
    - destruct (o_start x <=? o_start y); simpl; [intuition|].
      rewrite IH. intuition. }
  induction l as [|x l IH]; [reflexivity|].
  cbn [sort_by_start fold_right]. fold (sort_by_start l).
  rewrite Hi, IH. simpl. intuition.
Qed.

(** *** Errors of [get_utterances] *)


(** *** [strip] *)

Lemma lstrip_app_last l c :
  is_space c = false -> lstrip (l ++ [c]) = lstrip l ++ [c].
Proof.
  intros Hc. induction l as [|x l IH]; simpl.
  - now rewrite Hc.
  - destruct (is_space x); [exact IH | reflexivity].
Qed.

Lemma lstrip_idempotent s : lstrip (lstrip s) = lstrip s.
Proof.
  induction s as [|c t IH]; [reflexivity|]. simpl.
  destruct (is_space c) eqn:E; [exact IH|]. simpl. now rewrite E.
Qed.

Lemma rstrip_cons c t :
  is_space c = false -> rstrip (c :: t) = c :: rstrip t.
Proof.
  intros Hc. unfold rstrip. cbn [rev].
  rewrite lstrip_app_last by exact Hc.
  now rewrite rev_app_distr.
Qed.

Lemma rstrip_idempotent s : rstrip (rstrip s) = rstrip s.
Proof. unfold rstrip. now rewrite rev_involutive, lstrip_idempotent. Qed.

Lemma lstrip_rstrip_lstrip s : lstrip (rstrip (lstrip s)) = rstrip (lstrip s).
Proof.
  destruct (lstrip s) as [|c t] eqn:E; [reflexivity|].
  assert (Hc : is_space c = false).
  { clear -E. induction s as [|x s IH]; [discriminate|]. simpl in E.
    destruct (is_space x) eqn:Ex; [now apply IH|].
    injection E as -> _. exact Ex. }
  rewrite rstrip_cons by exact Hc. simpl. now rewrite Hc.
Qed.

Lemma strip_idempotent s : strip (strip s) = strip s.
Proof.
  unfold strip. now rewrite lstrip_rstrip_lstrip, rstrip_idempotent.
Qed.

Lemma extract_utterances_stripped text ms :
  Forall (fun ut => uuid ut = None /\ strip (utterance ut) = utterance ut)
         (extract_utterances text ms).
Proof.
  induction ms as [|m rest IH]; [constructor|].
  destruct rest as [|n rest].
  - repeat constructor. apply strip_idempotent.
  - change (extract_utterances text (m :: n :: rest))
      with (Utterance (o_speaker_name m)
                      (strip (slice (o_end m) (o_start n) text)) None
            :: extract_utterances text (n :: rest)).
    constructor; [|exact IH]. split; [reflexivity | apply strip_idempotent].
Qed.

(** X1: The search loop of [get_utterances] records an occurrence for
    every index at which an attribution string occurs in the text,
    overlapping ones included, and records nothing else. *)
Theorem all_occurrences_exact text attrs o :
  In o (all_occurrences text attrs) <->
  exists a,
    In a attrs /\
    o = Occurrence (a_speaker_name a) (o_start o)
                   (o_start o + length (a_attribution a)) /\
    occurs_at (a_attribution a) text (o_start o) = true.
Proof.
  unfold all_occurrences. rewrite in_flat_map. split.
  - intros [a [Ha Ho]]. exists a. split; [exact Ha|].
    apply find_occurrences_sound in Ho. destruct Ho as [H1 [_ [H3 H4]]].
    split; [|exact H4]. destruct o as [s b e]. simpl in *. now subst.
  - intros [a [Ha [Eo Hocc]]]. exists a. split; [exact Ha|].
    rewrite Eo. apply find_occurrences_complete; [lia | lia | exact Hocc].
Qed.

(** X2: Every occurrence that [get_utterances] partitions the text by
    lies inside the text, and the slice of the text at the occurrence is
    the attribution string, after the collapse of its leading tags, of a
    participant with the speaker name of the occurrence. *)
Theorem occurrences_of_positions text attrs o :
  In o (occurrences_of text attrs) ->
  o_start o <= o_end o /\ o_end o <= length text /\
  exists a,
    In a attrs /\
    o_speaker_name o = a_speaker_name a /\
    slice (o_start o) (o_end o) text
    = remove_leading_duplicate_tags (a_attribution a).
Proof.
  unfold occurrences_of, all_occurrences.
  rewrite sort_by_start_In, in_flat_map.
  intros [a' [Ha' Ho]].
  apply find_occurrences_sound in Ho. destruct Ho as [H1 [_ [H3 Hocc]]].
  assert (Eo : o = Occurrence (a_speaker_name a') (o_start o)
                              (o_start o + length (a_attribution a'))).
  { destruct o as [s b e]. simpl in *. now subst. }
  clear H1 H3.
  apply in_map_iff in Ha'. destruct Ha' as [a [<- Ha]].
  cbn [a_speaker_name a_attribution] in *.
  apply occurs_at_slice in Hocc. destruct Hocc as [L E].
  rewrite Eo. cbn [o_start o_end o_speaker_name].
  split; [lia|]. split; [exact L|].
  exists a. repeat split; assumption.
Qed.

Lemma lstrip_skipn s : exists k, lstrip s = skipn k s.
Proof.
  induction s as [|c t [k IH]]; [now exists 0|]. simpl.
  destruct (is_space c); [now exists (S k) | now exists 0].
Qed.

Lemma rstrip_firstn s : exists k, rstrip s = firstn k s.
Proof.
  unfold rstrip. destruct (lstrip_skipn (rev s)) as [k ->].
  exists (length s - k).
  now rewrite skipn_rev, rev_involutive.
Qed.

Lemma part_of_skipn k s text : part_of s text -> part_of (skipn k s) text.
Proof.
  intros [a [b ->]]. exists (k + a), (k + a + (b - a - k)). unfold slice.
  rewrite skipn_firstn_comm, skipn_skipn. f_equal. lia.
Qed.

Lemma part_of_firstn k s text : part_of s text -> part_of (firstn k s) text.
Proof.
  intros [a [b ->]]. exists a, (a + Nat.min k (b - a)). unfold slice.
  rewrite firstn_firstn. f_equal. lia.
Qed.

Lemma part_of_strip s text : part_of s text -> part_of (strip s) text.
Proof.
  intros H. unfold strip.
  destruct (rstrip_firstn (lstrip s)) as [k ->].
  destruct (lstrip_skipn s) as [j ->].
  now apply part_of_firstn, part_of_skipn.
Qed.

Lemma part_of_slice_from a text : part_of (slice_from a text) text.
Proof.
  exists a, (length text). unfold slice, slice_from.
  rewrite firstn_all2; [reflexivity|]. rewrite length_skipn. lia.
Qed.

Lemma extract_utterances_parts text ms :
  Forall (fun ut => part_of (utterance ut) text) (extract_utterances text ms).
Proof.
  induction ms as [|m rest IH]; [constructor|].
  destruct rest as [|n rest].
  - repeat constructor. cbn [utterance].
    apply part_of_strip, part_of_slice_from.
  - change (extract_utterances text (m :: n :: rest))
      with (Utterance (o_speaker_name m)
                      (strip (slice (o_end m) (o_start n) text)) None
            :: extract_utterances text (n :: rest)).
    constructor; [|exact IH]. cbn [utterance].
    apply part_of_strip. now exists (o_end m), (o_start n).
Qed.

(** What [get_utterances] returns once the participants are read. *)
Lemma get_utterances_collected text response ps attrs :
  participants_of response = Some ps ->
  collect_attributions ps = Ok attrs ->
  get_utterances text response
  = Ok (extract_utterances text (occurrences_of text attrs)).
Proof.
  intros Hps Hattrs. unfold participants_of in Hps.
  destruct response as [r|]; [|discriminate].
  destruct (parsed r) as [pj|] eqn:Hpj; [|discriminate].
  unfold get_utterances. rewrite Hpj, Hps, Hattrs. cbn [bind].
  destruct attrs as [|a attrs]; [reflexivity|].
  fold (occurrences_of text (a :: attrs)).
  now destruct (occurrences_of text (a :: attrs)).
Qed.

Lemma get_utterances_no_participants text response :
  participants_of response = None ->
  get_utterances text response = Ok [].
Proof.
  unfold participants_of, get_utterances.
  destruct response as [r|]; [|reflexivity].
  destruct (parsed r) as [pj|]; [|reflexivity].
  now intros ->.
Qed.

(** A list that [get_utterances] returns is made by the loop of lines
    1028-1048 from some list of occurrences. *)
Lemma get_utterances_extracted text response uts :
  get_utterances text response = Ok uts ->
  exists ms, uts = extract_utterances text ms.
Proof.
  intros H.
  destruct (participants_of response) as [ps|] eqn:Hps.
  - destruct (collect_attributions ps) as [attrs|e] eqn:Hc.
    + rewrite (get_utterances_collected text response ps attrs Hps Hc) in H.
      injection H as <-. now eexists.
    + unfold participants_of in Hps.
      destruct response as [r|]; [|discriminate].
      destruct (parsed r) as [pj|] eqn:Hpj; [|discriminate].
      unfold get_utterances in H. rewrite Hpj, Hps, Hc in H. discriminate.
  - rewrite (get_utterances_no_participants text response Hps) in H.
    injection H as <-. now exists [].
Qed.

Lemma get_utterances_no_uuid text response uts :
  get_utterances text response = Ok uts ->
  Forall (fun ut => uuid ut = None) uts.
Proof.
  intros H. destruct (get_utterances_extracted text response uts H) as [ms ->].
  pose proof (extract_utterances_stripped text ms) as S.
  rewrite Forall_forall in *. intros ut Hin. now apply S.
Qed.

(** X3: The occurrences that [get_utterances] walks through are in
    ascending order of their start, and those with the same start keep
    the order in which the search loop found them: the order of the
    attribution strings in the response. *)
Theorem occurrences_of_order text attrs :
  ascending (occurrences_of text attrs) /\
  forall k,
    starting_at k (occurrences_of text attrs)
    = starting_at k (all_occurrences text (collapse_tags attrs)).
Proof.
  split.
  - apply sort_by_start_ascending.
  - intros k. apply sort_by_start_stable.
Qed.


(** X5: Every turn that [get_utterances] returns is a contiguous part
    of the text, has no white space at either end, and carries no
    [uuid]. *)
Theorem get_utterances_turns_trimmed text response uts :
  get_utterances text response = Ok uts ->
  Forall (fun ut =>
            part_of (utterance ut) text /\
            strip (utterance ut) = utterance ut /\
            uuid ut = None) uts.
Proof.
  intros H.
  destruct (get_utterances_extracted text response uts H) as [ms ->].
  pose proof (extract_utterances_parts text ms) as P.
  pose proof (extract_utterances_stripped text ms) as S.
  rewrite Forall_forall in *. intros ut Hin.
  destruct (S ut Hin) as [S1 S2]. repeat split; auto.
Qed.

Lemma extract_utterances_nth text : forall ms i m n,
  nth_error ms i = Some m ->
  nth_error ms (S i) = Some n ->
  nth_error (extract_utterances text ms) i
  = Some (Utterance (o_speaker_name m)
                    (strip (slice (o_end m) (o_start n) text)) None).
Proof.
  induction ms as [|x ms IH]; intros i m n Hm Hn; [destruct i; discriminate|].
  destruct ms as [|y ms]; [destruct i; discriminate|].
  change (extract_utterances text (x :: y :: ms))
    with (Utterance (o_speaker_name x)
                    (strip (slice (o_end x) (o_start y) text)) None
          :: extract_utterances text (y :: ms)).
  destruct i as [|i].
  - cbn [nth_error] in *. injection Hm as <-. injection Hn as <-. reflexivity.
  - cbn [nth_error] in Hm, Hn |- *. now apply IH.
Qed.

Lemma slice_backwards a b text : b <= a -> slice a b text = [].
Proof. intros H. unfold slice. now replace (b - a) with 0 by lia. Qed.

(** X6: When an occurrence starts before the one before it has ended, as
    for an attribution string that is the end of another one, the turn of
    the earlier occurrence is empty, and [clean_utterances] will drop
    it. *)
Theorem get_utterances_overlap text response ps attrs i m n :
  participants_of response = Some ps ->
  collect_attributions ps = Ok attrs ->
  nth_error (occurrences_of text attrs) i = Some m ->
  nth_error (occurrences_of text attrs) (S i) = Some n ->
  o_start n <= o_end m ->
  exists uts,
    get_utterances text response = Ok uts /\
    nth_error uts i = Some (Utterance (o_speaker_name m) [] None) /\
    ~ In (Utterance (o_speaker_name m) [] None) (non_empty_turns uts).
Proof.
  intros Hps Hattrs Hm Hn Hov.
  exists (extract_utterances text (occurrences_of text attrs)).
  split; [now apply get_utterances_collected with ps|].
  split.
  - rewrite (extract_utterances_nth text _ i m n Hm Hn).
    now rewrite (slice_backwards _ _ text Hov).
  - unfold non_empty_turns. intros Hin. apply filter_In in Hin.
    destruct Hin as [_ Hin]. discriminate Hin.
Qed.

Lemma get_utterances_overlap_witness :
  let text := u "<TAG_2> John: hi" in
  let ps := [ Participant (Some [u "John"])
                          (Some [u "<TAG_2> John:"; u "John:"]) ] in
  exists uts,
    get_utterances text (Some (ApiResponse (Some (ParsedJson (Some ps)))
                                           None None))
    = Ok uts /\
    nth_error uts 0 = Some (Utterance (u "John") [] None) /\
    ~ In (Utterance (u "John") [] None) (non_empty_turns uts).
Proof.
  apply (get_utterances_overlap (u "<TAG_2> John: hi")
           (Some (ApiResponse
                    (Some (ParsedJson
                             (Some [ Participant (Some [u "John"])
                                       (Some [u "<TAG_2> John:";
                                              u "John:"]) ])))
                    None None))
           [ Participant (Some [u "John"])
                         (Some [u "<TAG_2> John:"; u "John:"]) ]
           [ AttributionInfo (u "John") (u "<TAG_2> John:");
             AttributionInfo (u "John") (u "John:") ]
           0 (Occurrence (u "John") 0 13) (Occurrence (u "John") 8 13)).
  - reflexivity.
  - reflexivity.
  - vm_compute. reflexivity.
  - vm_compute. reflexivity.
  - simpl. lia.
Defined.

Lemma occurrences_of_positions_witness :
  let text := u "intro A: hi B: yo" in
  let o := Occurrence (u "Bob") 12 14 in
  In o (occurrences_of text two_speakers_attrs) /\
  o_start o <= o_end o /\ o_end o <= length text /\
  exists a,
    In a two_speakers_attrs /\
    o_speaker_name o = a_speaker_name a /\
    slice (o_start o) (o_end o) text
    = remove_leading_duplicate_tags (a_attribution a).
Proof.
  split.
  - vm_compute. right. left. reflexivity.
  - apply (occurrences_of_positions (u "intro A: hi B: yo")
             two_speakers_attrs (Occurrence (u "Bob") 12 14)).
    vm_compute. right. left. reflexivity.
Defined.

Lemma get_utterances_turns_trimmed_witness :
  let text := u "intro A: hi B: yo" in
  let uts := [ Utterance (u "Ann") (u "hi") None;
               Utterance (u "Bob") (u "yo") None ] in
  get_utterances text (Some two_speakers) = Ok uts /\
  Forall (fun ut =>
            part_of (utterance ut) text /\
            strip (utterance ut) = utterance ut /\
            uuid ut = None) uts.
Proof.
  split.
  - vm_compute. reflexivity.
  - apply (get_utterances_turns_trimmed (u "intro A: hi B: yo")
             (Some two_speakers)).
    vm_compute. reflexivity.
Defined.


(** ** The cleaner: errors, identifiers and white space *)

Lemma strip_pattern_loop_raises re_compile p ut rest :
  re_compile p = None ->
  strip_pattern_loop re_compile p (ut :: rest) = Raise ReError.
Proof. intros H. simpl. now rewrite H. Qed.

Lemma strip_pattern_cases re_compile pattern utterances :
  (compiles re_compile pattern \/ utterances = []) /\
  strip_pattern re_compile pattern utterances
  = Ok (copies_for re_compile pattern utterances)
  \/
  (~ compiles re_compile pattern /\ utterances <> []) /\
  strip_pattern re_compile pattern utterances = Raise ReError.
Proof.
  destruct utterances as [|ut rest].
  - left. split; [now right|].
    unfold strip_pattern, copies_for, active_pattern.
    destruct pattern as [[|c p]|]; try reflexivity. simpl.
    now destruct (re_compile (strip_markers (c :: p))).
  - unfold compiles, active_pattern.
    destruct pattern as [[|c p]|].
    + left. split; [now left | reflexivity].
    + destruct (re_compile (strip_markers (c :: p))) as [r|] eqn:E.
      * left. split; [left; discriminate|].
        apply strip_pattern_ok. unfold compiles, active_pattern.
        rewrite E. discriminate.
      * right. split; [split; [congruence | discriminate]|].
        unfold strip_pattern.
        now apply strip_pattern_loop_raises.
    + left. split; [now left | reflexivity].
Qed.

Lemma clean_loop_numbered fresh_uuid utterances :
  Forall (fun ut => uuid ut = None) utterances ->
  forall n, clean_loop fresh_uuid n utterances = numbered fresh_uuid n utterances.
Proof.
  unfold numbered.
  induction 1 as [|ut rest Hut Hrest IH]; intros n; [reflexivity|].
  cbn [clean_loop length seq combine map fst snd].
  rewrite Hut. now rewrite IH.
Qed.

Lemma copies_for_uuid re_compile pattern utterances :
  Forall (fun ut => uuid ut = None) utterances ->
  Forall (fun c => uuid c = None) (copies_for re_compile pattern utterances).
Proof.
  intros H. unfold copies_for.
  destruct (active_pattern pattern) as [p|]; [|constructor].
  destruct (re_compile p) as [r|]; [|constructor].
  rewrite Forall_map. exact H.
Qed.

Lemma non_empty_turns_Forall (P : utterance_rec -> Prop) utterances :
  Forall P utterances -> Forall P (non_empty_turns utterances).
Proof.
  intros H. rewrite Forall_forall in *. intros x Hx.
  apply filter_In in Hx. now apply H.
Qed.

(** *** Words and single spaces *)

Lemma split_ws_aux_words : forall t cur,
  forallb (fun c => negb (is_space c)) cur = true ->
  Forall (fun w => is_word_str w = true) (split_ws_aux cur t).
Proof.
  assert (W : forall cur, cur <> [] ->
            forallb (fun c => negb (is_space c)) cur = true ->
            is_word_str (rev cur) = true).
  { intros cur Hne Hc. unfold is_word_str.
    rewrite forallb_forall in Hc.
    apply andb_true_iff. split.
    - destruct cur as [|c cur]; [congruence|]. simpl.
      now destruct (rev cur).
    - apply forallb_forall. intros x Hx. apply Hc. now apply in_rev. }
  induction t as [|x t IH]; intros cur Hc; cbn [split_ws_aux].
  - destruct cur as [|c cur]; constructor; [|constructor].
    apply W; [discriminate | exact Hc].
  - destruct (is_space x) eqn:Ex.
    + destruct cur as [|c cur]; [now apply IH|].
      constructor; [apply W; [discriminate | exact Hc] | now apply IH].
    + apply IH. simpl. now rewrite Ex.
Qed.

Lemma tidy_aux_word w rest b :
  is_word_str w = true ->
  tidy_aux b (w ++ rest) = tidy_aux false rest.
Proof.
  unfold is_word_str. intros H. apply andb_true_iff in H.
  destruct H as [Hne Hw].
  destruct w as [|c w]; [discriminate|]. clear Hne.
  revert c b Hw. induction w as [|d w IH]; intros c b Hw.
  - simpl in *. destruct (is_space c); [discriminate | reflexivity].
  - cbn [app tidy_aux]. cbn [forallb] in Hw.
    apply andb_true_iff in Hw. destruct Hw as [Hc Hw].
    destruct (is_space c); [discriminate|].
    exact (IH d false Hw).
Qed.

Lemma tidy_join ws :
  Forall (fun w => is_word_str w = true) ws ->
  tidy (join (u " ") ws) = true.
Proof.
  intros H.
  assert (A : forall b, ws <> [] -> tidy_aux b (join (u " ") ws) = true).
  { induction H as [|w rest Hw Hrest IH]; intros b Hne; [congruence|].
    destruct rest as [|w' rest].
    - cbn [join]. rewrite <- (app_nil_r w).
      now rewrite (tidy_aux_word w [] b Hw).
    - change (join (u " ") (w :: w' :: rest))
        with (w ++ u " " ++ join (u " ") (w' :: rest)).
      rewrite (tidy_aux_word w (u " " ++ join (u " ") (w' :: rest)) b Hw).
      change (u " " ++ join (u " ") (w' :: rest))
        with (32%N :: join (u " ") (w' :: rest)).
      cbn [tidy_aux]. change (is_space 32%N) with true. cbv iota.
      cbn [negb andb N.eqb Pos.eqb]. apply IH. discriminate. }
  destruct ws as [|w rest]; [reflexivity|].
  assert (N : w :: rest <> []) by discriminate.
  specialize (A true N).
  unfold tidy. now destruct (join (u " ") (w :: rest)).
Qed.


(** X8: The turns of [get_utterances], passed to [clean_utterances]: when
    [clean_utterances] returns, the first records are the non-empty turns
    with their texts cleaned, numbered with the identifiers drawn in
    order, and the copies that follow carry no [uuid]. *)
Theorem clean_utterances_of_turns
    (re_compile : str -> option regex) (fresh_uuid : nat -> str)
    (text : str) (response response' : option api_response)
    (uts out : list utterance_rec) :
  get_utterances text response = Ok uts ->
  clean_utterances re_compile fresh_uuid uts response' = Ok out ->
  let kept := non_empty_turns uts in
  firstn (length kept) out = numbered fresh_uuid 0 kept /\
  Forall (fun c => uuid c = None) (skipn (length kept) out).
Proof.
  intros Hget Hclean kept.
  assert (Hnone : Forall (fun ut => uuid ut = None) kept).
  { apply non_empty_turns_Forall.
    exact (get_utterances_no_uuid text response uts Hget). }
  unfold clean_utterances in Hclean. fold (non_empty_turns uts) in Hclean.
  fold kept in Hclean.
  fold (pattern_of header_pattern response') in Hclean.
  fold (pattern_of footer_pattern response') in Hclean.
  destruct (strip_pattern_cases re_compile (pattern_of header_pattern response')
              kept) as [[_ Eh]|[_ Eh]];
    rewrite Eh in Hclean; cbn [bind] in Hclean; [|discriminate].
  destruct (strip_pattern_cases re_compile (pattern_of footer_pattern response')
              kept) as [[_ Ef]|[_ Ef]];
    rewrite Ef in Hclean; cbn [bind] in Hclean; [|discriminate].
  injection Hclean as <-.
  rewrite (clean_loop_numbered fresh_uuid kept Hnone 0).
  assert (L : length (numbered fresh_uuid 0 kept) = length kept).
  { unfold numbered.
    now rewrite length_map, length_combine, length_seq, Nat.min_id. }
  split.
  - rewrite <- L at 1. rewrite firstn_app, Nat.sub_diag, firstn_all.
    cbn [firstn]. now rewrite app_nil_r.
  - rewrite <- L at 1. rewrite skipn_app, Nat.sub_diag, skipn_all.
    cbn [skipn app]. apply Forall_app. split; now apply copies_for_uuid.
Qed.

(** X9: The text of a cleaned turn has no white space at either end, and
    its white space is single spaces between words. *)
Theorem clean_text_tidy (text : str) : tidy (clean_text text) = true.
Proof.
  unfold clean_text. apply tidy_join. now apply split_ws_aux_words.
Qed.

Lemma clean_utterances_of_turns_witness :
  let text := u "intro A: hi B: yo" in
  let fresh_uuid := fun n => u "id-" ++ [(48 + N.of_nat n)%N] in
  let response' := Some (ApiResponse None (Some (u "hi")) None) in
  let uts := [ Utterance (u "Ann") (u "hi") None;
               Utterance (u "Bob") (u "yo") None ] in
  let out := [ Utterance (u "Ann") (u "hi") (Some (u "id-0"));
               Utterance (u "Bob") (u "yo") (Some (u "id-1"));
               Utterance (u "Ann") [] None;
               Utterance (u "Bob") (u "yo") None ] in
  get_utterances text (Some two_speakers) = Ok uts /\
  clean_utterances compile_example fresh_uuid uts response' = Ok out /\
  firstn (length (non_empty_turns uts)) out
  = numbered fresh_uuid 0 (non_empty_turns uts) /\
  Forall (fun c => uuid c = None) (skipn (length (non_empty_turns uts)) out).
Proof.
  split; [vm_compute; reflexivity|].
  split; [vm_compute; reflexivity|].
  apply (clean_utterances_of_turns compile_example
           (fun n => u "id-" ++ [(48 + N.of_nat n)%N])
           (u "intro A: hi B: yo") (Some two_speakers)
           (Some (ApiResponse None (Some (u "hi")) None))).
  - vm_compute. reflexivity.
  - vm_compute. reflexivity.
Defined.


(** ** The context of a pattern and the fences of a response *)

Lemma firstn_plus (m n : nat) (l : str) :
  firstn (m + n) l = firstn m l ++ firstn n (skipn m l).
Proof.
  revert l. induction m as [|m IH]; intros l; [reflexivity|].
  destruct l as [|x l]; simpl; [now rewrite firstn_nil|].
  now rewrite IH.
Qed.

Lemma slice_split a b c text :
  a <= b -> b <= c ->
  slice a c text = slice a b text ++ slice b c text.
Proof.
  intros Hab Hbc. unfold slice.
  replace (c - a) with ((b - a) + (c - b)) by lia.
  rewrite firstn_plus, skipn_skipn.
  now replace (b - a + a) with b by lia.
Qed.

Lemma slice_clip a b text :
  slice a (Nat.min (length text) b) text = slice a b text.
Proof.
  unfold slice.
  destruct (Nat.le_gt_cases b (length text)) as [L|L].
  - now rewrite Nat.min_r by exact L.
  - rewrite Nat.min_l by lia.
    rewrite !firstn_all2; try reflexivity; rewrite length_skipn; lia.
Qed.

Lemma str_find_first sub text p :
  occurs_at sub text p = true ->
  (forall q, q < p -> occurs_at sub text q = false) ->
  str_find sub text 0 = Some p.
Proof.
  intros Hp Hmin.
  destruct (str_find sub text 0) as [pos|] eqn:E.
  - apply str_find_some in E. destruct E as [_ [Hpos Hbefore]].
    destruct (Nat.lt_trichotomy pos p) as [L|[->|L]].
    + rewrite (Hmin pos L) in Hpos. discriminate.
    + reflexivity.
    + rewrite (Hbefore p (Nat.le_0_l p) L) in Hp. discriminate.
  - rewrite (str_find_none sub text 0 E p (Nat.le_0_l p)) in Hp. discriminate.
Qed.

Lemma rfind_from_last sub : forall t pos k,
  k <= length t ->
  starts_with sub (skipn k t) = true ->
  (forall j, k < j -> j <= length t -> starts_with sub (skipn j t) = false) ->
  rfind_from sub t pos = Some (pos + k).
Proof.
  induction t as [|x t IH]; intros pos k Hk Hs Hlast.
  - simpl in Hk. assert (k = 0) by lia. subst k. simpl in *.
    rewrite Hs. f_equal. lia.
  - cbn [rfind_from]. destruct k as [|k].
    + assert (N : rfind_from sub t (S pos) = None).
      { clear -Hlast. revert pos.
        assert (H : forall j, j <= length t ->
                              starts_with sub (skipn j t) = false).
        { intros j Hj. apply (Hlast (S j)); simpl; lia. }
        clear Hlast. induction t as [|y t IH]; intros pos.
        - pose proof (H 0 (Nat.le_0_l _)) as H0. cbn [skipn] in H0.
          cbn [rfind_from]. now rewrite H0.
        - pose proof (H 0 (Nat.le_0_l _)) as H0. cbn [skipn] in H0.
          cbn [rfind_from]. rewrite IH.
          + now rewrite H0.
          + intros j Hj. apply (H (S j)). simpl. lia. }
      rewrite N. cbn [skipn] in Hs. rewrite Hs. f_equal. lia.
    + rewrite (IH (S pos) k).
      * f_equal. lia.
      * simpl in Hk. lia.
      * exact Hs.
      * intros j Hj Hj'. apply (Hlast (S j)); simpl; lia.
Qed.

Lemma starts_with_app p s : starts_with p (p ++ s) = true.
Proof.
  induction p as [|c p IH]; [reflexivity|]. simpl.
  rewrite IH, andb_true_r. unfold char_eqb. apply N.eqb_refl.
Qed.

Lemma marker_third text j :
  starts_with end_marker (skipn j text) = true ->
  nth_error text (j + 2) = Some backtick.
Proof.
  intros Hs. apply starts_with_firstn in Hs. destruct Hs as [E _].
  rewrite <- nth_error_skipn.
  rewrite <- (firstn_skipn 3 (skipn j text)).
  change (length end_marker) with 3 in E. rewrite E. reflexivity.
Qed.

Lemma no_backtick_In trail :
  no_backtick trail = true -> ~ In backtick trail.
Proof.
  unfold no_backtick. rewrite forallb_forall. intros H Hin.
  specialize (H _ Hin). unfold backtick in H.
  rewrite N.eqb_refl in H. discriminate.
Qed.

Lemma rfind_from_some sub : forall t pos q,
  rfind_from sub t pos = Some q ->
  exists k, q = pos + k /\ k <= length t /\
            starts_with sub (skipn k t) = true.
Proof.
  induction t as [|x t IH]; intros pos q H; cbn [rfind_from] in H.
  - destruct (starts_with sub []) eqn:E; [|discriminate].
    injection H as <-. exists 0. split; [lia|]. split; [simpl; lia | exact E].
  - destruct (rfind_from sub t (S pos)) as [p|] eqn:R.
    + injection H as <-. apply IH in R. destruct R as [k [-> [Hk Hs]]].
      exists (S k). split; [lia|]. split; [simpl; lia | exact Hs].
    + destruct (starts_with sub (x :: t)) eqn:E; [|discriminate].
      injection H as <-. exists 0. split; [lia|]. split; [simpl; lia | exact E].
Qed.

(** X10: When the pattern occurs in the text, [extract_pattern_context]
    returns its first occurrence with the characters around it: at most
    [context_chars] of them before and at most [context_chars] after,
    cut at the ends of the text. *)
Theorem extract_pattern_context_first text pattern_text context_chars p :
  occurs_at pattern_text text p = true ->
  (forall q, q < p -> occurs_at pattern_text text q = false) ->
  let before := slice (p - context_chars) p text in
  let after := slice (p + length pattern_text)
                     (p + length pattern_text + context_chars) text in
  extract_pattern_context text pattern_text context_chars
  = before ++ pattern_text ++ after /\
  length before = Nat.min p context_chars /\
  length after <= context_chars.
Proof.
  intros Hp Hmin before after.
  pose proof (proj1 (occurs_at_slice pattern_text text p) Hp) as [L E].
  split; [|split].
  - unfold extract_pattern_context.
    rewrite (str_find_first pattern_text text p Hp Hmin).
    cbv zeta. rewrite Nat.max_r by lia. rewrite slice_clip.
    rewrite (slice_split (p - context_chars) p) by lia.
    rewrite (slice_split p (p + length pattern_text)) by lia.
    now rewrite E.
  - subst before. unfold slice. rewrite length_firstn, length_skipn. lia.
  - subst after. unfold slice. rewrite length_firstn. lia.
Qed.

(** X11: When the pattern occurs nowhere in the text,
    [extract_pattern_context] returns the words "Not found in text". *)
Theorem extract_pattern_context_absent text pattern_text context_chars :
  (forall p, occurs_at pattern_text text p = false) ->
  extract_pattern_context text pattern_text context_chars
  = u "Not found in text".
Proof.
  intros H. unfold extract_pattern_context.
  destruct (str_find pattern_text text 0) as [pos|] eqn:E; [|reflexivity].
  apply str_find_some in E. destruct E as [_ [E _]].
  rewrite H in E. discriminate.
Qed.

(** X12: A response that is a fenced block, followed by text without a
    backtick, is read as the text between the fences, without the white
    space at its ends. *)
Theorem clean_response_fenced body trail :
  no_backtick trail = true ->
  clean_response (json_fence ++ body ++ end_marker ++ trail) = strip body.
Proof.
  intros Ht. unfold clean_response.
  rewrite starts_with_app. unfold str_rfind.
  assert (R : rfind_from end_marker
                (json_fence ++ body ++ end_marker ++ trail) 0
              = Some (0 + (7 + length body))).
  { apply rfind_from_last.
    - rewrite !length_app. simpl. lia.
    - replace (7 + length body) with (length (json_fence ++ body))
        by (rewrite length_app; reflexivity).
      rewrite app_assoc, skipn_app, skipn_all, Nat.sub_diag.
      cbn [skipn app]. apply starts_with_app.
    - intros j Hj Hlen.
      destruct (starts_with end_marker
                  (skipn j (json_fence ++ body ++ end_marker ++ trail)))
        eqn:E; [|reflexivity].
      exfalso. apply marker_third in E.
      replace (json_fence ++ body ++ end_marker ++ trail)
        with ((json_fence ++ body ++ end_marker) ++ trail) in E
        by (now rewrite <- !app_assoc).
      rewrite nth_error_app2 in E
        by (rewrite !length_app; simpl; lia).
      apply nth_error_In in E. now apply (no_backtick_In trail Ht). }
  rewrite R. cbn [Nat.add Nat.ltb Nat.leb].
  f_equal. unfold slice.
  replace (S (S (S (S (S (S (S (length body))))))) - 7) with (length body)
    by lia.
  change (skipn 7 (json_fence ++ body ++ end_marker ++ trail))
    with (body ++ end_marker ++ trail).
  now rewrite firstn_app, Nat.sub_diag, firstn_all, app_nil_r.
Qed.

(** X13: A response that does not start with the opening fence, or in which
    no closing fence follows the opening one, is read as it is. *)
Theorem clean_response_unfenced response_text :
  starts_with json_fence response_text = false \/
  (forall p, 0 < p -> occurs_at end_marker response_text p = false) ->
  clean_response response_text = response_text.
Proof.
  intros [H|H]; unfold clean_response.
  - now rewrite H.
  - destruct (starts_with json_fence response_text); [|reflexivity].
    destruct (str_rfind end_marker response_text) as [q|] eqn:R;
      [|reflexivity].
    destruct (0 <? q) eqn:Q; [|reflexivity].
    apply Nat.ltb_lt in Q.
    apply rfind_from_some in R. destruct R as [k [-> [Hk Hs]]].
    specialize (H (0 + k) Q). unfold occurs_at in H.
    cbn [Nat.add] in H. rewrite Hs, andb_true_r in H.
    apply Nat.leb_gt in H. lia.
Qed.

Lemma extract_pattern_context_first_witness :
  extract_pattern_context (u "hello big wide world") (u "wide") 3
  = u "ig " ++ u "wide" ++ u " wo" /\
  length (u "ig ") = Nat.min 10 3 /\
  length (u " wo") <= 3.
Proof.
  apply (extract_pattern_context_first (u "hello big wide world") (u "wide")
           3 10).
  - reflexivity.
  - intros q Hq. do 10 (destruct q as [|q]; [reflexivity|]). lia.
Defined.

Lemma extract_pattern_context_absent_witness :
  extract_pattern_context (u "abc") (u "x") 10 = u "Not found in text".
Proof.
  apply (extract_pattern_context_absent (u "abc") (u "x") 10).
  intros p. do 4 (destruct p as [|p]; [reflexivity|]). reflexivity.
Defined.

Lemma clean_response_fenced_witness :
  clean_response (json_fence ++ (newline ++ u "{}" ++ newline)
                  ++ end_marker ++ newline)
  = strip (newline ++ u "{}" ++ newline).
Proof.
  apply (clean_response_fenced (newline ++ u "{}" ++ newline) newline).
  reflexivity.
Defined.

Lemma clean_response_unfenced_witness :
  clean_response (u "{}") = u "{}".
Proof.
  apply (clean_response_unfenced (u "{}")). left. reflexivity.
Defined.

(** ** The extractor: pages, lines and special characters *)

Lemma replace_char_app c new a b :
  replace_char c new (a ++ b) = replace_char c new a ++ replace_char c new b.
Proof. unfold replace_char. apply flat_map_app. Qed.

Lemma apply_replacements_app table : forall a b,
  apply_replacements table (a ++ b)
  = apply_replacements table a ++ apply_replacements table b.
Proof.
  unfold apply_replacements.
  induction table as [|kv table IH]; intros a b; [reflexivity|].
  cbn [fold_left]. now rewrite replace_char_app, IH.
Qed.

Lemma apply_replacements_flat_map table text :
  apply_replacements table text
  = flat_map (fun c => apply_replacements table [c]) text.
Proof.
  induction text as [|c text IH].
  - unfold apply_replacements. induction table as [|kv table IHt];
      [reflexivity | exact IHt].
  - change (c :: text) with ([c] ++ text).
    rewrite apply_replacements_app, IH. reflexivity.
Qed.

Lemma clean_special_characters_flat_map text :
  clean_special_characters text = flat_map special text.
Proof. apply apply_replacements_flat_map. Qed.

Lemma special_cases c :
  (In c special_characters /\
   In (special c) [ []; apostrophe; dquote; u "-"; u "--" ]) \/
  (~ In c special_characters /\ special c = [c]).
Proof.
  unfold special_characters.
  destruct (N.eq_dec c 65533) as [->|N1]; [left; split; [cbn; auto 10 | vm_compute; auto 10]|].
  destruct (N.eq_dec c 8216) as [->|N2]; [left; split; [cbn; auto 10 | vm_compute; auto 10]|].
  destruct (N.eq_dec c 8217) as [->|N3]; [left; split; [cbn; auto 10 | vm_compute; auto 10]|].
  destruct (N.eq_dec c 8220) as [->|N4]; [left; split; [cbn; auto 10 | vm_compute; auto 10]|].
  destruct (N.eq_dec c 8221) as [->|N5]; [left; split; [cbn; auto 10 | vm_compute; auto 10]|].
  destruct (N.eq_dec c 8211) as [->|N6]; [left; split; [cbn; auto 10 | vm_compute; auto 10]|].
  destruct (N.eq_dec c 8212) as [->|N7]; [left; split; [cbn; auto 10 | vm_compute; auto 10]|].
  destruct (N.eq_dec c 169) as [->|N8]; [left; split; [cbn; auto 10 | vm_compute; auto 10]|].
  right. split.
  - simpl. intros H. repeat (destruct H as [H|H]; [congruence|]). exact H.
  - unfold special, apply_replacements, common_replacements.
    cbn [fold_left fst snd].
    assert (R : forall k new, c <> k -> replace_char k new [c] = [c]).
    { intros k new Hk. unfold replace_char. cbn [flat_map].
      unfold char_eqb. apply N.eqb_neq in Hk. rewrite Hk. reflexivity. }
    rewrite (R 65533%N) by assumption.
    assert (B : replace_char 8226%N [8226%N] [c] = [c]).
    { unfold replace_char. cbn [flat_map]. unfold char_eqb.
      destruct (N.eqb_spec c 8226) as [->|_]; reflexivity. }
    rewrite B.
    rewrite (R 8216%N), (R 8217%N), (R 8220%N), (R 8221%N), (R 8211%N),
      (R 8212%N), (R 169%N) by assumption.
    reflexivity.
Qed.

Lemma page_lines_snd lines :
  snd (page_lines lines) = map tagged_line lines.
Proof.
  induction lines as [|line rest IH]; [reflexivity|].
  cbn [page_lines]. destruct (page_lines rest) as [a b]. cbn [snd] in *.
  now rewrite IH.
Qed.

Lemma page_output_eq page_text :
  page_output page_text
  = join newline (map tagged_line
                      (split_char 10%N (clean_special_characters page_text)))
    ++ newline ++ u "<PAGE_BREAK>" ++ newline.
Proof.
  unfold page_output.
  pose proof (page_lines_snd
                (split_char 10%N (clean_special_characters page_text))) as H.
  destruct (page_lines (split_char 10%N (clean_special_characters page_text)))
    as [a b].
  cbn [snd] in H. now rewrite H.
Qed.

Lemma fold_left_app_concat (f : str -> str) pages : forall acc,
  fold_left (fun full_text page_text => full_text ++ f page_text) pages acc
  = acc ++ concat (map f pages).
Proof.
  induction pages as [|p pages IH]; intros acc; simpl.
  - now rewrite app_nil_r.
  - now rewrite IH, app_assoc.
Qed.

(** X14: The output of the pipeline is made page by page, and a page gives
    one line of output for every line it has, of any length: the line
    cleaned, followed by the marker; the lines of a page are joined by
    line breaks and followed by the page break. *)
Theorem text_processing_pipeline_pages (pages : list str) :
  text_processing_pipeline pages
  = concat
      (map (fun page_text =>
              join newline
                   (map tagged_line
                        (split_char 10%N
                                    (clean_special_characters page_text)))
              ++ newline ++ u "<PAGE_BREAK>" ++ newline)
           pages).
Proof.
  unfold text_processing_pipeline.
  rewrite fold_left_app_concat. cbn [app].
  f_equal. apply map_ext. intros page. apply page_output_eq.
Qed.

(** X15: [clean_special_characters] leaves none of the characters that its
    table removes or replaces by ASCII, and cleaning a cleaned text
    changes nothing. *)
Theorem clean_special_characters_clean (text : str) :
  (forall c, In c (clean_special_characters text) ->
             ~ In c special_characters) /\
  clean_special_characters (clean_special_characters text)
  = clean_special_characters text.
Proof.
  assert (P : forall c x, In x (special c) -> ~ In x special_characters).
  { intros c x Hx.
    destruct (special_cases c) as [[_ H]|[Hc H]].
    - cbn [In] in H.
      destruct H as [H|[H|[H|[H|[H|[]]]]]]; rewrite <- H in Hx;
        cbn in Hx; intros Hin; cbn in Hin;
        repeat (destruct Hx as [Hx|Hx]; [subst x;
          repeat (destruct Hin as [Hin|Hin]; [discriminate|]); exact Hin|]);
        exact Hx.
    - rewrite H in Hx. destruct Hx as [<-|[]]. exact Hc. }
  split.
  - intros c Hc. rewrite clean_special_characters_flat_map in Hc.
    apply in_flat_map in Hc. destruct Hc as [x [_ Hx]]. now apply P with x.
  - rewrite (clean_special_characters_flat_map
               (clean_special_characters text)).
    assert (E : forall s, (forall c, In c s -> ~ In c special_characters) ->
                          flat_map special s = s).
    { induction s as [|c s IH]; intros Hs; [reflexivity|].
      cbn [flat_map].
      destruct (special_cases c) as [[Hc _]|[_ ->]].
      - exfalso. apply (Hs c); [now left | exact Hc].
      - cbn [app]. f_equal. apply IH. intros x Hx. apply Hs. now right. }
    apply E. intros c Hc.
    rewrite clean_special_characters_flat_map in Hc.
    apply in_flat_map in Hc. destruct Hc as [x [_ Hx]]. now apply P with x.
Qed.

(** ** Passes on texts without capitals, markers or brackets *)

Lemma blocks_find_scan ic A r :
  blocks ic A r = true ->
  forall fuel bef aft adv,
    over A aft = true ->
    find_scan ic r fuel bef aft adv = [].
Proof.
  intros Hb fuel.
  induction fuel as [|f IH]; intros bef aft adv H; [reflexivity|].
  cbn [find_scan]. rewrite (blocks_match_at ic A r bef aft adv Hb H).
  destruct aft as [|c t]; [reflexivity|].
  simpl in H. apply andb_true_iff in H. destruct H as [Hc Ht].
  now apply IH.
Qed.

Lemma blocks_re_finditer A r text :
  blocks false A r = true -> over A text = true -> re_finditer r text = [].
Proof. intros Hb Ht. unfold re_finditer. now apply blocks_find_scan with A. Qed.

Lemma blocks_re_match A r text :
  blocks false A r = true -> over A text = true -> re_match r text = None.
Proof. intros Hb Ht. unfold re_match. now apply blocks_match_at with A. Qed.

Lemma leading_tags_need_start c rest :
  is_space c = false -> (c =? 60)%N = false ->
  re_match (cat [Bol;
                 Grp 1 (cat [star (Chr cls_s);
                             plus (Grp 2 (cat [tag_pattern;
                                               star (Chr cls_s)]))])])
           (c :: rest) = None.
Proof.
  intros Hs Hl.
  assert (Hs' : cls_mem false cls_s c = false).
  { unfold cls_mem, cls_s. cbn [cls_neg cls_ranges andb orb xorb].
    fold (is_space c). now rewrite Hs. }
  assert (Hl' : cls_mem false (one "<") c = false).
  { unfold cls_mem, one, in_ranges, in_range.
    cbn [cls_neg cls_ranges existsb fst snd andb orb xorb].
    change (ch "<") with 60%N. rewrite orb_false_r.
    apply N.eqb_neq in Hl.
    destruct (N.leb_spec 60 c) as [L1|L1]; [|reflexivity].
    destruct (N.leb_spec c 60) as [L2|L2]; [lia | reflexivity]. }
  unfold re_match, match_at.
  cbn [cat fold_right rmatch before after caps rep_min rep_loop star plus
       tag_pattern length].
  rewrite Hs'. cbn [rmatch after before caps]. now rewrite Hl'.
Qed.

(** X16: A text without upper-case ASCII letters is left as it is by
    [normalize_adjacent_uppercase_words] and by [format_spaced_headers]. *)
Theorem capitals_passes_unchanged (text : str) :
  over no_capitals text = true ->
  normalize_adjacent_uppercase_words text = text /\
  format_spaced_headers text = text.
Proof.
  intros H. split.
  - unfold normalize_adjacent_uppercase_words. blocked H.
    now apply (blocks_re_sub_with false no_capitals).
  - unfold format_spaced_headers.
    now apply (blocks_re_sub_with false no_capitals).
Qed.

(** X17: A text without '<' holds no marker: [fix_tag_spacing] leaves it as
    it is, and [optimize_word_tags] only normalizes its white space. *)
Theorem marker_passes_unchanged (text : str) :
  over no_angle text = true ->
  fix_tag_spacing text = text /\
  optimize_word_tags text = normalize_spaces text.
Proof.
  intros H. split.
  - unfold fix_tag_spacing. now blocked H.
  - unfold optimize_word_tags, single_space_between_tags. now blocked H.
Qed.

(** X18: An attribution string that holds no '<', or that starts with a
    character that is neither white space nor '<', has no leading tags
    to collapse: [remove_leading_duplicate_tags] returns it as it is. *)
Theorem remove_leading_duplicate_tags_unchanged (attribution : str) :
  over no_angle attribution = true \/ starts_plainly attribution = true ->
  remove_leading_duplicate_tags attribution = attribution.
Proof.
  intros [H|H]; unfold remove_leading_duplicate_tags.
  - match goal with
    | |- context [re_match ?r attribution] =>
        now rewrite (blocks_re_match no_angle r attribution eq_refl H)
    end.
  - destruct attribution as [|c rest]; [discriminate|].
    cbn [starts_plainly] in H. apply andb_true_iff in H.
    destruct H as [Hs Hl]. apply negb_true_iff in Hs, Hl.
    now rewrite (leading_tags_need_start c rest Hs Hl).
Qed.

(** X19: For a text without '<' the scan for operator candidates finds
    nothing, and [get_operator_attributions] returns the empty list. *)
Theorem get_operator_attributions_no_tag (text : str) :
  over no_angle text = true ->
  re_finditer operator_pattern text = [] /\
  get_operator_attributions text = [].
Proof.
  intros H.
  pose proof (blocks_re_finditer no_angle operator_pattern text eq_refl H)
    as E.
  split; [exact E|].
  unfold get_operator_attributions. now rewrite E.
Qed.

(** X20: A turn that holds none of '<', '(', '/' and the backslash has no
    bracketed aside: [clean_text] only puts single spaces between its
    words. *)
Theorem clean_text_no_brackets (text : str) :
  over no_brackets text = true ->
  clean_text text = join (u " ") (split_ws text).
Proof.
  intros H. unfold clean_text. now blocked H.
Qed.

(** X21: An ASCII text without '<' is left as it is by
    [optimize_text_tags]. *)
Theorem optimize_text_tags_unchanged (text : str) :
  over ascii_no_angle text = true ->
  optimize_text_tags text = text.
Proof.
  intros H. unfold optimize_text_tags, single_space_between_tags.
  cbv zeta. now blocked H.
Qed.

(** X22: A text without the marks ',', '.', ';', ':', '!' and '?' is only
    stripped by [normalize_punctuation]. *)
Theorem normalize_punctuation_unchanged (text : str) :
  over no_marks text = true ->
  normalize_punctuation text = strip text.
Proof.
  intros H. unfold normalize_punctuation. cbv zeta. now blocked H.
Qed.

Lemma optimize_text_tags_unchanged_witness :
  optimize_text_tags (u "Q2 2023 > Earnings (TAG_2)")
  = u "Q2 2023 > Earnings (TAG_2)".
Proof.
  apply (optimize_text_tags_unchanged (u "Q2 2023 > Earnings (TAG_2)")).
  vm_compute. reflexivity.
Defined.

Lemma normalize_punctuation_unchanged_witness :
  normalize_punctuation (u "  Q2 <TAG_2> Earnings  ")
  = strip (u "  Q2 <TAG_2> Earnings  ").
Proof.
  apply (normalize_punctuation_unchanged (u "  Q2 <TAG_2> Earnings  ")).
  vm_compute. reflexivity.
Defined.

Lemma capitals_passes_unchanged_witness :
  normalize_adjacent_uppercase_words (u "q2 <b> earnings-call, 2023!")
  = u "q2 <b> earnings-call, 2023!" /\
  format_spaced_headers (u "q2 <b> earnings-call, 2023!")
  = u "q2 <b> earnings-call, 2023!".
Proof.
  apply (capitals_passes_unchanged (u "q2 <b> earnings-call, 2023!")).
  vm_compute. reflexivity.
Defined.

Lemma marker_passes_unchanged_witness :
  fix_tag_spacing (u "Q2  2023 > Earnings") = u "Q2  2023 > Earnings" /\
  optimize_word_tags (u "Q2  2023 > Earnings")
  = normalize_spaces (u "Q2  2023 > Earnings").
Proof.
  apply (marker_passes_unchanged (u "Q2  2023 > Earnings")).
  vm_compute. reflexivity.
Defined.

Lemma remove_leading_duplicate_tags_unchanged_witness :
  remove_leading_duplicate_tags (u "John <TAG_2> <TAG_2>:")
  = u "John <TAG_2> <TAG_2>:".
Proof.
  apply (remove_leading_duplicate_tags_unchanged (u "John <TAG_2> <TAG_2>:")).
  right. vm_compute. reflexivity.
Defined.

Lemma get_operator_attributions_no_tag_witness :
  re_finditer operator_pattern (u "Operator: good day") = [] /\
  get_operator_attributions (u "Operator: good day") = [].
Proof.
  apply (get_operator_attributions_no_tag (u "Operator: good day")).
  vm_compute. reflexivity.
Defined.

Lemma clean_text_no_brackets_witness :
  clean_text (u "  thanks,  John.  ") = join (u " ") (split_ws (u "  thanks,  John.  ")).
Proof.
  apply (clean_text_no_brackets (u "  thanks,  John.  ")).
  vm_compute. reflexivity.
Defined.

(** ** Bracketed asides are removed *)

Lemma subseq_refl s : subseq s s.
Proof. induction s; [apply subseq_nil | now apply subseq_keep]. Qed.

Lemma subseq_app_skip pre a b : subseq a b -> subseq a (pre ++ b).
Proof. intros H. induction pre; [exact H | now apply subseq_skip]. Qed.

Lemma subseq_In a b x : subseq a b -> In x a -> In x b.
Proof.
  induction 1 as [|y a b H IH|y a b H IH]; intros Hx.
  - exact Hx.
  - right. now apply IH.
  - destruct Hx as [->|Hx]; [now left | right; now apply IH].
Qed.

Lemma subseq_trans a b c : subseq a b -> subseq b c -> subseq a c.
Proof.
  intros Hab Hbc. revert a Hab.
  induction Hbc as [|y b c H IH|y b c H IH]; intros a Hab.
  - exact Hab.
  - apply subseq_skip. now apply IH.
  - inversion Hab; subst.
    + apply subseq_skip. now apply IH.
    + apply subseq_keep. now apply IH.
Qed.

Lemma existsb_eqb_In (c : char) (s : str) : existsb (N.eqb c) s = true <-> In c s.
Proof.
  rewrite existsb_exists. split.
  - intros [x [Hx E]]. apply N.eqb_eq in E. now subst.
  - intros H. exists c. split; [exact H | apply N.eqb_refl].
Qed.

Lemma existsb_subseq (c : char) (a b : str) :
  subseq a b -> existsb (N.eqb c) b = false -> existsb (N.eqb c) a = false.
Proof.
  intros Hs Hb. destruct (existsb (N.eqb c) a) eqn:E; [|reflexivity].
  apply existsb_eqb_In in E. apply (subseq_In a b c Hs) in E.
  apply existsb_eqb_In in E. congruence.
Qed.

Lemma no_pair_subseq o c a b :
  subseq a b -> no_pair o c b = true -> no_pair o c a = true.
Proof.
  induction 1 as [|y a b H IH|y a b H IH]; intros Hb.
  - reflexivity.
  - cbn [no_pair] in Hb. apply andb_true_iff in Hb. now apply IH.
  - cbn [no_pair] in *. apply andb_true_iff in Hb. destruct Hb as [Hy Hb].
    apply andb_true_iff. split; [|now apply IH].
    destruct (negb (y =? o)%N); [reflexivity|]. cbn [orb] in *.
    apply negb_true_iff in Hy. apply negb_true_iff.
    now apply existsb_subseq with b.
Qed.

(** *** What is left of a text when matches are deleted *)

Lemma match_at_suffix ic r bef aft adv m :
  match_at ic r bef aft adv = Some m ->
  exists p, aft = p ++ m_rest_after m.
Proof.
  unfold match_at. intros H.
  destruct (rmatch ic r (MState bef aft [])
              (fun s' => if adv && (length (after s') =? length aft)
                         then None else Some s')) as [s'|] eqn:E;
    [|discriminate].
  injection H as <-. cbn [m_rest_after].
  apply rmatch_forward in E. destruct E as [s1 [[p [Ha _]] E]].
  destruct (adv && (length (after s1) =? length aft)); [discriminate|].
  injection E as <-. now exists p.
Qed.

Lemma sub_scan_subseq ic r (repl : rematch -> str) :
  (forall m, repl m = []) ->
  forall fuel bef aft adv,
    subseq (sub_scan ic r repl fuel bef aft adv) aft.
Proof.
  intros Hrepl fuel.
  induction fuel as [|f IH]; intros bef aft adv; cbn [sub_scan].
  - apply subseq_refl.
  - destruct (match_at ic r bef aft adv) as [m|] eqn:E.
    + rewrite Hrepl. cbn [app].
      destruct (match_at_suffix ic r bef aft adv m E) as [p Hp].
      apply subseq_trans with (m_rest_after m); [apply IH|].
      rewrite Hp. apply subseq_app_skip, subseq_refl.
    + destruct aft as [|c t]; [apply subseq_nil|].
      apply subseq_keep. apply IH.
Qed.

Lemma re_sub_subseq r text : subseq (re_sub r [] text) text.
Proof. unfold re_sub, re_sub_with. now apply sub_scan_subseq. Qed.

(** *** The pattern of an aside *)

Lemma mem_single o x : cls_mem false (Cls false [ (o, o) ]) x = (x =? o)%N.
Proof.
  unfold cls_mem, in_ranges, in_range.
  cbn [cls_neg cls_ranges existsb fst snd andb orb xorb].
  rewrite orb_false_r.
  destruct (N.eqb_spec x o) as [->|N].
  - now rewrite N.leb_refl.
  - destruct (N.leb_spec o x); destruct (N.leb_spec x o); try reflexivity.
    lia.
Qed.

Lemma mem_not_single c x :
  cls_mem false (Cls true [ (c, c) ]) x = negb (x =? c)%N.
Proof.
  pose proof (mem_single c x) as H. unfold cls_mem in *.
  cbn [cls_neg cls_ranges andb orb xorb] in *. rewrite H.
  now destruct (x =? c)%N.
Qed.

Lemma rmatch_chr_nil ic c bef cs k :
  rmatch ic (Chr c) (MState bef [] cs) k = None.
Proof. reflexivity. Qed.

Lemma rmatch_chr_miss ic c x bef t cs k :
  cls_mem ic c x = false ->
  rmatch ic (Chr c) (MState bef (x :: t) cs) k = None.
Proof. intros H. cbn [rmatch after before caps]. now rewrite H. Qed.

(** The greedy loop over a class reads the characters of the class that
    follow, and goes on from there when the rest of the pattern matches
    there. *)
Lemma class_loop_reads k p : forall b cs K y fuel bef,
  forallb (cls_mem false k) p = true ->
  match b with [] => True | h :: _ => cls_mem false k h = false end ->
  length p < fuel ->
  K (MState (rev p ++ bef) b cs) = Some y ->
  rep_loop (rmatch false (Chr k)) fuel (MState bef (p ++ b) cs) K = Some y.
Proof.
  induction p as [|x p IH]; intros b cs K y fuel bef Hp Hb Hf HK;
    (destruct fuel as [|f]; [simpl in Hf; lia|]);
    cbn [rep_loop app].
  - destruct b as [|h t].
    + rewrite rmatch_chr_nil. exact HK.
    + rewrite (rmatch_chr_miss false k h bef t cs _ Hb). exact HK.
  - cbn [forallb] in Hp. apply andb_true_iff in Hp. destruct Hp as [Hx Hp].
    rewrite (rmatch_chr_hit false k x bef (p ++ b) cs _ Hx).
    cbn [after].
    assert (Hlt : (length (p ++ b) <? length (x :: p ++ b)) = true)
      by (apply Nat.ltb_lt; simpl; lia).
    rewrite Hlt, (IH b cs K y f (x :: bef)); try assumption.
    + reflexivity.
    + simpl in Hf. lia.
    + cbn [rev] in HK. now rewrite <- app_assoc in HK.
Qed.

(** The loop fails when the rest of the pattern matches at none of the
    places where the loop may stop. *)
Lemma class_loop_fails k (K : cont) p : forall fuel bef cs,
  (forall bef' q cs', (exists pre, p = pre ++ q) ->
                      K (MState bef' q cs') = None) ->
  rep_loop (rmatch false (Chr k)) fuel (MState bef p cs) K = None.
Proof.
  induction p as [|x p IH]; intros fuel bef cs HK;
    destruct fuel as [|f]; cbn [rep_loop].
  - apply HK. now exists [].
  - rewrite rmatch_chr_nil. apply HK. now exists [].
  - apply HK. now exists [].
  - assert (Hp : rep_loop (rmatch false (Chr k)) f (MState (x :: bef) p cs) K
                 = None).
    { apply IH. intros bef' q cs' [pre Hq]. apply HK.
      exists (x :: pre). now rewrite Hq. }
    destruct (cls_mem false k x) eqn:Hx.
    + rewrite (rmatch_chr_hit false k x bef p cs _ Hx). cbn [after].
      destruct (length p <? length (x :: p)); rewrite ?Hp;
        apply HK; now exists [].
    + rewrite (rmatch_chr_miss false k x bef p cs _ Hx).
      apply HK. now exists [].
Qed.

Lemma aside_matches (o c : char) (bef p rest : str) adv :
  existsb (N.eqb c) p = false ->
  match_at false (aside o c) bef (o :: p ++ c :: rest) adv
  = Some (ReMatch (o :: p ++ [c]) [] (c :: rev p ++ o :: bef) rest).
Proof.
  intros Hp. unfold match_at, aside.
  assert (Ho : cls_mem false (Cls false [ (o, o) ]) o = true)
    by (rewrite mem_single; apply N.eqb_refl).
  assert (Hc : cls_mem false (Cls false [ (c, c) ]) c = true)
    by (rewrite mem_single; apply N.eqb_refl).
  rewrite rmatch_seq, (rmatch_chr_hit false _ o bef _ [] _ Ho).
  rewrite rmatch_seq, rmatch_star. cbn [after].
  rewrite (class_loop_reads (Cls true [ (c, c) ]) p (c :: rest) []
             _ (MState (c :: rev p ++ o :: bef) rest [])).
  - f_equal. f_equal.
    change (o :: p ++ c :: rest) with ((o :: p) ++ c :: rest).
    replace ((o :: p) ++ c :: rest) with ((o :: p ++ [c]) ++ rest)
      by (cbn [app]; now rewrite <- app_assoc).
    apply consumed_app.
  - apply forallb_forall. intros x Hx. rewrite mem_not_single.
    apply negb_true_iff. apply N.eqb_neq. intros ->.
    apply existsb_eqb_In in Hx. congruence.
  - rewrite mem_not_single, N.eqb_refl. reflexivity.
  - apply Nat.lt_succ_r. rewrite length_app. apply Nat.le_add_r.
  - rewrite (rmatch_chr_hit false _ c _ rest [] _ Hc). cbn [after].
    match goal with
    | |- context [?a =? ?b] =>
        assert (E : (a =? b) = false);
        [apply Nat.eqb_neq; cbn [length]; rewrite length_app;
         cbn [length]; unfold char; lia | rewrite E]
    end.
    now rewrite andb_false_r.
Qed.

Lemma aside_needs_opening (o c : char) (bef aft : str) adv :
  match aft with [] => True | x :: _ => (x =? o)%N = false end ->
  match_at false (aside o c) bef aft adv = None.
Proof.
  intros H. unfold match_at, aside. rewrite rmatch_seq.
  destruct aft as [|x t].
  - now rewrite rmatch_chr_nil.
  - rewrite rmatch_chr_miss; [reflexivity|]. now rewrite mem_single.
Qed.

Lemma aside_needs_closing (o c : char) (bef t : str) adv :
  existsb (N.eqb c) t = false ->
  match_at false (aside o c) bef (o :: t) adv = None.
Proof.
  intros Ht. unfold match_at, aside.
  assert (Ho : cls_mem false (Cls false [ (o, o) ]) o = true)
    by (rewrite mem_single; apply N.eqb_refl).
  rewrite rmatch_seq, (rmatch_chr_hit false _ o bef _ [] _ Ho).
  rewrite rmatch_seq, rmatch_star. cbn [after].
  rewrite class_loop_fails; [reflexivity|].
  intros bef' q cs' [pre Hq].
  destruct q as [|x q]; [apply rmatch_chr_nil|].
  apply rmatch_chr_miss. rewrite mem_single.
  destruct (N.eqb_spec x c) as [->|N]; [|reflexivity].
  exfalso. assert (In c t) by (rewrite Hq; apply in_or_app; right; now left).
  apply existsb_eqb_In in H. congruence.
Qed.

Lemma split_at_first (c : char) (t : str) :
  existsb (N.eqb c) t = true ->
  exists p rest, t = p ++ c :: rest /\ existsb (N.eqb c) p = false.
Proof.
  induction t as [|x t IH]; [discriminate|]. cbn [existsb].
  destruct (N.eqb_spec c x) as [<-|N].
  - intros _. now exists [], t.
  - cbn [orb]. intros H. destruct (IH H) as [p [rest [-> Hp]]].
    exists (x :: p), rest. split; [reflexivity|]. cbn [existsb].
    apply N.eqb_neq in N. now rewrite N.
Qed.

(** Deleting the asides leaves no opening character with a closing one
    after it. *)
Lemma aside_sub_scan (o c : char) (repl : rematch -> str) :
  (forall m, repl m = []) ->
  forall fuel bef aft adv,
    length aft < fuel ->
    no_pair o c (sub_scan false (aside o c) repl fuel bef aft adv) = true.
Proof.
  intros Hrepl fuel.
  induction fuel as [|f IH]; intros bef aft adv Hf; [lia|].
  cbn [sub_scan]. destruct aft as [|x t].
  - now rewrite aside_needs_opening.
  - cbn [length] in Hf. destruct (N.eqb_spec x o) as [->|N].
    + destruct (existsb (N.eqb c) t) eqn:Et.
      * destruct (split_at_first c t Et) as [p [rest [-> Hp]]].
        rewrite aside_matches by exact Hp.
        rewrite Hrepl. cbn [app m_rest_before m_rest_after m_text].
        apply IH. rewrite length_app in Hf. cbn [length] in Hf.
        unfold char, str in *. lia.
      * rewrite aside_needs_closing by exact Et.
        cbn [no_pair]. rewrite N.eqb_refl. cbn [negb orb].
        rewrite IH by lia. rewrite andb_true_r. apply negb_true_iff.
        apply existsb_subseq with t; [|exact Et].
        now apply sub_scan_subseq.
    + apply N.eqb_neq in N. rewrite aside_needs_opening by exact N.
      cbn [no_pair]. rewrite N. cbn [negb orb andb]. apply IH. lia.
Qed.

Lemma aside_re_sub o c text :
  no_pair o c (re_sub (aside o c) [] text) = true.
Proof.
  unfold re_sub, re_sub_with. apply aside_sub_scan; [reflexivity | lia].
Qed.

(** *** White space does not matter *)

Lemma no_pair_visible o c s :
  is_space o = false -> is_space c = false ->
  no_pair o c (visible s) = no_pair o c s.
Proof.
  intros Ho Hc. unfold visible.
  assert (E : forall t, existsb (N.eqb c)
                          (filter (fun x => negb (is_space x)) t)
                        = existsb (N.eqb c) t).
  { induction t as [|x t IHt]; [reflexivity|]. cbn [filter existsb].
    destruct (is_space x) eqn:Ex; cbn [negb existsb]; rewrite IHt.
    - destruct (N.eqb_spec c x) as [<-|_]; [congruence | reflexivity].
    - reflexivity. }
  induction s as [|x s IH]; [reflexivity|]. cbn [filter no_pair].
  destruct (is_space x) eqn:Ex; cbn [negb no_pair].
  - rewrite IH. destruct (N.eqb_spec x o) as [->|_]; [congruence|].
    reflexivity.
  - now rewrite IH, E.
Qed.

Lemma visible_app a b : visible (a ++ b) = visible a ++ visible b.
Proof. apply filter_app. Qed.

Lemma visible_word w :
  forallb (fun c => negb (is_space c)) w = true -> visible w = w.
Proof. apply filter_all. Qed.

Lemma visible_join ws :
  visible (join (u " ") ws) = concat (map visible ws).
Proof.
  induction ws as [|w rest IH]; [reflexivity|].
  destruct rest as [|w' rest].
  - cbn [join map concat]. now rewrite app_nil_r.
  - change (join (u " ") (w :: w' :: rest))
      with (w ++ u " " ++ join (u " ") (w' :: rest)).
    rewrite !visible_app, IH. reflexivity.
Qed.

Lemma visible_split_ws_aux : forall t cur,
  concat (map visible (split_ws_aux cur t)) = visible (rev cur ++ t).
Proof.
  induction t as [|x t IH]; intros cur; cbn [split_ws_aux].
  - destruct cur as [|c cur]; [reflexivity|].
    cbn [map concat]. now rewrite !app_nil_r.
  - destruct (is_space x) eqn:Ex.
    + assert (V : visible (x :: t) = visible t)
        by (unfold visible; cbn [filter]; now rewrite Ex).
      destruct cur as [|c cur].
      * rewrite IH. cbn [rev app]. now rewrite V.
      * cbn [map concat]. rewrite IH. cbn [rev app].
        now rewrite !visible_app, V.
    + rewrite IH. cbn [rev]. now rewrite <- app_assoc.
Qed.

Lemma visible_normal text :
  visible (join (u " ") (split_ws text)) = visible text.
Proof.
  rewrite visible_join. unfold split_ws.
  now rewrite visible_split_ws_aux.
Qed.

Lemma clean_text_visible text :
  visible (clean_text text)
  = visible (re_sub (bracketed "\" "\" "\") []
               (re_sub (bracketed "//" "/" "//") []
                  (re_sub (bracketed "(" ")" ")") []
                     (re_sub (bracketed "<" ">" ">") [] text)))).
Proof. unfold clean_text. apply visible_normal. Qed.

(** X23: The text of a cleaned turn holds no aside in angle brackets and
    none in parentheses, not even one that the removal of another aside
    has put together: no '<' is followed, anywhere later, by '>', and no
    '(' by ')'.  And it holds at most one backslash. *)
Theorem clean_text_no_asides (text : str) :
  no_pair (ch "<") (ch ">") (clean_text text) = true /\
  no_pair (ch "(") (ch ")") (clean_text text) = true /\
  no_pair (ch "\") (ch "\") (clean_text text) = true.
Proof.
  rewrite <- (no_pair_visible (ch "<") (ch ">") (clean_text text))
    by reflexivity.
  rewrite <- (no_pair_visible (ch "(") (ch ")") (clean_text text))
    by reflexivity.
  rewrite <- (no_pair_visible (ch "\") (ch "\") (clean_text text))
    by reflexivity.
  rewrite clean_text_visible.
  rewrite !no_pair_visible by reflexivity.
  split; [|split].
  - apply no_pair_subseq
      with (re_sub (bracketed "<" ">" ">") [] text).
    + eapply subseq_trans; [apply re_sub_subseq|].
      eapply subseq_trans; [apply re_sub_subseq|].
      apply re_sub_subseq.
    + apply (aside_re_sub (ch "<") (ch ">")).
  - apply no_pair_subseq
      with (re_sub (bracketed "(" ")" ")") []
              (re_sub (bracketed "<" ">" ">") [] text)).
    + eapply subseq_trans; [apply re_sub_subseq|].
      apply re_sub_subseq.
    + apply (aside_re_sub (ch "(") (ch ")")).
  - apply (aside_re_sub (ch "\") (ch "\")).
Qed.

(** ** White space after the normalizer *)

Lemma squeeze_lstrip b s : squeeze true s = squeeze b (lstrip s).
Proof.
  induction s as [|x t IH]; [reflexivity|]. cbn [lstrip squeeze].
  destruct (is_space x) eqn:E; [exact IH|]. cbn [squeeze]. now rewrite E.
Qed.

Lemma squeeze_spaces w b :
  forallb is_space w = true -> squeeze true (w ++ b) = squeeze true b.
Proof.
  induction w as [|x w IH]; [reflexivity|]. cbn [forallb app squeeze].
  intros H. apply andb_true_iff in H. destruct H as [Hx Hw].
  rewrite Hx. now apply IH.
Qed.

(** The match of r'\s+' at a white-space character: the run of white
    space that starts there. *)
Lemma spaces_match x t bef adv :
  is_space x = true ->
  match_at false (plus (Chr cls_s)) bef (x :: t) adv
  = Some (ReMatch (x :: leading_space t) []
                  (rev (leading_space t) ++ x :: bef) (lstrip t)).
Proof.
  intros Hx. unfold match_at.
  rewrite rmatch_plus.
  rewrite (rmatch_chr_hit false cls_s x bef t [] _ (is_space_mem x Hx)).
  cbn [after].
  rewrite (leading_space_lstrip t) at 2.
  rewrite (space_loop (leading_space t) (lstrip t) [] _
             (MState (rev (leading_space t) ++ x :: bef) (lstrip t) [])
             (leading_space_spaces t) (lstrip_head t)).
  - f_equal. f_equal.
    rewrite (leading_space_lstrip t) at 1.
    change (x :: leading_space t ++ lstrip t)
      with ((x :: leading_space t) ++ lstrip t).
    apply consumed_app.
  - apply Nat.lt_succ_r. rewrite (leading_space_lstrip t) at 2.
    rewrite length_app. apply Nat.le_add_r.
  - cbn [after].
    match goal with
    | |- context [?a =? ?b] =>
        assert (E : (a =? b) = false);
        [apply Nat.eqb_neq; cbn [length];
         rewrite (leading_space_lstrip t) at 2; rewrite length_app;
         unfold char, str in *; lia
        | rewrite E]
    end.
    now rewrite andb_false_r.
Qed.

Lemma spaces_no_match x t bef adv :
  is_space x = false ->
  match_at false (plus (Chr cls_s)) bef (x :: t) adv = None.
Proof.
  intros Hx. unfold match_at. rewrite rmatch_plus.
  rewrite rmatch_chr_miss; [reflexivity|].
  unfold cls_mem, cls_s. cbn [cls_neg cls_ranges andb orb xorb].
  fold (is_space x). now rewrite Hx.
Qed.

Lemma lstrip_length t : length (lstrip t) <= length t.
Proof.
  induction t as [|x t IH]; [apply Nat.le_refl|]. cbn [lstrip].
  destruct (is_space x); [simpl; lia | apply Nat.le_refl].
Qed.

Lemma squeeze_sub_scan : forall fuel bef aft,
  length aft < fuel ->
  sub_scan false (plus (Chr cls_s)) (expand [TLit (u " ")]) fuel bef aft false
  = squeeze false aft.
Proof.
  induction fuel as [|f IH]; intros bef aft Hf; [lia|].
  cbn [sub_scan]. destruct aft as [|x t]; [reflexivity|].
  cbn [length] in Hf. cbn [squeeze].
  destruct (is_space x) eqn:Hx.
  - rewrite (spaces_match x t bef false Hx).
    cbn [m_text m_rest_before m_rest_after is_nil].
    change (expand [TLit (u " ")]
              (ReMatch (x :: leading_space t) []
                       (rev (leading_space t) ++ x :: bef) (lstrip t)))
      with [32%N].
    cbn [app]. f_equal.
    rewrite IH by (pose proof (lstrip_length t); lia).
    symmetry. apply squeeze_lstrip.
  - rewrite (spaces_no_match x t bef false Hx). f_equal. apply IH. lia.
Qed.

Lemma re_sub_spaces text :
  re_sub (plus (Chr cls_s)) [TLit (u " ")] text = squeeze false text.
Proof.
  unfold re_sub, re_sub_with. apply squeeze_sub_scan. lia.
Qed.

(** *** [strip] after [squeeze] *)

Lemma lstrip_squeeze_true s : lstrip (squeeze true s) = squeeze true s.
Proof.
  induction s as [|x t IH]; [reflexivity|]. cbn [squeeze].
  destruct (is_space x) eqn:E; [exact IH|]. cbn [lstrip]. now rewrite E.
Qed.

Lemma lstrip_squeeze s : lstrip (squeeze false s) = squeeze true s.
Proof.
  destruct s as [|x t]; [reflexivity|]. cbn [squeeze].
  destruct (is_space x) eqn:E.
  - cbn [lstrip]. change (is_space 32%N) with true. cbv iota.
    apply lstrip_squeeze_true.
  - cbn [lstrip]. now rewrite E.
Qed.

Lemma rstrip_cons_space c t :
  is_space c = true ->
  rstrip (c :: t) = match rstrip t with [] => [] | _ :: _ => c :: rstrip t end.
Proof.
  intros Hc. unfold rstrip. cbn [rev].
  assert (L : forall l, lstrip (l ++ [c])
                        = match lstrip l with
                          | [] => []
                          | _ :: _ => lstrip l ++ [c]
                          end).
  { induction l as [|y l IHl]; cbn [app lstrip].
    - now rewrite Hc.
    - destruct (is_space y); [exact IHl | reflexivity]. }
  rewrite L. destruct (lstrip (rev t)) as [|y l] eqn:E; [reflexivity|].
  rewrite rev_app_distr. cbn [rev app].
  destruct (rev l ++ [y]) eqn:E'; [now destruct (rev l)|reflexivity].
Qed.

Lemma join_words_nil ws :
  Forall (fun w => is_word_str w = true) ws ->
  join (u " ") ws = [] -> ws = [].
Proof.
  intros H E. destruct ws as [|w rest]; [reflexivity|]. exfalso.
  inversion H as [|w' rest' Hw Hrest]; subst.
  unfold is_word_str in Hw. apply andb_true_iff in Hw. destruct Hw as [Hw _].
  destruct w as [|c w]; [discriminate|].
  destruct rest; discriminate.
Qed.

(** [squeeze], without the white space at its end, against the words
    that [split] finds; [cur] is the word that is being read, in
    reverse. *)
Lemma rstrip_squeeze_join : forall t,
  (forall cur,
      forallb (fun c => negb (is_space c)) cur = true ->
      (cur <> [] \/ head_over (cls_not cls_s) t = true) ->
      rev cur ++ rstrip (squeeze false t)
      = join (u " ") (split_ws_aux cur t)) /\
  rstrip (squeeze true t) = join (u " ") (split_ws_aux [] t).
Proof.
  induction t as [|x t [IHa IHb]]; split.
  - intros cur _ _. cbn [squeeze split_ws_aux].
    destruct cur as [|c cur]; [reflexivity|].
    change (rstrip []) with (@nil char). now rewrite app_nil_r.
  - reflexivity.
  - intros cur Hcur Hor. cbn [squeeze split_ws_aux].
    destruct (is_space x) eqn:Hx.
    + destruct Hor as [Hne|Hh];
        [|cbn [head_over] in Hh; rewrite not_space_mem, Hx in Hh;
          discriminate].
      destruct cur as [|c cur]; [congruence|].
      rewrite rstrip_cons_space by reflexivity. rewrite IHb.
      pose proof (split_ws_aux_words t [] eq_refl) as W.
      destruct (split_ws_aux [] t) as [|w ws] eqn:E.
      * cbn [join]. now rewrite app_nil_r.
      * destruct (join (u " ") (w :: ws)) as [|j js] eqn:J.
        -- apply join_words_nil in J; [discriminate | exact W].
        -- change (join (u " ") (rev (c :: cur) :: w :: ws))
             with (rev (c :: cur) ++ u " " ++ join (u " ") (w :: ws)).
           now rewrite J.
    + rewrite rstrip_cons by exact Hx.
      rewrite <- (IHa (x :: cur)).
      * cbn [rev]. now rewrite <- app_assoc.
      * cbn [forallb]. now rewrite Hx.
      * left. discriminate.
  - cbn [squeeze split_ws_aux]. destruct (is_space x) eqn:Hx; [exact IHb|].
    rewrite rstrip_cons by exact Hx.
    rewrite <- (IHa [x]).
    + reflexivity.
    + cbn [forallb]. now rewrite Hx.
    + left. discriminate.
Qed.

(** The two idioms of the module for white space agree:
    [re.sub(r'\s+', ' ', text).strip()] is [' '.join(text.split())]. *)
Lemma normalize_spaces_join text :
  normalize_spaces text = join (u " ") (split_ws text).
Proof.
  unfold normalize_spaces, strip, split_ws.
  rewrite re_sub_spaces, lstrip_squeeze.
  apply (proj2 (rstrip_squeeze_join text)).
Qed.

Lemma normalize_spaces_tidy text : tidy (normalize_spaces text) = true.
Proof.
  rewrite normalize_spaces_join. apply tidy_join.
  now apply split_ws_aux_words.
Qed.

(** X24: The texts that [add_text_tags] and [optimize_word_tags] return have
    no white space at either end, and their white space is single spaces
    between words: the last step of both, the replacement of the runs of
    white space by one space and [strip], does what [' '.join(x.split())]
    does. *)
Theorem tagged_text_tidy (text : str) :
  tidy (add_text_tags text) = true /\
  tidy (optimize_word_tags text) = true /\
  (forall x, normalize_spaces x = join (u " ") (split_ws x)).
Proof.
  split; [|split].
  - unfold add_text_tags. apply normalize_spaces_tidy.
  - unfold optimize_word_tags. apply normalize_spaces_tidy.
  - apply normalize_spaces_join.
Qed.

(** ** Operator candidates *)

Lemma fold_left_candidates (ms : list rematch) : forall acc,
  fold_left (fun acc m =>
               acc ++ u "Operator with tags: " ++ m_text m ++ newline)
            ms acc
  = acc ++ concat (map (fun m => u "Operator with tags: " ++ m_text m
                                 ++ newline) ms).
Proof.
  induction ms as [|m ms IH]; intros acc; cbn [fold_left map concat].
  - now rewrite app_nil_r.
  - now rewrite IH, <- app_assoc.
Qed.

Lemma nodup_nil (l : str) : nodup N.eq_dec l = [] -> l = [].
Proof.
  destruct l as [|x l]; [reflexivity|]. intros H. exfalso.
  assert (In x (nodup N.eq_dec (x :: l))) by (apply nodup_In; now left).
  rewrite H in H0. exact H0.
Qed.

(** X25: Whatever the text, every entry of the list that
    [get_operator_attributions] returns is a single character, no entry
    is repeated, and the list is empty exactly when the pattern matches
    nowhere in the text. *)
Theorem get_operator_attributions_characters (text : str) :
  Forall (fun s => length s = 1) (get_operator_attributions text) /\
  NoDup (get_operator_attributions text) /\
  (get_operator_attributions text = [] <->
   re_finditer operator_pattern text = []).
Proof.
  unfold get_operator_attributions, list_set_of_str.
  split; [|split].
  - apply Forall_map, Forall_forall. reflexivity.
  - apply NoDup_map_NoDup_ForallPairs.
    + intros x y _ _ H. now injection H.
    + apply NoDup_nodup.
  - rewrite fold_left_candidates. cbn [app]. split.
    + intros H. apply map_eq_nil in H. apply nodup_nil in H.
      destruct (re_finditer operator_pattern text) as [|m ms];
        [reflexivity|].
      discriminate H.
    + intros ->. reflexivity.
Qed.

(** ** The collapse of leading tags *)

Lemma reads_total r p b K :
  reads r p b -> total_at b K ->
  total_at (p ++ b) (fun s => rmatch false r s K).
Proof.
  intros Hr HK bef cs. destruct (Hr K bef cs HK) as [bef' [cs' ->]].
  apply HK.
Qed.

Lemma reads_chr k x b :
  cls_mem false k x = true -> reads (Chr k) [x] b.
Proof.
  intros Hx K bef cs _. exists (x :: bef), cs.
  apply (rmatch_chr_hit false k x bef b cs K Hx).
Qed.

Lemma reads_seq r1 r2 p1 p2 b :
  reads r1 p1 (p2 ++ b) -> reads r2 p2 b -> reads (Seq r1 r2) (p1 ++ p2) b.
Proof.
  intros H1 H2 K bef cs HK. rewrite rmatch_seq, <- app_assoc.
  destruct (H1 (fun s' => rmatch false r2 s' K) bef cs
              (reads_total r2 p2 b K H2 HK)) as [bef1 [cs1 ->]].
  apply (H2 K bef1 cs1 HK).
Qed.

Lemma reads_grp n r p b : reads r p b -> reads (Grp n r) p b.
Proof.
  intros H K bef cs HK. rewrite rmatch_grp.
  destruct (H (fun s' =>
                 K (MState (before s') (after s')
                           ((n, consumed (MState bef (p ++ b) cs) s')
                              :: caps s')))
              bef cs) as [bef' [cs' E]].
  - intros bef' cs'. apply HK.
  - rewrite E. cbn [before after caps]. now eexists _, _.
Qed.

Lemma loop_reads_class k p b :
  forallb (cls_mem false k) p = true ->
  match b with [] => True | h :: _ => cls_mem false k h = false end ->
  loop_reads (Chr k) p b.
Proof.
  intros Hp Hb K bef cs fuel Hf HK.
  exists (rev p ++ bef), cs.
  destruct (K (MState (rev p ++ bef) b cs)) as [y|] eqn:E.
  - now apply class_loop_reads.
  - exfalso. now apply (HK (rev p ++ bef) cs).
Qed.

Lemma reads_star r p b : loop_reads r p b -> reads (star r) p b.
Proof.
  intros H K bef cs HK. rewrite rmatch_star. cbn [after].
  apply H; [|exact HK]. rewrite length_app. unfold char, str in *. lia.
Qed.

(** One or more iterations: one reading, then the loop. *)
Lemma reads_plus r p1 p2 b :
  reads r p1 (p2 ++ b) -> loop_reads r p2 b -> reads (plus r) (p1 ++ p2) b.
Proof.
  intros H1 H2 K bef cs HK. rewrite rmatch_plus, <- app_assoc.
  destruct (H1 (fun s' =>
                  rep_loop (rmatch false r) (S (length (after s'))) s' K)
              bef cs) as [bef1 [cs1 E]].
  - intros bef' cs'. cbn [after].
    destruct (H2 K bef' cs' (S (length (p2 ++ b)))) as [bef2 [cs2 ->]];
      [rewrite length_app; unfold char, str in *; lia | exact HK |].
    apply HK.
  - rewrite E. cbn [after]. apply H2; [|exact HK].
    rewrite length_app. unfold char, str in *. lia.
Qed.

(** The loop goes round once more when an iteration reads a text that
    is not empty. *)
Lemma loop_reads_round r p1 p2 b :
  p1 <> [] ->
  reads r p1 (p2 ++ b) -> loop_reads r p2 b -> loop_reads r (p1 ++ p2) b.
Proof.
  intros Hne H1 H2 K bef cs fuel Hf HK.
  destruct fuel as [|f]; [lia|]. cbn [rep_loop after].
  rewrite <- app_assoc.
  assert (Hlen : length p2 < f).
  { rewrite length_app in Hf. destruct p1; [congruence|].
    cbn [length] in Hf. lia. }
  destruct (H1 (fun s' =>
                  if length (after s') <? length (p1 ++ p2 ++ b)
                  then rep_loop (rmatch false r) f s' K else None)
              bef cs) as [bef1 [cs1 E]].
  - intros bef' cs'. cbn [after].
    assert (L : (length (p2 ++ b) <? length (p1 ++ p2 ++ b)) = true).
    { apply Nat.ltb_lt. rewrite (length_app p1). destruct p1; [congruence|].
      cbn [length]. lia. }
    rewrite L.
    destruct (H2 K bef' cs' f Hlen HK) as [bef2 [cs2 ->]]. apply HK.
  - rewrite E. cbn [after].
    assert (L : (length (p2 ++ b) <? length (p1 ++ p2 ++ b)) = true).
    { apply Nat.ltb_lt. rewrite (length_app p1). destruct p1; [congruence|].
      cbn [length]. lia. }
    rewrite L.
    destruct (H2 K bef1 cs1 f Hlen HK) as [bef2 [cs2 E2]].
    rewrite E2. exists bef2, cs2.
    destruct (K (MState bef2 b cs2)) eqn:EK; [reflexivity|].
    exfalso. now apply (HK bef2 cs2).
Qed.

(** The loop stops where no iteration can start. *)
Lemma loop_reads_stop r b :
  (forall K bef cs, rmatch false r (MState bef b cs) K = None) ->
  loop_reads r [] b.
Proof.
  intros Hfail K bef cs fuel _ HK. exists bef, cs. cbn [app].
  destruct fuel as [|f]; cbn [rep_loop]; [reflexivity|].
  now rewrite Hfail.
Qed.

(** *** The pattern of a tag *)

Lemma mem_space x : cls_mem false cls_s x = is_space x.
Proof.
  unfold cls_mem, cls_s, is_space. cbn [cls_neg cls_ranges andb xorb].
  now rewrite orb_false_r.
Qed.

Lemma reads_tag name b :
  tag_name_ok name = true -> reads tag_pattern (tag_of name) b.
Proof.
  unfold tag_name_ok. intros H. apply andb_true_iff in H.
  destruct H as [Hne Hname].
  destruct name as [|c name]; [discriminate|]. clear Hne.
  cbn [forallb] in Hname. apply andb_true_iff in Hname.
  destruct Hname as [Hc Hname].
  change (tag_of (c :: name)) with ([60%N] ++ (([c] ++ name) ++ [62%N])).
  apply (reads_seq (Chr (one "<"))).
  - now apply reads_chr.
  - apply (reads_seq (plus (Chr cls_tag_name)) (Chr (one ">"))).
    + apply reads_plus.
      * now apply reads_chr.
      * now apply loop_reads_class.
    + now apply reads_chr.
Qed.

Lemma reads_round nw b :
  round_ok nw = true ->
  head_over (cls_not cls_s) b = true ->
  reads (Grp 2 (cat [tag_pattern; star (Chr cls_s)])) (tag_round nw) b.
Proof.
  unfold round_ok, tag_round. intros H Hb. apply andb_true_iff in H.
  destruct H as [Hname Hw].
  apply reads_grp. apply (reads_seq tag_pattern (star (Chr cls_s))).
  - now apply reads_tag.
  - apply reads_star. apply loop_reads_class.
    + rewrite forallb_forall in *. intros x Hx. rewrite mem_space.
      now apply Hw.
    + destruct b as [|h t]; [exact I|]. cbn [head_over] in Hb.
      rewrite not_space_mem in Hb. rewrite mem_space.
      now apply negb_true_iff in Hb.
Qed.

Lemma tag_round_not_nil nw : tag_round nw <> [].
Proof. unfold tag_round, tag_of. discriminate. Qed.

Lemma ends_tags_head rest :
  ends_tags rest = true -> head_over (cls_not cls_s) rest = true.
Proof.
  destruct rest as [|c t]; [reflexivity|]. cbn [ends_tags head_over].
  intros H. apply andb_true_iff in H. rewrite not_space_mem. apply H.
Qed.

Lemma rounds_head nws rest :
  ends_tags rest = true ->
  head_over (cls_not cls_s) (concat (map tag_round nws) ++ rest) = true.
Proof.
  intros H. destruct nws as [|nw nws]; [now apply ends_tags_head|].
  reflexivity.
Qed.

Lemma round_fails rest K bef cs :
  ends_tags rest = true ->
  rmatch false (Grp 2 (cat [tag_pattern; star (Chr cls_s)]))
         (MState bef rest cs) K = None.
Proof.
  intros H. rewrite rmatch_grp. cbn [cat]. rewrite rmatch_seq.
  unfold tag_pattern. cbn [cat]. rewrite rmatch_seq.
  destruct rest as [|c t]; [apply rmatch_chr_nil|].
  apply rmatch_chr_miss. cbn [ends_tags] in H. apply andb_true_iff in H.
  destruct H as [_ H]. apply negb_true_iff in H.
  change (one "<") with (Cls false [ (60%N, 60%N) ]).
  now rewrite mem_single.
Qed.

Lemma loop_reads_rounds nws rest :
  forallb round_ok nws = true ->
  ends_tags rest = true ->
  loop_reads (Grp 2 (cat [tag_pattern; star (Chr cls_s)]))
             (concat (map tag_round nws)) rest.
Proof.
  intros Hok Hrest. induction nws as [|nw nws IH].
  - apply loop_reads_stop. intros K bef cs. now apply round_fails.
  - cbn [forallb] in Hok. apply andb_true_iff in Hok.
    destruct Hok as [Hnw Hok]. cbn [map concat].
    apply loop_reads_round.
    + apply tag_round_not_nil.
    + apply reads_round; [exact Hnw | now apply rounds_head].
    + now apply IH.
Qed.

(** The pattern of line 910 reads the leading section. *)
Lemma reads_leading w0 nw nws rest :
  forallb is_space w0 = true ->
  forallb round_ok (nw :: nws) = true ->
  ends_tags rest = true ->
  reads (cat [star (Chr cls_s);
              plus (Grp 2 (cat [tag_pattern; star (Chr cls_s)]))])
        (w0 ++ concat (map tag_round (nw :: nws))) rest.
Proof.
  intros Hw Hok Hrest. cbn [cat].
  apply (reads_seq (star (Chr cls_s))).
  - apply reads_star. apply loop_reads_class.
    + rewrite forallb_forall in *. intros x Hx. rewrite mem_space.
      now apply Hw.
    + reflexivity.
  - cbn [forallb] in Hok. apply andb_true_iff in Hok.
    destruct Hok as [Hnw Hok]. cbn [map concat].
    apply reads_plus.
    + apply reads_round; [exact Hnw | now apply rounds_head].
    + now apply loop_reads_rounds.
Qed.

Lemma leading_match leading rest :
  reads (cat [star (Chr cls_s);
              plus (Grp 2 (cat [tag_pattern; star (Chr cls_s)]))])
        leading rest ->
  exists m,
    re_match (cat [Bol;
                   Grp 1 (cat [star (Chr cls_s);
                               plus (Grp 2 (cat [tag_pattern;
                                                 star (Chr cls_s)]))])])
             (leading ++ rest) = Some m /\
    group m 1 = Some leading.
Proof.
  intros H. unfold re_match, match_at.
  change (cat [Bol;
               Grp 1 (cat [star (Chr cls_s);
                           plus (Grp 2 (cat [tag_pattern;
                                             star (Chr cls_s)]))])])
    with (Seq Bol
              (Grp 1 (cat [star (Chr cls_s);
                           plus (Grp 2 (cat [tag_pattern;
                                             star (Chr cls_s)]))]))).
  rewrite rmatch_seq.
  change (rmatch false Bol (MState [] (leading ++ rest) []) ?k)
    with (k (MState [] (leading ++ rest) [])).
  cbv beta.
  rewrite rmatch_grp.
  destruct (H (fun s' =>
                 (fun s'0 => if false && (length (after s'0)
                                          =? length (leading ++ rest))
                             then None else Some s'0)
                   (MState (before s') (after s')
                           ((1, consumed (MState [] (leading ++ rest) []) s')
                              :: caps s')))
              [] []) as [bef' [cs' E]].
  - intros bef cs. discriminate.
  - rewrite E. cbn [andb before after caps]. eexists. split; [reflexivity|].
    cbn [group m_caps get_cap Nat.eqb]. f_equal. apply consumed_app.
Qed.

(** *** The tags of the leading section *)

Lemma tag_match name b bef adv :
  tag_name_ok name = true ->
  exists bef' cs',
    match_at false tag_pattern bef (tag_of name ++ b) adv
    = Some (ReMatch (tag_of name) cs' bef' b).
Proof.
  intros Hname. unfold match_at.
  destruct (reads_tag name b Hname
              (fun s' => if adv && (length (after s')
                                    =? length (tag_of name ++ b))
                         then None else Some s')
              bef []) as [bef' [cs' E]].
  - intros bef0 cs0. cbn [after].
    assert (L : (length b =? length (tag_of name ++ b)) = false).
    { apply Nat.eqb_neq. rewrite length_app. unfold tag_of.
      cbn [length]. unfold char, str in *. lia. }
    rewrite L, andb_false_r. discriminate.
  - rewrite E. cbn [after].
    assert (L : (length b =? length (tag_of name ++ b)) = false).
    { apply Nat.eqb_neq. rewrite length_app. unfold tag_of.
      cbn [length]. unfold char, str in *. lia. }
    rewrite L, andb_false_r. exists bef', cs'.
    cbn [before after caps]. now rewrite consumed_app.
Qed.

Lemma tag_no_match aft bef adv :
  match aft with [] => True | x :: _ => (x =? 60)%N = false end ->
  match_at false tag_pattern bef aft adv = None.
Proof.
  intros H. unfold match_at, tag_pattern. cbn [cat]. rewrite rmatch_seq.
  destruct aft as [|x t]; [now rewrite rmatch_chr_nil|].
  rewrite rmatch_chr_miss; [reflexivity|].
  change (one "<") with (Cls false [ (60%N, 60%N) ]).
  now rewrite mem_single.
Qed.

Lemma is_space_not_lt x : is_space x = true -> (x =? 60)%N = false.
Proof.
  intros H. destruct (N.eqb_spec x 60) as [->|]; [discriminate H|reflexivity].
Qed.

(** The scan for tags goes over white space. *)
Lemma find_scan_spaces (X : list str) t w :
  forallb is_space w = true ->
  (forall fuel bef adv,
      length t < fuel ->
      map m_text (find_scan false tag_pattern fuel bef t adv) = X) ->
  forall fuel bef adv,
    length (w ++ t) < fuel ->
    map m_text (find_scan false tag_pattern fuel bef (w ++ t) adv) = X.
Proof.
  intros Hw Ht. induction w as [|x w IH]; intros fuel bef adv Hf.
  - now apply Ht.
  - cbn [forallb] in Hw. apply andb_true_iff in Hw. destruct Hw as [Hx Hw].
    destruct fuel as [|f]; [lia|]. cbn [find_scan app].
    rewrite tag_no_match by (now apply is_space_not_lt).
    apply (IH Hw). cbn [app length] in Hf. lia.
Qed.

Lemma find_scan_rounds nws :
  forallb round_ok nws = true ->
  forall fuel bef adv,
    length (concat (map tag_round nws)) < fuel ->
    map m_text (find_scan false tag_pattern fuel bef
                          (concat (map tag_round nws)) adv)
    = map (fun nw => tag_of (fst nw)) nws.
Proof.
  induction nws as [|nw nws IH]; intros Hok fuel bef adv Hf.
  - destruct fuel as [|f]; [lia|]. cbn [map concat find_scan].
    now rewrite tag_no_match.
  - cbn [forallb] in Hok. apply andb_true_iff in Hok.
    destruct Hok as [Hnw Hok]. unfold round_ok in Hnw.
    apply andb_true_iff in Hnw. destruct Hnw as [Hname Hw].
    destruct fuel as [|f]; [lia|]. cbn [map concat find_scan].
    unfold tag_round at 1. rewrite <- app_assoc.
    destruct (tag_match (fst nw) (snd nw ++ concat (map tag_round nws))
                bef adv Hname) as [bef' [cs' ->]].
    cbn [map m_text m_rest_before m_rest_after]. f_equal.
    apply find_scan_spaces; [exact Hw | intros; now apply IH |].
    cbn [map concat] in Hf. unfold tag_round at 1 in Hf.
    rewrite <- app_assoc in Hf. rewrite length_app in Hf.
    unfold tag_of in Hf. cbn [length] in Hf. unfold char, str in *. lia.
Qed.

Lemma leading_tags w0 nws :
  forallb is_space w0 = true ->
  forallb round_ok nws = true ->
  map m_text (re_finditer tag_pattern (w0 ++ concat (map tag_round nws)))
  = map (fun nw => tag_of (fst nw)) nws.
Proof.
  intros Hw Hok. unfold re_finditer.
  apply find_scan_spaces; [exact Hw | | lia].
  intros fuel bef adv Hf. now apply find_scan_rounds.
Qed.

Lemma replace_first_prefix old new rest :
  replace_first old new (old ++ rest) = new ++ rest.
Proof.
  unfold replace_first, str_find. cbn [length Nat.ltb Nat.leb skipn].
  assert (F : find_from old (old ++ rest) 0 = Some 0).
  { pose proof (starts_with_app old rest) as S.
    destruct (old ++ rest); cbn [find_from]; now rewrite S. }
  rewrite F. cbn [firstn app Nat.add].
  now rewrite skipn_app, skipn_all, Nat.sub_diag.
Qed.

(** X26: An attribution that starts with tags: optional white space, then
    one or more tags [<NAME>] with names of upper-case letters, digits
    and '_', each followed by optional white space, then a text that is
    empty or starts with a character that is neither white space
    nor '<'.  [remove_leading_duplicate_tags] returns the tags, a tag
    equal to the one before it left out, with one space between them and
    one space after the last, followed by that text. *)
Theorem remove_leading_duplicate_tags_collapse
    (w0 : str) (nw : str * str) (nws : list (str * str)) (rest : str) :
  forallb is_space w0 = true ->
  forallb round_ok (nw :: nws) = true ->
  ends_tags rest = true ->
  remove_leading_duplicate_tags
    (w0 ++ concat (map tag_round (nw :: nws)) ++ rest)
  = join (u " ")
         (unique_adjacent None (map (fun x => tag_of (fst x)) (nw :: nws)))
    ++ u " " ++ rest.
Proof.
  intros Hw Hok Hrest.
  rewrite app_assoc.
  destruct (leading_match (w0 ++ concat (map tag_round (nw :: nws))) rest
              (reads_leading w0 nw nws rest Hw Hok Hrest)) as [m [Em Eg]].
  unfold remove_leading_duplicate_tags. rewrite Em, Eg.
  cbn [or_empty]. rewrite (leading_tags w0 (nw :: nws) Hw Hok).
  rewrite replace_first_prefix. now rewrite <- app_assoc.
Qed.

Lemma remove_leading_duplicate_tags_collapse_witness :
  remove_leading_duplicate_tags (u " <TAG_2><TAG_2>  <BOLD>John:")
  = u "<TAG_2> <BOLD> John:".
Proof.
  exact (remove_leading_duplicate_tags_collapse (u " ") (u "TAG_2", [])
           [ (u "TAG_2", u "  "); (u "BOLD", []) ] (u "John:")
           eq_refl eq_refl eq_refl).
Defined.

(** ** The lines of a page *)

Lemma leading_run_drop line : line = leading_run line ++ drop_leading line.
Proof.
  induction line as [|c t IH]; [reflexivity|]. cbn [leading_run drop_leading].
  destruct (cls_mem false cls_leading c); [|reflexivity].
  cbn [app]. now rewrite <- IH.
Qed.

Lemma leading_run_class line :
  forallb (cls_mem false cls_leading) (leading_run line) = true.
Proof.
  induction line as [|c t IH]; [reflexivity|]. cbn [leading_run].
  destruct (cls_mem false cls_leading c) eqn:E; [|reflexivity].
  cbn [forallb]. now rewrite E.
Qed.

Lemma drop_leading_stops line :
  match drop_leading line with
  | [] => True
  | h :: _ => cls_mem false cls_leading h = false
  end.
Proof.
  induction line as [|c t IH]; [exact I|]. cbn [drop_leading].
  destruct (cls_mem false cls_leading c) eqn:E; [exact IH | exact E].
Qed.

(** An anchored pattern matches nowhere but at the start. *)
Lemma anchored_fails r x bef aft adv :
  match_at false (Seq Bol r) (x :: bef) aft adv = None.
Proof. reflexivity. Qed.

Lemma anchored_sub_scan r repl : forall fuel x bef aft adv,
  sub_scan false (Seq Bol r) repl fuel (x :: bef) aft adv = aft.
Proof.
  induction fuel as [|f IH]; intros x bef aft adv; [reflexivity|].
  cbn [sub_scan]. rewrite anchored_fails.
  destruct aft as [|c t]; [reflexivity|]. now rewrite IH.
Qed.

Lemma leading_match_at c t :
  cls_mem false cls_leading c = true ->
  match_at false (cat [Bol; plus (Chr cls_leading)]) [] (c :: t) false
  = Some (ReMatch (c :: leading_run t) [] (rev (leading_run t) ++ [c])
                  (drop_leading t)).
Proof.
  intros Hc. unfold match_at. cbn [cat]. rewrite rmatch_seq.
  change (rmatch false Bol (MState [] (c :: t) []) ?k)
    with (k (MState [] (c :: t) [])).
  cbv beta. rewrite rmatch_plus.
  rewrite (rmatch_chr_hit false cls_leading c [] t [] _ Hc). cbn [after].
  rewrite (leading_run_drop t) at 2.
  rewrite (class_loop_reads cls_leading (leading_run t) (drop_leading t) []
             _ (MState (rev (leading_run t) ++ [c]) (drop_leading t) [])).
  - f_equal. f_equal. rewrite (leading_run_drop t) at 1.
    change (c :: leading_run t ++ drop_leading t)
      with ((c :: leading_run t) ++ drop_leading t).
    apply consumed_app.
  - apply leading_run_class.
  - apply drop_leading_stops.
  - apply Nat.lt_succ_r. rewrite (leading_run_drop t) at 2.
    rewrite length_app. apply Nat.le_add_r.
  - reflexivity.
Qed.

Lemma leading_no_match aft :
  match aft with [] => True | c :: _ => cls_mem false cls_leading c = false end ->
  match_at false (cat [Bol; plus (Chr cls_leading)]) [] aft false = None.
Proof.
  intros H. unfold match_at. cbn [cat]. rewrite rmatch_seq.
  change (rmatch false Bol (MState [] aft []) ?k) with (k (MState [] aft [])).
  cbv beta. rewrite rmatch_plus.
  destruct aft as [|c t]; [now rewrite rmatch_chr_nil|].
  now rewrite rmatch_chr_miss.
Qed.

Lemma re_sub_leading line :
  re_sub (cat [Bol; plus (Chr cls_leading)]) [] line = drop_leading line.
Proof.
  unfold re_sub, re_sub_with. cbn [Nat.mul Nat.add]. rewrite Nat.add_0_r.
  replace (length line + length line + 2)
    with (S (length line + length line + 1)) by lia.
  cbn [sub_scan]. destruct line as [|c t].
  - now rewrite leading_no_match.
  - cbn [drop_leading]. destruct (cls_mem false cls_leading c) eqn:E.
    + rewrite (leading_match_at c t E).
      cbn [m_text m_rest_before m_rest_after is_nil].
      change (expand [] ?m) with (@nil char). cbn [app].
      destruct (rev (leading_run t) ++ [c]) as [|x bef] eqn:R.
      * destruct (rev (leading_run t)); discriminate.
      * apply anchored_sub_scan.
    + rewrite (leading_no_match (c :: t) E). f_equal.
      apply anchored_sub_scan.
Qed.

(** X27: The pattern of line 328 is anchored: of a line of a page,
    [text_processing_pipeline] removes the run of white space and
    punctuation at the very start, up to the first character that is
    neither (a letter, a digit or a parenthesis, say), and nothing
    further on; the rest goes to
    [normalize_adjacent_uppercase_words]. *)
Theorem clean_line_anchored (line : str) :
  line = leading_run line ++ drop_leading line /\
  forallb (cls_mem false cls_leading) (leading_run line) = true /\
  head_over (cls_not cls_leading) (drop_leading line) = true /\
  clean_line line = normalize_adjacent_uppercase_words (drop_leading line).
Proof.
  split; [apply leading_run_drop|].
  split; [apply leading_run_class|].
  split.
  - pose proof (drop_leading_stops line) as H.
    destruct (drop_leading line) as [|h t]; [reflexivity|].
    cbn [head_over]. unfold cls_mem in *. cbn [cls_not cls_neg cls_ranges] in *.
    destruct (cls_neg cls_leading) eqn:N; [discriminate N|].
    cbn [negb xorb] in *. now rewrite H.
  - unfold clean_line. now rewrite re_sub_leading.
Qed.

(** ** Spaced tag markers *)

Lemma reads_with_total r p b f K :
  reads_with r p b f -> total_at b K ->
  total_at (p ++ b) (fun s => rmatch false r s K).
Proof.
  intros Hr HK bef cs. destruct (Hr K bef cs HK) as [bef' ->]. apply HK.
Qed.

Lemma reads_with_chr k x b :
  cls_mem false k x = true -> reads_with (Chr k) [x] b (fun cs => cs).
Proof.
  intros Hx K bef cs _. exists (x :: bef).
  apply (rmatch_chr_hit false k x bef b cs K Hx).
Qed.

Lemma reads_with_seq r1 r2 p1 p2 b f1 f2 :
  reads_with r1 p1 (p2 ++ b) f1 -> reads_with r2 p2 b f2 ->
  reads_with (Seq r1 r2) (p1 ++ p2) b (fun cs => f2 (f1 cs)).
Proof.
  intros H1 H2 K bef cs HK. rewrite rmatch_seq, <- app_assoc.
  destruct (H1 (fun s' => rmatch false r2 s' K) bef cs
              (reads_with_total r2 p2 b f2 K H2 HK)) as [bef1 ->].
  apply (H2 K bef1 (f1 cs) HK).
Qed.

Lemma reads_with_grp n r p b f :
  reads_with r p b f ->
  reads_with (Grp n r) p b (fun cs => (n, p) :: f cs).
Proof.
  intros H K bef cs HK. rewrite rmatch_grp.
  destruct (H (fun s' =>
                 K (MState (before s') (after s')
                           ((n, consumed (MState bef (p ++ b) cs) s')
                              :: caps s')))
              bef cs) as [bef' E].
  - intros bef' cs'. apply HK.
  - rewrite E. cbn [before after caps]. exists bef'.
    now rewrite consumed_app.
Qed.

Lemma reads_with_star_class k p b :
  forallb (cls_mem false k) p = true ->
  match b with [] => True | h :: _ => cls_mem false k h = false end ->
  reads_with (star (Chr k)) p b (fun cs => cs).
Proof.
  intros Hp Hb K bef cs HK. rewrite rmatch_star. cbn [after].
  exists (rev p ++ bef).
  destruct (K (MState (rev p ++ bef) b cs)) as [y|] eqn:E.
  - apply class_loop_reads; try assumption.
    rewrite length_app. unfold char, str in *. lia.
  - exfalso. now apply (HK (rev p ++ bef) cs).
Qed.

Lemma reads_with_plus_class k x p b :
  cls_mem false k x = true ->
  forallb (cls_mem false k) p = true ->
  match b with [] => True | h :: _ => cls_mem false k h = false end ->
  reads_with (plus (Chr k)) (x :: p) b (fun cs => cs).
Proof.
  intros Hx Hp Hb K bef cs HK. rewrite rmatch_plus.
  cbn [app]. rewrite (rmatch_chr_hit false k x bef (p ++ b) cs _ Hx).
  cbn [after]. exists (rev p ++ x :: bef).
  destruct (K (MState (rev p ++ x :: bef) b cs)) as [y|] eqn:E.
  - apply class_loop_reads; try assumption.
    rewrite length_app. unfold char, str in *. lia.
  - exfalso. now apply (HK (rev p ++ x :: bef) cs).
Qed.

(** White space before a character that is not white space. *)
Lemma reads_with_spaces w c b :
  forallb is_space w = true -> is_space c = false ->
  reads_with (star (Chr cls_s)) w (c :: b) (fun cs => cs).
Proof.
  intros Hw Hc. apply reads_with_star_class.
  - rewrite forallb_forall in *. intros x Hx. rewrite mem_space.
    now apply Hw.
  - now rewrite mem_space.
Qed.

Lemma digit_not_space x : cls_mem false cls_d x = true -> is_space x = false.
Proof.
  unfold cls_mem, cls_d, digit_ranges, in_ranges, in_range.
  cbn [cls_neg cls_ranges existsb fst snd andb orb xorb].
  rewrite !orb_false_r. intros H. apply andb_true_iff in H.
  destruct H as [L U]. apply N.leb_le in L, U.
  assert (E : exists n, (n <= 9)%nat /\ x = (48 + N.of_nat n)%N).
  { exists (N.to_nat (x - 48)). split; lia. }
  destruct E as [n [Hn ->]].
  do 10 (destruct n as [|n]; [reflexivity|]). lia.
Qed.

Lemma space_not_digit x : is_space x = true -> cls_mem false cls_d x = false.
Proof.
  intros H. destruct (cls_mem false cls_d x) eqn:E; [|reflexivity].
  apply digit_not_space in E. congruence.
Qed.

Lemma digit_not_angle x :
  cls_mem false cls_d x = true -> cls_mem false no_angle x = true.
Proof.
  unfold cls_mem, cls_d, digit_ranges, no_angle, cls_not, one, in_ranges,
    in_range.
  cbn [cls_neg cls_ranges existsb fst snd andb orb xorb negb].
  change (ch "<") with 60%N.
  rewrite !orb_false_r. intros H. apply andb_true_iff in H.
  destruct H as [L U]. apply N.leb_le in L, U.
  destruct (N.leb_spec 60 x); [lia|]. reflexivity.
Qed.

(** The digits of a spaced tag, with the white space and the '>' after
    them. *)
Lemma reads_with_digits digits w6 b :
  digits_ok digits = true ->
  forallb is_space w6 = true ->
  reads_with (cat [Grp 1 (plus (Chr cls_d)); star (Chr cls_s); Chr (one ">")])
             (digits ++ w6 ++ [62%N]) b
             (fun cs => (1, digits) :: cs).
Proof.
  unfold digits_ok. intros Hd Hw. apply andb_true_iff in Hd.
  destruct Hd as [Hne Hd]. destruct digits as [|d digits]; [discriminate|].
  cbn [forallb] in Hd. apply andb_true_iff in Hd. destruct Hd as [Hd0 Hd].
  cbn [cat].
  apply (reads_with_seq (Grp 1 (plus (Chr cls_d))) _ (d :: digits)
           (w6 ++ [62%N]) b (fun cs => (1, d :: digits) :: cs)
           (fun cs => cs)).
  - apply (reads_with_grp 1 (plus (Chr cls_d)) (d :: digits) _
             (fun cs => cs)).
    apply reads_with_plus_class; try assumption.
    destruct w6 as [|x w6]; [reflexivity|].
    cbn [forallb] in Hw. apply andb_true_iff in Hw.
    cbn [app]. now apply space_not_digit.
  - apply (reads_with_seq (star (Chr cls_s)) (Chr (one ">")) w6 [62%N] b
             (fun cs => cs) (fun cs => cs)).
    + now apply reads_with_spaces.
    + now apply reads_with_chr.
Qed.

(** The pattern of line 268 reads a spaced tag and keeps its digits as
    group 1. *)
Lemma reads_with_spaced_tag w1 w2 w3 w4 w5 w6 digits b :
  forallb is_space w1 = true -> forallb is_space w2 = true ->
  forallb is_space w3 = true -> forallb is_space w4 = true ->
  forallb is_space w5 = true -> forallb is_space w6 = true ->
  digits_ok digits = true ->
  exists f,
    reads_with (cat (spaced_out (u "<TAG_") ++
                     [Grp 1 (plus (Chr cls_d)); star (Chr cls_s);
                      Chr (one ">")]))
               (spaced_tag w1 w2 w3 w4 w5 w6 digits) b f /\
    forall cs, f cs = (1, digits) :: cs.
Proof.
  intros H1 H2 H3 H4 H5 H6 Hd.
  assert (Hd0 : exists d rest, digits = d :: rest /\ is_space d = false).
  { unfold digits_ok in Hd. apply andb_true_iff in Hd.
    destruct Hd as [Hne Hall]. destruct digits as [|d rest]; [discriminate|].
    exists d, rest. split; [reflexivity|]. apply digit_not_space.
    cbn [forallb] in Hall. now apply andb_true_iff in Hall. }
  destruct Hd0 as [d [rest [Ed Hsd]]].
  eexists. split.
  - unfold spaced_tag.
    change (cat (spaced_out (u "<TAG_") ++
                 [Grp 1 (plus (Chr cls_d)); star (Chr cls_s); Chr (one ">")]))
      with (Seq (Chr (Cls false [ (60, 60) ]%N))
           (Seq (star (Chr cls_s))
           (Seq (Chr (Cls false [ (84, 84) ]%N))
           (Seq (star (Chr cls_s))
           (Seq (Chr (Cls false [ (65, 65) ]%N))
           (Seq (star (Chr cls_s))
           (Seq (Chr (Cls false [ (71, 71) ]%N))
           (Seq (star (Chr cls_s))
           (Seq (Chr (Cls false [ (95, 95) ]%N))
           (Seq (star (Chr cls_s))
                (cat [Grp 1 (plus (Chr cls_d)); star (Chr cls_s);
                      Chr (one ">")]))))))))))).
    eapply reads_with_seq; [apply reads_with_chr; reflexivity|].
    eapply reads_with_seq;
      [apply (reads_with_spaces w1 84%N); [exact H1 | reflexivity]|].
    eapply reads_with_seq; [apply reads_with_chr; reflexivity|].
    eapply reads_with_seq;
      [apply (reads_with_spaces w2 65%N); [exact H2 | reflexivity]|].
    eapply reads_with_seq; [apply reads_with_chr; reflexivity|].
    eapply reads_with_seq;
      [apply (reads_with_spaces w3 71%N); [exact H3 | reflexivity]|].
    eapply reads_with_seq; [apply reads_with_chr; reflexivity|].
    eapply reads_with_seq;
      [apply (reads_with_spaces w4 95%N); [exact H4 | reflexivity]|].
    eapply reads_with_seq; [apply reads_with_chr; reflexivity|].
    eapply reads_with_seq.
    + rewrite Ed. cbn [app].
      apply (reads_with_spaces w5 d); [exact H5 | exact Hsd].
    + apply reads_with_digits; assumption.
  - intros cs. reflexivity.
Qed.

Lemma spaced_tag_match w1 w2 w3 w4 w5 w6 digits b bef :
  forallb is_space w1 = true -> forallb is_space w2 = true ->
  forallb is_space w3 = true -> forallb is_space w4 = true ->
  forallb is_space w5 = true -> forallb is_space w6 = true ->
  digits_ok digits = true ->
  exists bef',
    match_at false
      (cat (spaced_out (u "<TAG_") ++
            [Grp 1 (plus (Chr cls_d)); star (Chr cls_s); Chr (one ">")]))
      bef (spaced_tag w1 w2 w3 w4 w5 w6 digits ++ b) false
    = Some (ReMatch (spaced_tag w1 w2 w3 w4 w5 w6 digits) [ (1, digits) ]
                    bef' b).
Proof.
  intros H1 H2 H3 H4 H5 H6 Hd.
  destruct (reads_with_spaced_tag w1 w2 w3 w4 w5 w6 digits b
              H1 H2 H3 H4 H5 H6 Hd) as [f [Hr Hf]].
  unfold match_at.
  destruct (Hr (fun s' => if false && (length (after s')
                                       =? length (spaced_tag w1 w2 w3 w4 w5 w6
                                                             digits ++ b))
                          then None else Some s')
              bef []) as [bef' E].
  - intros bef0 cs0. discriminate.
  - rewrite E. cbn [andb before after caps]. exists bef'.
    now rewrite consumed_app, Hf.
Qed.

(** The patterns of the BOLD markers do not match at a '<' that is
    followed by 'T'. *)
Lemma bold_patterns_miss bef t adv :
  match_at false (cat (spaced_out (u "<BOLD-") ++ [Chr (one ">")]))
           bef (60%N :: 84%N :: t) adv = None /\
  match_at false (cat (spaced_out (u "<-BOLD") ++ [Chr (one ">")]))
           bef (60%N :: 84%N :: t) adv = None.
Proof. split; reflexivity. Qed.

Lemma over_digits digits :
  forallb (cls_mem false cls_d) digits = true -> over no_angle digits = true.
Proof.
  unfold over. rewrite !forallb_forall. intros H x Hx.
  now apply digit_not_angle, H.
Qed.

(** A pass for a BOLD marker leaves a text with one repaired tag as it
    is. *)
Lemma bold_pass_keeps r t a digits b :
  starts_outside false no_angle r = true ->
  blocks false no_angle r = true ->
  (forall bef rest adv,
      match_at false r bef (60%N :: 84%N :: rest) adv = None) ->
  over no_angle a = true ->
  forallb (cls_mem false cls_d) digits = true ->
  over no_angle b = true ->
  re_sub r t (a ++ u "<TAG_" ++ digits ++ u ">" ++ b)
  = a ++ u "<TAG_" ++ digits ++ u ">" ++ b.
Proof.
  intros Hs Hb Hmiss Ha Hd Hbb.
  rewrite (re_sub_skip no_angle r t a _ Hs Ha). f_equal.
  cbn [sub_scan].
  change (u "<TAG_" ++ digits ++ u ">" ++ b)
    with (60%N :: 84%N :: u "AG_" ++ digits ++ u ">" ++ b).
  rewrite Hmiss. f_equal.
  apply (blocks_sub_scan false no_angle r (expand t) Hb).
  change (84%N :: u "AG_" ++ digits ++ u ">" ++ b)
    with (u "TAG_" ++ digits ++ u ">" ++ b).
  rewrite !over_app. rewrite (over_digits digits Hd), Hbb. reflexivity.
Qed.

(** X28: [fix_tag_spacing] repairs a tag marker that has white space
    between its characters: in a text that holds no other '<', the
    spaced marker becomes "<TAG_", the digits and ">", and the text around
    it stays as it is. *)
Theorem fix_tag_spacing_repairs (a b w1 w2 w3 w4 w5 w6 digits : str) :
  over no_angle a = true -> over no_angle b = true ->
  forallb (forallb is_space) [w1; w2; w3; w4; w5; w6] = true ->
  digits_ok digits = true ->
  fix_tag_spacing (a ++ spaced_tag w1 w2 w3 w4 w5 w6 digits ++ b)
  = a ++ u "<TAG_" ++ digits ++ u ">" ++ b.
Proof.
  intros Ha Hb Hw Hd.
  cbn [forallb] in Hw.
  apply andb_true_iff in Hw. destruct Hw as [H1 Hw].
  apply andb_true_iff in Hw. destruct Hw as [H2 Hw].
  apply andb_true_iff in Hw. destruct Hw as [H3 Hw].
  apply andb_true_iff in Hw. destruct Hw as [H4 Hw].
  apply andb_true_iff in Hw. destruct Hw as [H5 Hw].
  apply andb_true_iff in Hw. destruct Hw as [H6 _].
  assert (Hdd : forallb (cls_mem false cls_d) digits = true).
  { unfold digits_ok in Hd. now apply andb_true_iff in Hd. }
  unfold fix_tag_spacing.
  assert (E1 : re_sub (cat (spaced_out (u "<TAG_") ++
                            [Grp 1 (plus (Chr cls_d)); star (Chr cls_s);
                             Chr (one ">")]))
                      [TLit (u "<TAG_"); TGrp 1; TLit (u ">")]
                      (a ++ spaced_tag w1 w2 w3 w4 w5 w6 digits ++ b)
               = a ++ u "<TAG_" ++ digits ++ u ">" ++ b).
  { match goal with
    | |- re_sub ?r ?t _ = _ =>
        rewrite (re_sub_skip no_angle r t a _ eq_refl Ha)
    end.
    f_equal. cbn [sub_scan].
    destruct (spaced_tag_match w1 w2 w3 w4 w5 w6 digits b (rev a ++ [])
                H1 H2 H3 H4 H5 H6 Hd) as [bef' ->].
    cbn [m_text m_rest_before m_rest_after].
    match goal with
    | |- context [sub_scan false ?r ?repl ?f ?bf b ?adv] =>
        rewrite (blocks_sub_scan false no_angle r repl eq_refl f bf b adv Hb)
    end.
    cbn [expand flat_map group get_cap Nat.eqb m_caps].
    now rewrite app_nil_r, <- !app_assoc. }
  rewrite E1.
  match goal with
  | |- context [re_sub ?r ?t (a ++ u "<TAG_" ++ digits ++ u ">" ++ b)] =>
      rewrite (bold_pass_keeps r t a digits b eq_refl eq_refl
                 (fun bef rest adv =>
                    proj1 (bold_patterns_miss bef rest adv))
                 Ha Hdd Hb)
  end.
  match goal with
  | |- re_sub ?r ?t _ = _ =>
      apply (bold_pass_keeps r t a digits b eq_refl eq_refl
               (fun bef rest adv => proj2 (bold_patterns_miss bef rest adv))
               Ha Hdd Hb)
  end.
Qed.

Lemma fix_tag_spacing_repairs_witness :
  fix_tag_spacing (u "Q: " ++ spaced_tag (u " ") [] [] (u " ") [] (u " ")
                                         (u "12") ++ u " thanks")
  = u "Q: " ++ u "<TAG_" ++ u "12" ++ u ">" ++ u " thanks".
Proof.
  apply (fix_tag_spacing_repairs (u "Q: ") (u " thanks")
           (u " ") [] [] (u " ") [] (u " ") (u "12"));
    reflexivity.
Defined.

(** ** Spaced headers *)

Lemma capital_range c : is_capital c = true -> (65 <= c <= 90)%N.
Proof.
  unfold is_capital, cls_mem, cls_AZ, upper_ranges, in_ranges, in_range.
  cbn [cls_neg cls_ranges existsb fst snd andb orb xorb].
  rewrite !orb_false_r. intros H. apply andb_true_iff in H.
  destruct H as [L U]. apply N.leb_le in L, U. lia.
Qed.

Lemma capital_not_space c : is_capital c = true -> is_space c = false.
Proof.
  intros H. apply capital_range in H.
  assert (E : exists n, (n <= 25)%nat /\ c = (65 + N.of_nat n)%N).
  { exists (N.to_nat (c - 65)). split; lia. }
  destruct E as [n [Hn ->]].
  do 26 (destruct n as [|n]; [reflexivity|]). lia.
Qed.

Lemma capital_not_lower_digit c :
  is_capital c = true ->
  cls_mem false (cls_union cls_az cls_d) c = false.
Proof.
  intros H. apply capital_range in H.
  unfold cls_mem, cls_union, cls_az, cls_d, lower_ranges, digit_ranges,
    in_ranges, in_range.
  cbn [cls_neg cls_ranges existsb fst snd andb orb xorb app].
  rewrite !orb_false_r.
  destruct (N.leb_spec 97 c); [lia|].
  destruct (N.leb_spec c 57); [lia|].
  cbn [andb orb]. now rewrite andb_false_r.
Qed.

Lemma visible_lstrip t : visible (lstrip t) = visible t.
Proof.
  induction t as [|x t IH]; [reflexivity|]. cbn [lstrip].
  destruct (is_space x) eqn:E; [|reflexivity].
  rewrite IH. unfold visible. cbn [filter]. now rewrite E.
Qed.

(** [re.sub(r'\s+', '', text)] deletes the white space. *)
Lemma delete_sub_scan : forall fuel bef aft,
  length aft < fuel ->
  sub_scan false (plus (Chr cls_s)) (expand []) fuel bef aft false
  = visible aft.
Proof.
  induction fuel as [|f IH]; intros bef aft Hf; [lia|].
  cbn [sub_scan]. destruct aft as [|x t]; [reflexivity|].
  cbn [length] in Hf. unfold visible. cbn [filter].
  destruct (is_space x) eqn:Hx; cbn [negb].
  - rewrite (spaces_match x t bef false Hx).
    cbn [m_text m_rest_before m_rest_after is_nil].
    change (expand [] ?m) with (@nil char). cbn [app].
    rewrite IH by (pose proof (lstrip_length t); lia).
    apply visible_lstrip.
  - rewrite (spaces_no_match x t bef false Hx). f_equal. apply IH. lia.
Qed.

Lemma re_sub_delete_spaces text :
  re_sub (plus (Chr cls_s)) [] text = visible text.
Proof. unfold re_sub, re_sub_with. apply delete_sub_scan. lia. Qed.

Lemma visible_header l1 pairs :
  is_capital l1 = true ->
  forallb pair_ok pairs = true ->
  visible (spaced_header l1 pairs) = l1 :: map snd pairs.
Proof.
  intros H1 Hp. unfold spaced_header, visible. cbn [filter].
  rewrite (capital_not_space l1 H1). cbn [negb]. f_equal.
  induction pairs as [|[s l] pairs IH]; [reflexivity|].
  cbn [forallb] in Hp. apply andb_true_iff in Hp. destruct Hp as [Hsl Hp].
  unfold pair_ok in Hsl. cbn [fst snd] in Hsl.
  apply andb_true_iff in Hsl. destruct Hsl as [Hs Hl].
  cbn [map concat spaced_pair fst snd app filter].
  rewrite Hs, (capital_not_space l Hl). cbn [negb]. f_equal. now apply IH.
Qed.

Lemma capitals_header l1 pairs :
  is_capital l1 = true ->
  forallb pair_ok pairs = true ->
  forallb is_capital (l1 :: map snd pairs) = true.
Proof.
  intros H1 Hp. cbn [forallb]. rewrite H1. cbn [andb].
  induction pairs as [|[s l] pairs IH]; [reflexivity|].
  cbn [forallb] in Hp. apply andb_true_iff in Hp. destruct Hp as [Hsl Hp].
  unfold pair_ok in Hsl. apply andb_true_iff in Hsl.
  cbn [map forallb snd] in *. destruct Hsl as [_ ->]. now apply IH.
Qed.

(** *** No run of two white-space characters in a header *)

Lemma two_spaces_miss_letter bef l t adv :
  is_space l = false ->
  match_at false (Rep 2 (Chr cls_s)) bef (l :: t) adv = None.
Proof.
  intros H. unfold match_at. rewrite rmatch_rep2.
  rewrite rmatch_chr_miss; [reflexivity|]. now rewrite mem_space.
Qed.

Lemma two_spaces_miss_single bef s l t adv :
  is_space s = true -> is_space l = false ->
  match_at false (Rep 2 (Chr cls_s)) bef (s :: l :: t) adv = None.
Proof.
  intros Hs H. unfold match_at. rewrite rmatch_rep2.
  rewrite (rmatch_chr_hit false cls_s s bef (l :: t) [] _
             (is_space_mem s Hs)).
  rewrite rmatch_chr_miss; [reflexivity|]. now rewrite mem_space.
Qed.

Lemma two_spaces_miss_end bef adv :
  match_at false (Rep 2 (Chr cls_s)) bef [] adv = None.
Proof. reflexivity. Qed.

Lemma find_scan_pairs pairs :
  forallb pair_ok pairs = true ->
  forall fuel bef adv,
    find_scan false (Rep 2 (Chr cls_s)) fuel bef
              (concat (map spaced_pair pairs)) adv = [].
Proof.
  induction pairs as [|[s l] pairs IH]; intros Hp fuel bef adv.
  - destruct fuel as [|f]; [reflexivity|]. cbn [map concat find_scan].
    now rewrite two_spaces_miss_end.
  - cbn [forallb] in Hp. apply andb_true_iff in Hp. destruct Hp as [Hsl Hp].
    unfold pair_ok in Hsl. cbn [fst snd] in Hsl.
    apply andb_true_iff in Hsl. destruct Hsl as [Hs Hl].
    apply capital_not_space in Hl.
    cbn [map concat spaced_pair fst snd app].
    destruct fuel as [|f]; [reflexivity|]. cbn [find_scan].
    rewrite (two_spaces_miss_single bef s l _ adv Hs Hl).
    destruct f as [|f]; [reflexivity|]. cbn [find_scan].
    rewrite (two_spaces_miss_letter (s :: bef) l _ false Hl).
    now apply IH.
Qed.

Lemma header_single_spaced l1 pairs :
  is_capital l1 = true ->
  forallb pair_ok pairs = true ->
  re_search (Rep 2 (Chr cls_s)) (spaced_header l1 pairs) = None.
Proof.
  intros H1 Hp. unfold re_search, re_finditer, spaced_header.
  replace (2 * length (l1 :: concat (map spaced_pair pairs)) + 2)
    with (S (2 * length (l1 :: concat (map spaced_pair pairs)) + 1)) by lia.
  cbn [find_scan].
  rewrite (two_spaces_miss_letter [] l1 _ false (capital_not_space l1 H1)).
  now rewrite find_scan_pairs.
Qed.

(** *** The pass for words that run together *)

Lemma boundary_sub_scan repl : forall fuel bef aft adv,
  match bef with
  | [] => True
  | x :: _ => cls_mem false (cls_union cls_az cls_d) x = false
  end ->
  forallb is_capital aft = true ->
  sub_scan false
    (cat [Behind true (cls_union cls_az cls_d); Ahead true (Chr cls_AZ)])
    repl fuel bef aft adv
  = aft.
Proof.
  induction fuel as [|f IH]; intros bef aft adv Hbef Haft; [reflexivity|].
  cbn [sub_scan].
  assert (M : match_at false
                (cat [Behind true (cls_union cls_az cls_d);
                      Ahead true (Chr cls_AZ)]) bef aft adv = None).
  { unfold match_at. cbn [cat]. rewrite rmatch_seq.
    cbn [rmatch before]. destruct bef as [|x bef']; [reflexivity|].
    now rewrite Hbef. }
  rewrite M. destruct aft as [|c t]; [reflexivity|].
  cbn [forallb] in Haft. apply andb_true_iff in Haft.
  destruct Haft as [Hc Ht]. f_equal.
  apply IH; [now apply capital_not_lower_digit | exact Ht].
Qed.

Lemma over_capitals s : forallb is_capital s = true -> over cls_AZ s = true.
Proof. intros H. exact H. Qed.

(** What [process_header] makes of a header with single white-space
    characters. *)
Lemma process_header_condenses l1 pairs cs bef rest :
  is_capital l1 = true ->
  forallb pair_ok pairs = true ->
  process_header (ReMatch (spaced_header l1 pairs) cs bef rest)
  = l1 :: map snd pairs.
Proof.
  intros H1 Hp. unfold process_header. cbn [m_text].
  rewrite (header_single_spaced l1 pairs H1 Hp).
  rewrite re_sub_delete_spaces, (visible_header l1 pairs H1 Hp).
  pose proof (capitals_header l1 pairs H1 Hp) as Hc.
  assert (E : re_sub (cat [Behind true (cls_union cls_az cls_d);
                           Ahead true (Chr cls_AZ)])
                     [TLit (u " ")] (l1 :: map snd pairs)
              = l1 :: map snd pairs).
  { unfold re_sub, re_sub_with. now apply boundary_sub_scan. }
  rewrite E.
  apply (blocks_re_sub cls_AZ); [reflexivity | now apply over_capitals].
Qed.

(** *** The match of a spaced header *)

Lemma reads_pair sl b :
  pair_ok sl = true ->
  reads (cat [plus (Chr cls_s); Chr cls_AZ]) (spaced_pair sl) b.
Proof.
  unfold pair_ok. intros H. apply andb_true_iff in H.
  destruct H as [Hs Hl]. cbn [cat].
  apply (reads_seq (plus (Chr cls_s)) (Chr cls_AZ) ([fst sl] ++ []) [snd sl]).
  - apply reads_plus.
    + apply reads_chr. now rewrite mem_space.
    + apply loop_reads_class; [reflexivity|].
      cbn [app]. rewrite mem_space. now apply capital_not_space.
  - now apply reads_chr.
Qed.

Lemma spaced_pair_not_nil sl : spaced_pair sl <> [].
Proof. discriminate. Qed.

Lemma loop_reads_pairs pairs :
  forallb pair_ok pairs = true ->
  loop_reads (cat [plus (Chr cls_s); Chr cls_AZ])
             (concat (map spaced_pair pairs)) [].
Proof.
  intros Hp. induction pairs as [|sl pairs IH].
  - apply loop_reads_stop. intros K bef cs. reflexivity.
  - cbn [forallb] in Hp. apply andb_true_iff in Hp.
    destruct Hp as [Hsl Hp]. cbn [map concat].
    apply loop_reads_round;
      [apply spaced_pair_not_nil | now apply reads_pair | now apply IH].
Qed.

(** Two or more iterations: two readings, then the loop. *)
Lemma reads_rep2 r p1 p2 p3 b :
  reads r p1 (p2 ++ p3 ++ b) -> reads r p2 (p3 ++ b) -> loop_reads r p3 b ->
  reads (Rep 2 r) (p1 ++ p2 ++ p3) b.
Proof.
  intros H1 H2 H3 K bef cs HK. rewrite rmatch_rep2.
  rewrite <- !app_assoc.
  assert (T3 : total_at (p3 ++ b)
                 (fun s2 => rep_loop (rmatch false r) (S (length (after s2)))
                                     s2 K)).
  { intros bef' cs'. cbn [after].
    destruct (H3 K bef' cs' (S (length (p3 ++ b)))) as [bef3 [cs3 ->]];
      [rewrite length_app; unfold char, str in *; lia | exact HK |].
    apply HK. }
  destruct (H1 (fun s1 =>
                  rmatch false r s1
                    (fun s2 => rep_loop (rmatch false r)
                                        (S (length (after s2))) s2 K))
              bef cs) as [bef1 [cs1 ->]].
  - intros bef' cs'.
    destruct (H2 _ bef' cs' T3) as [bef2 [cs2 ->]]. apply T3.
  - destruct (H2 _ bef1 cs1 T3) as [bef2 [cs2 ->]]. cbn [after].
    apply H3; [|exact HK]. rewrite length_app. unfold char, str in *. lia.
Qed.

Lemma reads_header_body l1 p1 p2 pairs :
  is_capital l1 = true ->
  forallb pair_ok (p1 :: p2 :: pairs) = true ->
  reads (cat [Chr cls_AZ; Rep 2 (cat [plus (Chr cls_s); Chr cls_AZ])])
        (spaced_header l1 (p1 :: p2 :: pairs)) [].
Proof.
  intros H1 Hp. cbn [forallb] in Hp.
  apply andb_true_iff in Hp. destruct Hp as [Hp1 Hp].
  apply andb_true_iff in Hp. destruct Hp as [Hp2 Hp].
  unfold spaced_header. cbn [map concat].
  change (l1 :: spaced_pair p1 ++ spaced_pair p2
             ++ concat (map spaced_pair pairs))
    with ([l1] ++ spaced_pair p1 ++ spaced_pair p2
               ++ concat (map spaced_pair pairs)).
  change (cat [Chr cls_AZ; Rep 2 (cat [plus (Chr cls_s); Chr cls_AZ])])
    with (Seq (Chr cls_AZ) (Rep 2 (cat [plus (Chr cls_s); Chr cls_AZ]))).
  apply reads_seq.
  - now apply reads_chr.
  - apply reads_rep2;
      [now apply reads_pair | now apply reads_pair
       | now apply loop_reads_pairs].
Qed.

Lemma header_match header :
  reads (cat [Chr cls_AZ; Rep 2 (cat [plus (Chr cls_s); Chr cls_AZ])])
        header [] ->
  exists cs bef,
    match_at false spaced_header_pattern [] (header ++ []) false
    = Some (ReMatch header cs bef []).
Proof.
  intros H. unfold match_at, spaced_header_pattern. cbn [cat].
  rewrite rmatch_seq.
  change (rmatch false (Behind false ?k) (MState [] (header ++ []) []) ?K)
    with (K (MState [] (header ++ []) [])).
  cbv beta. rewrite rmatch_seq.
  change (rmatch false (Behind false ?k) (MState [] (header ++ []) []) ?K)
    with (K (MState [] (header ++ []) [])).
  cbv beta. rewrite rmatch_seq.
  change (rmatch false (Behind false ?k) (MState [] (header ++ []) []) ?K)
    with (K (MState [] (header ++ []) [])).
  cbv beta. rewrite rmatch_seq.
  match goal with
  | |- context [rmatch false (Grp 1 ?body) ?s ?K] =>
      destruct (reads_grp 1 body header [] H K [] []) as [bef' [cs' E]]
  end.
  - intros bef cs. cbn. discriminate.
  - rewrite E.
    match goal with
    | |- context [rmatch false ?r (MState bef' [] cs') ?K] =>
        change (rmatch false r (MState bef' [] cs') K)
          with (Some (MState bef' [] cs'))
    end.
    exists cs', bef'. cbn [before after caps]. now rewrite consumed_app.
Qed.

Lemma header_needs_letter bef adv :
  match_at false spaced_header_pattern bef [] adv = None.
Proof.
  unfold match_at, spaced_header_pattern. cbn.
  repeat match goal with
         | |- context [if ?c then _ else _] => destruct c
         end; reflexivity.
Qed.

(** X29: A text that is one spaced header, three or more capitals with one
    white-space character between them, is condensed by
    [format_spaced_headers] into the word of its capitals. *)
Theorem format_spaced_headers_condenses
    (l1 : char) (p1 p2 : char * char) (pairs : list (char * char)) :
  is_capital l1 = true ->
  forallb pair_ok (p1 :: p2 :: pairs) = true ->
  format_spaced_headers (spaced_header l1 (p1 :: p2 :: pairs))
  = l1 :: map snd (p1 :: p2 :: pairs).
Proof.
  intros H1 Hp. unfold format_spaced_headers, re_sub_with.
  replace (2 * length (spaced_header l1 (p1 :: p2 :: pairs)) + 2)
    with (S (2 * length (spaced_header l1 (p1 :: p2 :: pairs)) + 1)) by lia.
  cbn [sub_scan].
  destruct (header_match _ (reads_header_body l1 p1 p2 pairs H1 Hp))
    as [cs [bef E]].
  rewrite app_nil_r in E. rewrite E.
  cbn [m_text m_rest_before m_rest_after].
  rewrite (process_header_condenses l1 (p1 :: p2 :: pairs) cs bef [] H1 Hp).
  assert (R : forall f a, sub_scan false spaced_header_pattern process_header
                                   f bef [] a = []).
  { intros f a. destruct f as [|f]; [reflexivity|]. cbn [sub_scan].
    now rewrite header_needs_letter. }
  rewrite R. apply app_nil_r.
Qed.

Lemma format_spaced_headers_condenses_witness :
  format_spaced_headers (u "E A R N I N G S") = u "EARNINGS".
Proof.
  exact (format_spaced_headers_condenses 69%N (32%N, 65%N) (32%N, 82%N)
           [ (32%N, 78%N); (32%N, 73%N); (32%N, 78%N); (32%N, 71%N);
             (32%N, 83%N) ]
           eq_refl eq_refl).
Defined.

(** * The tag normalizer on lines of plain words *)

(** ** Lines of plain words become plain words and line markers *)


Lemma lower_plain c : cls_mem false cls_az c = true -> cls_mem false plain c = true.
Proof.
  unfold cls_mem, plain, cls_union, cls_az. 
  cbn [cls_neg cls_ranges xorb andb]. rewrite !orb_false_r.
  unfold in_ranges. rewrite existsb_app. intros ->. reflexivity.
Qed.








(** ** The shape of a text of plain words and line markers *)

Lemma tagged_from_tail c t :
  tagged_from (c :: t) = true -> tagged_from t = true.
Proof. cbn [tagged_from]. intros H. now apply andb_true_iff in H. Qed.

Lemma tagged_from_skipn n : forall s,
  tagged_from s = true -> tagged_from (skipn n s) = true.
Proof.
  induction n as [|n IH]; intros s H; [exact H|].
  destruct s as [|c t]; [reflexivity|]. cbn [skipn].
  apply IH. now apply tagged_from_tail with c.
Qed.

Lemma tagged_space t :
  tagged_from (32%N :: t) = true ->
  exists h r, t = h :: r /\ (cls_mem false plain h = true \/ h = 60%N).
Proof.
  cbn [tagged_from]. intros H. apply andb_true_iff in H. destruct H as [H _].
  unfold tagged_next in H. cbn [N.eqb Pos.eqb] in H.
  destruct t as [|h r]; [discriminate|]. exists h, r. split; [reflexivity|].
  apply orb_true_iff in H. destruct H as [H|H]; [now left|].
  right. now apply N.eqb_eq.
Qed.

Lemma tagged_open t :
  tagged_from (60%N :: t) = true ->
  exists l1 rest,
    t = u "TAG_2> " ++ l1 :: rest /\
    cls_mem false cls_az l1 = true /\ word_goes_on rest = true /\
    tagged_from (32%N :: l1 :: rest) = true.
Proof.
  intros Hall. pose proof Hall as H.
  cbn [tagged_from] in H. apply andb_true_iff in H. destruct H as [H Ht].
  unfold tagged_next in H. cbn [N.eqb Pos.eqb] in H.
  apply andb_true_iff in H. destruct H as [Hs Hr].
  apply starts_with_firstn in Hs. destruct Hs as [Hs _].
  destruct (@skipn char 7 t) as [|l1 rest] eqn:E; [discriminate|].
  apply andb_true_iff in Hr. destruct Hr as [H1 H2].
  assert (Et : t = u "TAG_2> " ++ l1 :: rest).
  { transitivity (@firstn char 7 t ++ @skipn char 7 t);
      [symmetry; apply firstn_skipn|].
    rewrite E. f_equal. exact Hs. }
  exists l1, rest. repeat split; try assumption.
  apply (tagged_from_skipn 6) in Ht. rewrite Et in Ht. exact Ht.
Qed.

Lemma tagged_close t :
  tagged_from (62%N :: t) = true ->
  exists l r, t = 32%N :: l :: r /\ cls_mem false plain l = true.
Proof.
  cbn [tagged_from]. intros H. apply andb_true_iff in H. destruct H as [H _].
  unfold tagged_next in H. cbn [N.eqb Pos.eqb] in H.
  destruct t as [|s [|l r]]; try discriminate.
  apply andb_true_iff in H. destruct H as [Hs Hl].
  apply N.eqb_eq in Hs. subst s. now exists l, r.
Qed.

Lemma tagged_next_alphabet c t :
  tagged_next c t = true -> cls_mem false tagged_alphabet c = true.
Proof.
  unfold tagged_next. intros H.
  destruct (N.eqb_spec c 32) as [->|N1]; [reflexivity|].
  destruct (N.eqb_spec c 60) as [->|N2]; [reflexivity|].
  destruct (N.eqb_spec c 62) as [->|N3]; [reflexivity|].
  destruct (N.eqb_spec c 84) as [->|N4]; [reflexivity|].
  destruct (N.eqb_spec c 65) as [->|N5]; [reflexivity|].
  destruct (N.eqb_spec c 71) as [->|N6]; [reflexivity|].
  cbn [orb] in H.
  destruct (N.eqb_spec c 95) as [->|N7]; [reflexivity|].
  cbn [orb] in H.
  exact (alphabet_fact plain (cls_mem false tagged_alphabet) c
           eq_refl eq_refl H).
Qed.


(** A character of the text other than [c0] belongs to the alphabet
    without [c0]. *)
Lemma tagged_next_without (c0 : char) (A : cls) c t :
  forallb (fun x => (x =? c0)%N || cls_mem false A x)
          (cls_points tagged_alphabet) = true ->
  tagged_next c t = true -> c <> c0 -> cls_mem false A c = true.
Proof.
  intros HA H N. apply tagged_next_alphabet in H.
  pose proof (alphabet_fact tagged_alphabet _ c eq_refl HA H) as F.
  cbv beta in F. apply orb_true_iff in F. destruct F as [F|F]; [|exact F].
  apply N.eqb_eq in F. contradiction.
Qed.




(** ** Greedy loops, with or without [re.IGNORECASE] *)

Lemma loop_stop ic k fuel bef b cs K :
  match b with [] => True | h :: _ => cls_mem ic k h = false end ->
  rep_loop (rmatch ic (Chr k)) fuel (MState bef b cs) K
  = K (MState bef b cs).
Proof.
  intros Hb. destruct fuel as [|f]; [reflexivity|]. cbn [rep_loop].
  destruct b as [|h t].
  - now rewrite rmatch_chr_nil.
  - now rewrite (rmatch_chr_miss ic k h bef t cs _ Hb).
Qed.

(** The loop over one character of the class fails when the rest of the
    pattern fails after the character and before it. *)
Lemma loop_one ic k fuel bef x b cs K :
  cls_mem ic k x = true ->
  match b with [] => True | h :: _ => cls_mem ic k h = false end ->
  K (MState (x :: bef) b cs) = None ->
  K (MState bef (x :: b) cs) = None ->
  rep_loop (rmatch ic (Chr k)) fuel (MState bef (x :: b) cs) K = None.
Proof.
  intros Hx Hb K1 K0. destruct fuel as [|f]; [exact K0|]. cbn [rep_loop].
  rewrite (rmatch_chr_hit ic k x bef b cs _ Hx). cbn [after].
  destruct (length b <? length (x :: b)).
  - now rewrite (loop_stop ic k f (x :: bef) b cs K Hb), K1.
  - exact K0.
Qed.

Lemma miss_match_at ic r bef aft adv :
  (forall K, rmatch ic r (MState bef aft []) K = None) ->
  match_at ic r bef aft adv = None.
Proof. intros H. unfold match_at. now rewrite H. Qed.

(** ** Characters of the text and the classes of the patterns *)

Lemma plain_misses ic c :
  cls_mem false plain c = true ->
  cls_mem ic cls_s c = false /\ cls_mem ic (one "<") c = false.
Proof.
  intros H.
  pose proof (alphabet_fact plain
                (fun c => negb (cls_mem true cls_s c)
                          && negb (cls_mem false cls_s c)
                          && negb (cls_mem true (one "<") c)
                          && negb (cls_mem false (one "<") c))
                c eq_refl eq_refl H) as F.
  apply andb_true_iff in F. destruct F as [F F4].
  apply andb_true_iff in F. destruct F as [F F3].
  apply andb_true_iff in F. destruct F as [F1 F2].
  rewrite negb_true_iff in F1, F2, F3, F4. now destruct ic.
Qed.

Lemma lower_misses ic c :
  cls_mem false cls_az c = true ->
  cls_mem ic cls_s c = false /\ cls_mem ic (one "<") c = false
  /\ cls_mem ic cls_d c = false.
Proof.
  intros H. destruct (plain_misses ic c (lower_plain c H)) as [F1 F2].
  repeat split; try assumption.
  pose proof (alphabet_fact cls_az
                (fun c => negb (cls_mem true cls_d c)
                          && negb (cls_mem false cls_d c))
                c eq_refl eq_refl H) as F.
  apply andb_true_iff in F. destruct F as [F3 F4].
  rewrite negb_true_iff in F3, F4. now destruct ic.
Qed.

(** ** The marker "<TAG_2>" as a pattern *)

Lemma tag2_lit ic bef b cs K :
  rmatch ic (lit "<TAG_2>")
         (MState bef (60 :: 84 :: 65 :: 71 :: 95 :: 50 :: 62 :: b)%N cs) K
  = K (MState (62 :: 50 :: 95 :: 71 :: 65 :: 84 :: 60 :: bef)%N b cs).
Proof. destruct ic; reflexivity. Qed.

Lemma tag2_lit_miss ic bef b cs K :
  match b with [] => True | h :: _ => cls_mem ic (one "<") h = false end ->
  rmatch ic (lit "<TAG_2>") (MState bef b cs) K = None.
Proof.
  intros H.
  change (lit "<TAG_2>") with (Seq (Chr (one "<")) (lit "TAG_2>")).
  rewrite rmatch_seq. destruct b as [|h t]; [apply rmatch_chr_nil|].
  now apply rmatch_chr_miss.
Qed.

(** After the first letter of a line no white space leads to a
    marker. *)
Lemma after_letter ic rest bef cs K :
  word_goes_on rest = true ->
  rmatch ic (Seq (star (Chr cls_s)) (lit "<TAG_2>")) (MState bef rest cs) K
  = None.
Proof.
  intros H. rewrite rmatch_seq, rmatch_star. cbn [after].
  destruct rest as [|l2 r2].
  - rewrite loop_stop by exact I. now apply tag2_lit_miss.
  - cbn [word_goes_on] in H. apply orb_true_iff in H. destruct H as [H|H].
    + destruct (plain_misses ic l2 H) as [F1 F2].
      rewrite loop_stop by exact F1. now apply tag2_lit_miss.
    + apply andb_true_iff in H. destruct H as [E H].
      apply N.eqb_eq in E. subst l2.
      destruct r2 as [|h r3]; [discriminate|].
      destruct (plain_misses ic h H) as [F1 F2].
      apply loop_one.
      * now destruct ic.
      * exact F1.
      * now apply tag2_lit_miss.
      * apply tag2_lit_miss. now destruct ic.
Qed.

(** r'<TAG_2>\s*[A-Za-z]\s*<TAG_2>' does not match at a marker. *)
Lemma tag_letter_miss bef l1 rest cs K :
  cls_mem false cls_az l1 = true ->
  word_goes_on rest = true ->
  rmatch true (tag_letter "<TAG_2>")
         (MState bef (60 :: u "TAG_2> " ++ l1 :: rest)%N cs) K = None.
Proof.
  intros H1 Hr. destruct (lower_misses true l1 H1) as [F1 [F2 F3]].
  unfold tag_letter. cbn [cat].
  change (60 :: u "TAG_2> " ++ l1 :: rest)%N
    with (60 :: 84 :: 65 :: 71 :: 95 :: 50 :: 62 :: 32 :: l1 :: rest)%N.
  rewrite rmatch_seq, tag2_lit, rmatch_seq, rmatch_star. cbn [after].
  apply loop_one; [reflexivity | exact F1 | |].
  - rewrite rmatch_seq.
    destruct (cls_mem true cls_AZaz l1) eqn:E.
    + rewrite (rmatch_chr_hit true cls_AZaz l1 _ rest cs _ E).
      now apply after_letter.
    + now apply rmatch_chr_miss.
  - rewrite rmatch_seq. now apply rmatch_chr_miss.
Qed.

(** r'<TAG_2>\s*(\d+)\s*<TAG_2>' does not match at a marker. *)
Lemma tag_digits_miss bef l1 rest cs K :
  cls_mem false cls_az l1 = true ->
  rmatch true (tag_digits "<TAG_2>")
         (MState bef (60 :: u "TAG_2> " ++ l1 :: rest)%N cs) K = None.
Proof.
  intros H1. destruct (lower_misses true l1 H1) as [F1 [F2 F3]].
  unfold tag_digits. cbn [cat].
  change (60 :: u "TAG_2> " ++ l1 :: rest)%N
    with (60 :: 84 :: 65 :: 71 :: 95 :: 50 :: 62 :: 32 :: l1 :: rest)%N.
  rewrite rmatch_seq, tag2_lit, rmatch_seq, rmatch_star. cbn [after].
  apply loop_one; [reflexivity | exact F1 | |].
  - rewrite rmatch_seq, rmatch_grp, rmatch_plus.
    now apply rmatch_chr_miss.
  - rewrite rmatch_seq, rmatch_grp, rmatch_plus.
    now apply rmatch_chr_miss.
Qed.

(** The run of two or more markers, lines 116 to 118, does not match at
    a marker. *)
Lemma tag_run_miss bef l1 rest cs K :
  cls_mem false cls_az l1 = true ->
  rmatch false (tag_run "<TAG_2>")
         (MState bef (60 :: u "TAG_2> " ++ l1 :: rest)%N cs) K = None.
Proof.
  intros H1. destruct (lower_misses false l1 H1) as [F1 [F2 F3]].
  unfold tag_run. cbn [cat].
  change (60 :: u "TAG_2> " ++ l1 :: rest)%N
    with (60 :: 84 :: 65 :: 71 :: 95 :: 50 :: 62 :: 32 :: l1 :: rest)%N.
  rewrite rmatch_rep2, rmatch_grp, rmatch_seq, tag2_lit, rmatch_star.
  cbn [after].
  apply loop_one; [reflexivity | exact F1 | |].
  - cbn [before after caps]. rewrite rmatch_grp, rmatch_seq.
    now apply tag2_lit_miss.
  - cbn [before after caps]. rewrite rmatch_grp, rmatch_seq.
    now apply tag2_lit_miss.
Qed.

(** The patterns of the other markers do not match at "<TAG_2>". *)
Lemma other_tags_miss bef t cs K :
  rmatch true (tag_letter "<TAG_3>")
         (MState bef (60 :: 84 :: 65 :: 71 :: 95 :: 50 :: t)%N cs) K = None /\
  rmatch true (tag_digits "<TAG_3>")
         (MState bef (60 :: 84 :: 65 :: 71 :: 95 :: 50 :: t)%N cs) K = None /\
  rmatch true (tag_letter "<TAG_4>")
         (MState bef (60 :: 84 :: 65 :: 71 :: 95 :: 50 :: t)%N cs) K = None /\
  rmatch true (tag_digits "<TAG_4>")
         (MState bef (60 :: 84 :: 65 :: 71 :: 95 :: 50 :: t)%N cs) K = None /\
  rmatch false (tag_run "<TAG_4>")
         (MState bef (60 :: 84 :: 65 :: 71 :: 95 :: 50 :: t)%N cs) K = None /\
  rmatch false (tag_run "<TAG_3>")
         (MState bef (60 :: 84 :: 65 :: 71 :: 95 :: 50 :: t)%N cs) K = None /\
  rmatch false (cat [lit "<TAG_3>"; star (Chr cls_s); lit "<TAG_2>"])
         (MState bef (60 :: 84 :: 65 :: 71 :: 95 :: 50 :: t)%N cs) K = None.
Proof. repeat split; reflexivity. Qed.

(** ** Patterns that match nowhere in the text *)

(** A pattern that matches at no place of the text leaves it as it
    is. *)
Lemma tagged_sub_scan ic r repl :
  (forall bef aft K,
      tagged_from aft = true -> rmatch ic r (MState bef aft []) K = None) ->
  forall fuel bef aft adv,
    tagged_from aft = true ->
    sub_scan ic r repl fuel bef aft adv = aft.
Proof.
  intros Hmiss fuel.
  induction fuel as [|f IH]; intros bef aft adv H; [reflexivity|].
  cbn [sub_scan].
  rewrite (miss_match_at ic r bef aft adv (fun K => Hmiss bef aft K H)).
  destruct aft as [|c t]; [reflexivity|].
  f_equal. apply IH. now apply tagged_from_tail with c.
Qed.

Lemma tagged_re_sub r t y :
  (forall bef aft K,
      tagged_from aft = true -> rmatch false r (MState bef aft []) K = None) ->
  tagged_from y = true -> re_sub r t y = y.
Proof. intros Hr Hy. now apply tagged_sub_scan. Qed.

Lemma tagged_re_sub_i r t y :
  (forall bef aft K,
      tagged_from aft = true -> rmatch true r (MState bef aft []) K = None) ->
  tagged_from y = true -> re_sub_i r t y = y.
Proof. intros Hr Hy. now apply tagged_sub_scan. Qed.

(** A pattern that starts with the character [c0] matches nowhere when
    it matches at no [c0] of the text. *)
Lemma miss_by_head ic r (c0 : char) (A : cls) :
  starts_outside ic A r = true ->
  forallb (fun x => (x =? c0)%N || cls_mem false A x)
          (cls_points tagged_alphabet) = true ->
  (forall bef t K,
      tagged_from (c0 :: t) = true ->
      rmatch ic r (MState bef (c0 :: t) []) K = None) ->
  forall bef aft K,
    tagged_from aft = true -> rmatch ic r (MState bef aft []) K = None.
Proof.
  intros Hs HA Hc bef aft K H.
  destruct aft as [|c t].
  - now apply (starts_outside_rmatch ic A r Hs).
  - destruct (N.eq_dec c c0) as [->|N]; [now apply Hc|].
    apply (starts_outside_rmatch ic A r Hs). cbn [after head_over].
    cbn [tagged_from] in H. apply andb_true_iff in H. destruct H as [H _].
    now apply (tagged_next_without c0 A c t HA H).
Qed.

(** The alphabet of the text without '<', without '>' and without the
    space. *)
Lemma marker_miss ic r :
  starts_outside ic (cls_union plain (set " >TAG_")) r = true ->
  (forall bef l1 rest K,
      cls_mem false cls_az l1 = true ->
      word_goes_on rest = true ->
      rmatch ic r (MState bef (60 :: u "TAG_2> " ++ l1 :: rest)%N []) K
      = None) ->
  forall bef aft K,
    tagged_from aft = true -> rmatch ic r (MState bef aft []) K = None.
Proof.
  intros Hs Hm.
  apply (miss_by_head ic r 60%N (cls_union plain (set " >TAG_")) Hs eq_refl).
  intros bef t K H.
  destruct (tagged_open t H) as [l1 [rest [-> [H1 [H2 _]]]]].
  now apply Hm.
Qed.

(** r'[ ]{2,}' *)
Lemma double_space_miss bef aft K :
  tagged_from aft = true ->
  rmatch false (Rep 2 (Chr (one " "))) (MState bef aft []) K = None.
Proof.
  revert bef aft K.
  apply (miss_by_head false (Rep 2 (Chr (one " "))) 32%N
           (cls_union plain (set "<>TAG_")) eq_refl eq_refl).
  intros bef t K H. destruct (tagged_space t H) as [h [r [-> Hh]]].
  rewrite rmatch_rep2.
  rewrite (rmatch_chr_hit false (one " ") 32%N bef (h :: r) [] _ eq_refl).
  apply rmatch_chr_miss.
  destruct Hh as [Hh| ->]; [|reflexivity].
  apply not_space_char. now apply plain_not_space.
Qed.

(** r'>\s+<' *)
Lemma close_open_miss bef aft K :
  tagged_from aft = true ->
  rmatch false (cat [Chr (one ">"); plus (Chr cls_s); Chr (one "<")])
         (MState bef aft []) K = None.
Proof.
  revert bef aft K.
  apply (miss_by_head false
           (cat [Chr (one ">"); plus (Chr cls_s); Chr (one "<")]) 62%N
           (cls_union plain (set " <TAG_")) eq_refl eq_refl).
  intros bef t K H. destruct (tagged_close t H) as [l [r [-> Hl]]].
  destruct (plain_misses false l Hl) as [F1 F2].
  cbn [cat]. rewrite rmatch_seq.
  rewrite (rmatch_chr_hit false (one ">") 62%N bef _ [] _ eq_refl).
  rewrite rmatch_seq, rmatch_plus.
  rewrite (rmatch_chr_hit false cls_s 32%N _ (l :: r) [] _ eq_refl).
  cbn [after]. rewrite loop_stop by exact F1.
  now apply rmatch_chr_miss.
Qed.

(** r'><' *)
Lemma adjacent_miss bef aft K :
  tagged_from aft = true ->
  rmatch false (lit "><") (MState bef aft []) K = None.
Proof.
  revert bef aft K.
  apply (miss_by_head false (lit "><") 62%N
           (cls_union plain (set " <TAG_")) eq_refl eq_refl).
  intros bef t K H. destruct (tagged_close t H) as [l [r [-> Hl]]].
  reflexivity.
Qed.




(** ** The markers are written back as they are *)


(** ** White space of the text *)




(** ** Every pass leaves the text of plain words and line markers as it
    is *)

Ltac solve_miss :=
  first
    [ exact double_space_miss
    | exact close_open_miss
    | exact adjacent_miss
    | apply marker_miss;
      [ reflexivity
      | first [ intros; now apply tag_letter_miss
              | intros; now apply tag_digits_miss
              | intros; now apply tag_run_miss
              | intros; reflexivity ] ] ].

Ltac keep Hf :=
  match type of Hf with
  | tagged_from ?y = true =>
      match goal with
      | |- context [re_sub_i ?r ?t y] =>
          rewrite (tagged_re_sub_i r t y) by first [exact Hf | solve_miss]
      | |- context [re_sub ?r ?t y] =>
          rewrite (tagged_re_sub r t y) by first [exact Hf | solve_miss]
      end
  end.










(** ** The first pass on lines of plain words *)




(** ** The tag normalizer is idempotent on lines of plain words (C1) *)


(** Lines of one letter are a second way to fail: a run removes every
    other one of them, with its marker, and the next run goes on. *)
Lemma one_letter_lines_shrink :
  let x := [97; 10; 98; 10; 99; 10; 100; 10; 101]%N in
  normalize x = u "a <TAG_2> c <TAG_2> e" /\
  normalize (normalize x) = u "a <TAG_2> e".
Proof. split; vm_compute; reflexivity. Qed.


